(** * Baton: the workflow graph compiler and execution engine

    A shallow embedding of the graph builder ([builder.ts]: state
    reducers, [executeMetadataUpdate], [createNodeExecutor],
    [evaluateCondition], [createConditionRouter], [buildGraph]), of the
    graph executor ([executor.ts]: [executeGraph]) and of the schema
    definition ([types/state.ts]) used by
    [ManagerAgent.generateStateMachine].

    Conventions of the embedding.
    - JavaScript numbers that occur in the engine are attempt counters,
      retry budgets and clock readings; they are modelled by [Z].
    - A JavaScript object used as a record ([Record<string, T>]) is the
      list of its own enumerable properties in property order: integer
      index keys in ascending order first, then the other keys in the
      order of their creation.  Inherited members are outside the model.
    - Code that can throw returns a [completion]; asynchronous calls are
      sequenced as the [await]s of the source sequence them, over an
      explicit world that holds the clock and the delegates' state.
    - Console output is not modelled. *)

From Stdlib Require Import String Ascii List ZArith NArith Bool Lia.
From Stdlib Require Import DecimalString.
Import ListNotations.

Local Open Scope string_scope.
Local Open Scope Z_scope.

(** ** JavaScript values *)

Set Warnings "-register-all".

Inductive value : Type :=
| VUndefined
| VNull
| VBool (b : bool)
| VNum (z : Z)
| VStr (s : string)
| VArr (elems : list value)
| VObj (props : list (string * value))
| VFun.

(** [typeof v]. *)
Definition typeof (v : value) : string :=
  match v with
  | VUndefined => "undefined"
  | VNull => "object"
  | VBool _ => "boolean"
  | VNum _ => "number"
  | VStr _ => "string"
  | VArr _ => "object"
  | VObj _ => "object"
  | VFun => "function"
  end.

Definition is_null (v : value) : bool :=
  match v with VNull => true | _ => false end.

(** Truthiness of a string: only the empty string is falsy. *)
Definition truthy_string (s : string) : bool :=
  negb (s =? "")%string.

(** Truthiness of a [string | null] or optional string. *)
Definition truthy_opt (o : option string) : bool :=
  match o with
  | Some s => truthy_string s
  | None => false
  end.

(** ToBoolean. *)
Definition truthy (v : value) : bool :=
  match v with
  | VUndefined | VNull => false
  | VBool b => b
  | VNum z => negb (z =? 0)
  | VStr s => truthy_string s
  | VArr _ | VObj _ | VFun => true
  end.

(** Decimal rendering of a number inside a template literal. *)
Definition string_of_Z (z : Z) : string :=
  NilZero.string_of_int (Z.to_int z).

Definition string_of_nat (n : nat) : string :=
  NilZero.string_of_uint (Nat.to_uint n).

(** ** Objects as ordered property lists *)

Definition obj (A : Type) : Type := list (string * A).

Definition digit_of (c : ascii) : option N :=
  let n := N_of_ascii c in
  if ((48 <=? n) && (n <=? 57))%N then Some (n - 48)%N else None.

Fixpoint parse_digits (s : string) (acc : N) : option N :=
  match s with
  | EmptyString => Some acc
  | String c s' =>
      match digit_of c with
      | Some d => parse_digits s' (10 * acc + d)%N
      | None => None
      end
  end.

(** A property key is an array index when it is the canonical decimal
    string of an integer between 0 and 2^32 - 2; such keys come first in
    property order, in ascending numeric order. *)
Definition array_index (k : string) : option N :=
  match k with
  | EmptyString => None
  | String c rest =>
      if (c =? "0")%char then
        match rest with EmptyString => Some 0%N | _ => None end
      else
        match parse_digits k 0 with
        | Some n => if (n <=? 4294967294)%N then Some n else None
        | None => None
        end
  end.

Section Objects.
Context {A : Type}.

(** [o[k]], [undefined] being [None]. *)
Fixpoint obj_get (k : string) (o : obj A) : option A :=
  match o with
  | [] => None
  | (k', v) :: o' => if (k' =? k)%string then Some v else obj_get k o'
  end.

(** [k in o], for own properties. *)
Definition obj_has (k : string) (o : obj A) : bool :=
  match obj_get k o with Some _ => true | None => false end.

Fixpoint obj_replace (k : string) (v : A) (o : obj A) : obj A :=
  match o with
  | [] => []
  | (k', v') :: o' =>
      if (k' =? k)%string then (k, v) :: o'
      else (k', v') :: obj_replace k v o'
  end.

(** Creation of an index property: it goes before the first property
    that is not an index or has a larger index. *)
Fixpoint obj_insert_index (i : N) (k : string) (v : A) (o : obj A) : obj A :=
  match o with
  | [] => [(k, v)]
  | (k', v') :: o' =>
      match array_index k' with
      | Some j =>
          if (i <? j)%N then (k, v) :: o
          else (k', v') :: obj_insert_index i k v o'
      | None => (k, v) :: o
      end
  end.

(** [o[k] = v]: an existing property keeps its place, a new one is
    created at the place property order gives it. *)
Definition obj_set (k : string) (v : A) (o : obj A) : obj A :=
  if obj_has k o then obj_replace k v o
  else match array_index k with
       | Some i => obj_insert_index i k v o
       | None => (o ++ [(k, v)])%list
       end.

(** [{ ...a, ...b }]: the properties of [a], which is in property
    order, then each property of [b] set in turn. *)
Definition spread (a b : obj A) : obj A :=
  fold_left (fun acc kv => obj_set (fst kv) (snd kv) acc) b a.

(** [Object.keys(o)] and [Object.values(o)]. *)
Definition obj_keys (o : obj A) : list string := map fst o.
Definition obj_values (o : obj A) : list A := map snd o.

(** [xs.pop()] as an expression: the last element, or [undefined]. *)
Definition pop (xs : list A) : option A :=
  match rev xs with
  | [] => None
  | x :: _ => Some x
  end.

(** The last value written for [k] by a sequence of property
    definitions. *)
Definition last_write (k : string) (b : obj A) : option A :=
  fold_left (fun acc kv => if (fst kv =? k)%string then Some (snd kv) else acc)
            b None.

(** Two objects with the same properties, whatever their order. *)
Definition same_mapping (a b : obj A) : Prop :=
  forall k, obj_get k a = obj_get k b.

End Objects.

(** [{ [k]: v }]. *)
Definition singleton {A : Type} (k : string) (v : A) : obj A :=
  obj_set k v [].

(** The own enumerable properties a spread copies out of a value. *)
Fixpoint indexed (i : nat) (l : list value) : obj value :=
  match l with
  | [] => []
  | v :: l' => (string_of_nat i, v) :: indexed (S i) l'
  end.

Definition props_of (v : value) : obj value :=
  match v with
  | VObj ps => ps
  | VArr l => indexed 0 l
  | _ => []
  end.

(** ** Exceptions and the host environment *)

(** What a [catch] clause receives: an [Error] object with its message,
    or any other thrown value with its [String(...)] rendering. *)
Inductive exn : Type :=
| ErrorObject (message : string)
| Thrown (rendering : string).

(** [error instanceof Error ? error.message : String(error)]. *)
Definition message_of (e : exn) : string :=
  match e with
  | ErrorObject m => m
  | Thrown s => s
  end.

Inductive completion (A : Type) : Type :=
| Normal (a : A)
| Throw (e : exn).

Arguments Normal {A} a.
Arguments Throw {A} e.

(** [try { body } catch (e) { handler }] for code without other effects. *)
Definition catch {A : Type} (body : completion A) (handler : exn -> completion A)
  : completion A :=
  match body with
  | Normal a => Normal a
  | Throw e => handler e
  end.

Definition cbind {A B : Type} (c : completion A) (f : A -> completion B)
  : completion B :=
  match c with
  | Normal a => f a
  | Throw e => Throw e
  end.

(** What the engine takes from its host: the clock behind [Date.now()],
    the evaluation of [new Function(p1, ..., pn, "return (" + code + ")")]
    applied to its arguments (a function of the code and of the arguments
    only), and [JSON.stringify(o, null, 2)]. *)
Class Host : Type := {
  World : Type;
  date_now : World -> Z * World;
  js_eval : string -> list (string * value) -> completion value;
  json_stringify : obj string -> string
}.

Section Effects.
Context `{Host}.

(** Computations that read the clock and call delegates, and may
    throw. *)
Definition M (A : Type) : Type := World -> completion A * World.

Definition ret {A : Type} (a : A) : M A := fun w => (Normal a, w).

Definition bind {A B : Type} (m : M A) (f : A -> M B) : M B :=
  fun w =>
    match m w with
    | (Normal a, w') => f a w'
    | (Throw e, w') => (Throw e, w')
    end.

Definition lift {A : Type} (c : completion A) : M A := fun w => (c, w).

(** [try { body } catch (e) { handler }]. *)
Definition try_catch {A : Type} (body : M A) (handler : exn -> M A) : M A :=
  fun w =>
    match body w with
    | (Normal a, w') => (Normal a, w')
    | (Throw e, w') => handler e w'
    end.

(** [Date.now()]. *)
Definition now : M Z :=
  fun w => let (t, w') := date_now w in (Normal t, w').

(** The delegate bound to a node: [execute(prompt)] resolves to the
    output text or rejects. *)
Record CLIAgent : Type := { execute : string -> M string }.

End Effects.

Declare Scope engine_scope.
Delimit Scope engine_scope with engine.
Notation "x <- m ;; k" := (bind m (fun x => k))
  (at level 61, m at next level, right associativity) : engine_scope.
Notation "x <~ c ;; k" := (cbind c (fun x => k))
  (at level 61, c at next level, right associativity) : engine_scope.
Local Open Scope engine_scope.

(** [x ?? d]. *)
Definition nullish {A : Type} (x : option A) (d : A) : A :=
  match x with
  | Some a => a
  | None => d
  end.

(** ** The workflow schema ([types/state.ts]) *)

Record StateNodeDefinition : Type := {
  id : string;
  name : string;
  description : string;
  agentType : string;
  basePrompt : string;
  maxRetries : option Z;
  onSuccess : option string;
  onError : option string
}.

Record ConditionDefinition : Type := {
  code : string;
  condition_description : option string
}.

Record EdgeDefinition : Type := {
  from : string;
  to : string;
  condition : option ConditionDefinition
}.

Record StateMachineSchema : Type := {
  plan : string;
  diagram : string;
  nodes : list StateNodeDefinition;
  edges : list EdgeDefinition;
  startNodeId : string;
  endNodeId : string;
  initialMetadata : option (obj value)
}.

Record ConditionContext : Type := {
  ctx_nodeOutputs : obj string;
  ctx_metadata : obj value;
  ctx_error : option string;
  ctx_currentNode : option string
}.

(** The fields [$output], [$error], [$elapsedMs], [$retryCount],
    [$metadata] and [$nodeId]. *)
Record MetadataUpdateContext : Type := {
  hook_output : option string;
  hook_error : option string;
  hook_elapsedMs : Z;
  hook_retryCount : Z;
  hook_metadata : obj value;
  hook_nodeId : string
}.

(** ** The execution state and its reducers ([OrchestratorStateAnnotation]) *)

Record OrchestratorStateType : Type := {
  prompt : string;
  nodeOutputs : obj string;
  finalAnswer : string;
  error : option string;
  metadata : obj value;
  currentNode : option string;
  _retryCount : obj Z
}.

(** [Partial<OrchestratorStateType>]: what a node executor returns.  A
    field that is [None] is absent from the object; [upd_error] and
    [upd_currentNode] hold a [string | null] when present, and
    [upd_metadata] holds the object a hook produced. *)
Record Partial : Type := {
  upd_prompt : option string;
  upd_nodeOutputs : option (obj string);
  upd_finalAnswer : option string;
  upd_error : option (option string);
  upd_metadata : option value;
  upd_currentNode : option (option string);
  upd_retryCount : option (obj Z)
}.

Definition no_update : Partial :=
  {| upd_prompt := None; upd_nodeOutputs := None; upd_finalAnswer := None;
     upd_error := None; upd_metadata := None; upd_currentNode := None;
     upd_retryCount := None |}.

Module OrchestratorStateAnnotation.

(** [(_, y) => y]. *)
Definition overwrite {A : Type} (_ y : A) : A := y.

(** [(a, b) => ({ ...a, ...b })]. *)
Definition merge {A : Type} (a b : obj A) : obj A := spread a b.

Definition prompt_reducer : string -> string -> string := overwrite.
Definition nodeOutputs_reducer : obj string -> obj string -> obj string := merge.
Definition finalAnswer_reducer : string -> string -> string := overwrite.
Definition error_reducer : option string -> option string -> option string :=
  overwrite.
Definition metadata_reducer (a : obj value) (b : value) : obj value :=
  merge a (props_of b).
Definition currentNode_reducer : option string -> option string -> option string :=
  overwrite.
Definition retryCount_reducer : obj Z -> obj Z -> obj Z := merge.

Definition default : OrchestratorStateType :=
  {| prompt := ""; nodeOutputs := []; finalAnswer := ""; error := None;
     metadata := []; currentNode := None; _retryCount := [] |}.

End OrchestratorStateAnnotation.

(** Modelled from the spec: the application of a node's partial update by
    the graph library, which is not part of this repository.  Every field
    present in the update goes through that field's reducer; an absent
    field leaves the state's field as it is. *)
Definition apply_update (s : OrchestratorStateType) (u : Partial)
  : OrchestratorStateType :=
  let reduce {A B : Type} (r : A -> B -> A) (old : A) (new : option B) : A :=
    match new with
    | Some y => r old y
    | None => old
    end in
  {| prompt := reduce OrchestratorStateAnnotation.prompt_reducer (prompt s) (upd_prompt u);
     nodeOutputs :=
       reduce OrchestratorStateAnnotation.nodeOutputs_reducer
              (nodeOutputs s) (upd_nodeOutputs u);
     finalAnswer :=
       reduce OrchestratorStateAnnotation.finalAnswer_reducer
              (finalAnswer s) (upd_finalAnswer u);
     error := reduce OrchestratorStateAnnotation.error_reducer (error s) (upd_error u);
     metadata :=
       reduce OrchestratorStateAnnotation.metadata_reducer (metadata s) (upd_metadata u);
     currentNode :=
       reduce OrchestratorStateAnnotation.currentNode_reducer
              (currentNode s) (upd_currentNode u);
     _retryCount :=
       reduce OrchestratorStateAnnotation.retryCount_reducer
              (_retryCount s) (upd_retryCount u) |}.

(** ** The graph builder ([builder.ts]) *)

Definition value_of_opt (o : option string) (absent : value) : value :=
  match o with
  | Some s => VStr s
  | None => absent
  end.

Definition value_of_outputs (o : obj string) : value :=
  VObj (map (fun kv => (fst kv, VStr (snd kv))) o).

(** The [ctx] object a condition receives. *)
Definition value_of_ctx (ctx : ConditionContext) : value :=
  VObj [ ("nodeOutputs", value_of_outputs (ctx_nodeOutputs ctx));
         ("metadata", VObj (ctx_metadata ctx));
         ("error", value_of_opt (ctx_error ctx) VNull);
         ("currentNode", value_of_opt (ctx_currentNode ctx) VNull) ].

(** The parameters of a hook's function with the arguments it is
    called on. *)
Definition hook_arguments (context : MetadataUpdateContext)
  : list (string * value) :=
  [ ("$output", value_of_opt (hook_output context) VUndefined);
    ("$error", value_of_opt (hook_error context) VUndefined);
    ("$elapsedMs", VNum (hook_elapsedMs context));
    ("$retryCount", VNum (hook_retryCount context));
    ("$metadata", VObj (hook_metadata context));
    ("$nodeId", VStr (hook_nodeId context)) ].

(** The [ctx] a router builds from the state. *)
Definition context_of (state : OrchestratorStateType) : ConditionContext :=
  {| ctx_nodeOutputs := nodeOutputs state;
     ctx_metadata := metadata state;
     ctx_error := error state;
     ctx_currentNode := currentNode state |}.

(** [Map.prototype.get] on the agent map. *)
Definition map_get {V : Type} (k : string) (m : list (string * V)) : option V :=
  obj_get k m.

Definition END : string := "__end__".
Definition START : string := "__start__".

(** What a router returns: [string | string[]]. *)
Inductive route : Type :=
| RString (s : string)
| RArray (l : list string).

(** Modelled from the spec: the node ids the graph library activates for
    a router's answer; [END] activates nothing. *)
Definition destinations (r : route) : list string :=
  match r with
  | RString s => if (s =? END)%string then [] else [s]
  | RArray l => filter (fun s => negb (s =? END)%string) l
  end.

(** The strings a router's answer holds, [END] included. *)
Definition answers (r : route) : list string :=
  match r with
  | RString s => [s]
  | RArray l => l
  end.

(** The graph under construction: what [addNode], [addEdge] and
    [addConditionalEdges] have recorded. *)
Inductive graph_edge (R : Type) : Type :=
| Edge (source target : string)
| ConditionalEdges (source : string) (router : R) (pathMap : list string).

Arguments Edge {R} source target.
Arguments ConditionalEdges {R} source router pathMap.

Record StateGraph (X R : Type) : Type := {
  graph_nodes : list (string * X);
  graph_edges : list (graph_edge R)
}.

Arguments graph_nodes {X R} _.
Arguments graph_edges {X R} _.

(** [[...new Set(xs)]]: first occurrences, in order. *)
Fixpoint dedupe_from (seen xs : list string) : list string :=
  match xs with
  | [] => []
  | x :: xs' =>
      if existsb (String.eqb x) seen then dedupe_from seen xs'
      else x :: dedupe_from (x :: seen) xs'
  end.

Definition dedupe (xs : list string) : list string := dedupe_from [] xs.

Record BuildGraphOptions : Type := {
  options_initialMetadata : option (obj value)
}.

Section Builder.
Context `{Host}.

Definition executeMetadataUpdate (code : string) (context : MetadataUpdateContext)
  : completion value :=
  catch
    (result <~ js_eval code (hook_arguments context) ;;
     Normal (if (typeof result =? "object")%string && negb (is_null result)
             then result else VObj []))
    (fun _ => Normal (VObj [])).

Definition createNodeExecutor (node : StateNodeDefinition)
           (agents : list (string * CLIAgent)) (state : OrchestratorStateType)
  : M Partial :=
  match map_get (id node) agents with
  | None =>
      ret {| upd_prompt := None; upd_nodeOutputs := None; upd_finalAnswer := None;
             upd_error := Some (Some ("No agent available for node: " ++ id node));
             upd_metadata := None;
             upd_currentNode := Some (Some (id node));
             upd_retryCount := None |}
  | Some agent =>
      startTime <- now ;;
      let attemptNumber := nullish (obj_get (id node) (_retryCount state)) 0 + 1 in
      let maxRetries := nullish (maxRetries node) 0 in
      let totalAttempts := maxRetries + 1 in
      try_catch
        (let fullPrompt :=
           basePrompt node ++ "

Context from previous steps:
" ++ json_stringify (nodeOutputs state) in
         output <- execute agent fullPrompt ;;
         endTime <- now ;;
         let elapsedMs := endTime - startTime in
         metadataUpdate <-
           lift (if truthy_opt (onSuccess node)
                 then executeMetadataUpdate (nullish (onSuccess node) "")
                        {| hook_output := Some output;
                           hook_error := None;
                           hook_elapsedMs := elapsedMs;
                           hook_retryCount := attemptNumber - 1;
                           hook_metadata := metadata state;
                           hook_nodeId := id node |}
                 else Normal (VObj [])) ;;
         ret {| upd_prompt := None;
                upd_nodeOutputs := Some (singleton (id node) output);
                upd_finalAnswer := None;
                upd_error := Some None;
                upd_metadata := Some metadataUpdate;
                upd_currentNode := Some (Some (id node));
                upd_retryCount := Some (singleton (id node) attemptNumber) |})
        (fun error =>
           let errorMessage := message_of error in
           endTime <- now ;;
           let elapsedMs := endTime - startTime in
           metadataUpdate <-
             lift (if truthy_opt (onError node)
                   then executeMetadataUpdate (nullish (onError node) "")
                          {| hook_output := None;
                             hook_error := Some errorMessage;
                             hook_elapsedMs := elapsedMs;
                             hook_retryCount := attemptNumber - 1;
                             hook_metadata := metadata state;
                             hook_nodeId := id node |}
                   else Normal (VObj [])) ;;
           if attemptNumber <? totalAttempts then
             ret {| upd_prompt := None; upd_nodeOutputs := None;
                    upd_finalAnswer := None;
                    upd_error := Some (Some errorMessage);
                    upd_metadata := Some metadataUpdate;
                    upd_currentNode := Some (Some (id node));
                    upd_retryCount := Some (singleton (id node) attemptNumber) |}
           else
             ret {| upd_prompt := None; upd_nodeOutputs := None;
                    upd_finalAnswer := None;
                    upd_error :=
                      Some (Some ("Node " ++ id node ++ " failed after "
                                    ++ string_of_Z attemptNumber
                                    ++ " attempts: " ++ errorMessage));
                    upd_metadata := Some metadataUpdate;
                    upd_currentNode := Some (Some (id node));
                    upd_retryCount := Some (singleton (id node) attemptNumber) |})
  end.

Definition evaluateCondition (conditionCode : string) (ctx : ConditionContext)
  : completion value :=
  catch (js_eval conditionCode [("ctx", value_of_ctx ctx)])
        (fun _ => Normal (VBool false)).

(** The loop of the exhausted-retry rule: the first conditional edge,
    in declaration order, whose condition holds. *)
Fixpoint first_matching_edge (ctx : ConditionContext)
         (outgoingEdges : list EdgeDefinition) : completion route :=
  match outgoingEdges with
  | [] => Normal (RString END)
  | edge :: rest =>
      match condition edge with
      | Some c =>
          b <~ evaluateCondition (code c) ctx ;;
          if truthy b then Normal (RString (to edge))
          else first_matching_edge ctx rest
      | None => first_matching_edge ctx rest
      end
  end.

(** The loop over the conditional edges of the success rule, pushing
    onto [destinations]. *)
Fixpoint push_matching_edges (ctx : ConditionContext)
         (conditionalEdges : list EdgeDefinition) (destinations : list string)
  : completion (list string) :=
  match conditionalEdges with
  | [] => Normal destinations
  | edge :: rest =>
      b <~ evaluateCondition
             (match condition edge with Some c => code c | None => "" end) ctx ;;
      push_matching_edges ctx rest
        (if truthy b then (destinations ++ [to edge])%list else destinations)
  end.

Definition has_condition (e : EdgeDefinition) : bool :=
  match condition e with Some _ => true | None => false end.

Definition createConditionRouter (schema : StateMachineSchema) (fromNodeId : string)
           (state : OrchestratorStateType) : completion route :=
  let outgoingEdges :=
    filter (fun e => (from e =? fromNodeId)%string) (edges schema) in
  let node := find (fun n => (id n =? fromNodeId)%string) (nodes schema) in
  let totalAttempts :=
    nullish (match node with Some n => maxRetries n | None => None end) 0 + 1 in
  let ctx := context_of state in
  let attemptNumber := nullish (obj_get fromNodeId (_retryCount state)) 0 in
  let hasOutput := obj_has fromNodeId (nodeOutputs state) in
  if truthy_opt (error state) && negb hasOutput && (attemptNumber <? totalAttempts)
  then Normal (RString fromNodeId)
  else if truthy_opt (error state) && (attemptNumber >=? totalAttempts)
  then first_matching_edge ctx outgoingEdges
  else
    let unconditionalEdges := filter (fun e => negb (has_condition e)) outgoingEdges in
    let destinations := map to unconditionalEdges in
    let conditionalEdges := filter has_condition outgoingEdges in
    destinations <~ push_matching_edges ctx conditionalEdges destinations ;;
    match destinations with
    | [] => Normal (RString END)
    | [d] => Normal (RString d)
    | _ => Normal (RArray destinations)
    end.

Definition Executor : Type := OrchestratorStateType -> M Partial.
Definition Router : Type := OrchestratorStateType -> completion route.

(** The conditional edges of a node: its router, with the
    destinations the router can answer. *)
Definition wire_router (schema : StateMachineSchema) (nodeId : string)
           (outgoingEdges : list EdgeDefinition) (hasRetry : bool)
  : list (graph_edge Router) :=
  let possibleDestinations :=
    (map to outgoingEdges ++ [END] ++ (if hasRetry then [nodeId] else []))%list in
  [ConditionalEdges nodeId (createConditionRouter schema nodeId)
                    (dedupe possibleDestinations)].

(** The body of the loop over [nodesWithOutgoingEdges]: what is added
    to the graph for one node id. *)
Definition wire_node (schema : StateMachineSchema) (nodeId : string)
  : list (graph_edge Router) :=
  let outgoingEdges := filter (fun e => (from e =? nodeId)%string) (edges schema) in
  let hasConditions := existsb has_condition outgoingEdges in
  let node := find (fun n => (id n =? nodeId)%string) (nodes schema) in
  let hasRetry :=
    nullish (match node with Some n => maxRetries n | None => None end) 0 >? 0 in
  if hasConditions || (1 <? Z.of_nat (length outgoingEdges)) || hasRetry then
    wire_router schema nodeId outgoingEdges hasRetry
  else
    match outgoingEdges with
    | [edge] => [Edge nodeId (to edge)]
    | _ => []
    end.

Definition buildGraph (schema : StateMachineSchema)
           (agents : list (string * CLIAgent)) (options : option BuildGraphOptions)
  : StateGraph Executor Router * obj value :=
  let nodesWithOutgoingEdges := dedupe (map from (edges schema)) in
  let endNodeHasOutgoing :=
    existsb (fun e => (from e =? endNodeId schema)%string) (edges schema) in
  let endNodeExists :=
    existsb (fun n => (id n =? endNodeId schema)%string) (nodes schema) in
  ({| graph_nodes :=
        map (fun node => (id node, createNodeExecutor node agents)) (nodes schema);
      graph_edges :=
        ([Edge START (startNodeId schema)]
           ++ flat_map (wire_node schema) nodesWithOutgoingEdges
           ++ (if negb endNodeHasOutgoing && endNodeExists
               then [Edge (endNodeId schema) END] else []))%list |},
   spread (nullish (initialMetadata schema) [])
          (nullish (match options with
                    | Some o => options_initialMetadata o
                    | None => None
                    end) [])).

(** Modelled from the spec: the destinations the graph library computes
    from the compiled graph when [nodeId] completes in [state], a plain
    edge giving its target and conditional edges what their router
    answers. *)
Fixpoint successors (es : list (graph_edge Router)) (nodeId : string)
         (state : OrchestratorStateType) : completion (list string) :=
  match es with
  | [] => Normal []
  | Edge source target :: es' =>
      rest <~ successors es' nodeId state ;;
      Normal (if (source =? nodeId)%string
              then (destinations (RString target) ++ rest)%list else rest)
  | ConditionalEdges source router _ :: es' =>
      if (source =? nodeId)%string then
        r <~ router state ;;
        rest <~ successors es' nodeId state ;;
        Normal (destinations r ++ rest)%list
      else successors es' nodeId state
  end.

(** Modelled from the spec: what the graph library activates from the
    compiled graph when [nodeId] completes in [state].  A plain edge
    activates its target.  Conditional edges ask their router, and the
    library takes from the router only the destinations declared with
    it in [addConditionalEdges]: for an answer that holds any other
    string it throws an [Error]. *)
Fixpoint activated (es : list (graph_edge Router)) (nodeId : string)
         (state : OrchestratorStateType) : completion (list string) :=
  match es with
  | [] => Normal []
  | Edge source target :: es' =>
      rest <~ activated es' nodeId state ;;
      Normal (if (source =? nodeId)%string
              then (destinations (RString target) ++ rest)%list else rest)
  | ConditionalEdges source router pathMap :: es' =>
      if (source =? nodeId)%string then
        r <~ router state ;;
        if forallb (fun d => existsb (String.eqb d) pathMap) (answers r) then
          rest <~ activated es' nodeId state ;;
          Normal (destinations r ++ rest)%list
        else
          Throw (ErrorObject "Branch condition returned unknown or null destination")
      else activated es' nodeId state
  end.

(** Modelled from the spec: the engine's steps on the graph that
    [buildGraph] compiles for [schema], while the active set is the
    single node [node]: run its executor, apply the update, take what
    the compiled graph activates, and go on while that is the node
    itself and nothing else.  The result lists the state and the
    activated nodes after each attempt; [None] when [fuel] steps, the
    engine's step limit, were not enough. *)
Fixpoint run_node (fuel : nat) (schema : StateMachineSchema)
         (node : StateNodeDefinition) (agents : list (string * CLIAgent))
         (state : OrchestratorStateType)
  : M (option (list (OrchestratorStateType * list string))) :=
  match fuel with
  | O => ret None
  | S fuel' =>
      update <- createNodeExecutor node agents state ;;
      let state' := apply_update state update in
      next <- lift (activated (graph_edges (fst (buildGraph schema agents None)))
                              (id node) state') ;;
      match next with
      | [d] =>
          if (d =? id node)%string then
            more <- run_node fuel' schema node agents state' ;;
            ret (match more with
                 | Some trace => Some ((state', next) :: trace)
                 | None => None
                 end)
          else ret (Some [(state', next)])
      | _ => ret (Some [(state', next)])
      end
  end.

End Builder.

(** ** The graph executor ([executor.ts]) *)

Record ExecutionResult : Type := {
  result_finalAnswer : string;
  result_nodeOutputs : obj string;
  result_metadata : obj value;
  result_error : option string
}.

Record InitialState : Type := {
  initial_prompt : string;
  initial_metadata : option (obj value)
}.

(** [x || d] on a [string | undefined]. *)
Definition or_default (x : option string) (d : string) : string :=
  match x with
  | Some s => if truthy_string s then s else d
  | None => d
  end.

(** The [finalAnswer] expression. *)
Definition final_answer_of (result : OrchestratorStateType) : string :=
  if truthy_opt (error result)
  then "Error during execution: " ++ nullish (error result) ""
  else or_default (pop (obj_values (nodeOutputs result))) "No output generated".

(** The state [executeGraph] starts the graph from. *)
Definition initial_state (initialState : InitialState) : OrchestratorStateType :=
  {| prompt := initial_prompt initialState;
     nodeOutputs := [];
     finalAnswer := "";
     error := None;
     metadata := nullish (initial_metadata initialState) [];
     currentNode := None;
     _retryCount := [] |}.

Section Executor.
Context `{Host}.

(** [graph] is the compiled graph's [invoke]. *)
Definition executeGraph (graph : OrchestratorStateType -> M OrchestratorStateType)
           (initialState : InitialState) : M ExecutionResult :=
  let state := initial_state initialState in
  try_catch
    (result <- graph state ;;
     ret {| result_finalAnswer := final_answer_of result;
            result_nodeOutputs := nodeOutputs result;
            result_metadata := metadata result;
            result_error := error result |})
    (fun error =>
       let errorMessage := message_of error in
       ret {| result_finalAnswer := "Execution failed: " ++ errorMessage;
              result_nodeOutputs := [];
              result_metadata := nullish (initial_metadata initialState) [];
              result_error := Some errorMessage |}).

End Executor.

(** ** Schema validation ([types/state.ts], [ManagerAgent.generateStateMachine]) *)

(** The schema combinators the definitions use.  Their parsing
    discipline is the schema library's: every field of an object and
    every element of an array is checked and all issues are collected;
    unknown keys of an object are stripped from the parsed data. *)
Inductive ZodType : Type :=
| z_string
| z_number
| z_unknown
| z_enum (options : list string)
| z_optional (inner : ZodType)
| z_array (element : ZodType)
| z_object (shape : list (string * ZodType))
| z_record (valueType : ZodType).

Inductive path_elem : Type :=
| Key (k : string)
| Index (i : nat).

Inductive ZodIssue : Type :=
| invalid_type (expected received : string) (path : list path_elem)
| invalid_enum_value (options : list string) (received : string)
                     (path : list path_elem).

Definition parsed_type (v : value) : string :=
  match v with
  | VUndefined => "undefined"
  | VNull => "null"
  | VBool _ => "boolean"
  | VNum _ => "number"
  | VStr _ => "string"
  | VArr _ => "array"
  | VObj _ => "object"
  | VFun => "function"
  end.

(** [xs.includes(x)]. *)
Definition mem (x : string) (xs : list string) : bool := existsb (String.eqb x) xs.

(** The expected type an issue names for an enumeration:
    ['a' | 'b' | ...]. *)
Definition enum_expected (options : list string) : string :=
  String.concat " | " (map (fun o => "'" ++ o ++ "'") options).

(** [data[k]]. *)
Definition field (k : string) (ps : obj value) : value :=
  nullish (obj_get k ps) VUndefined.

(** [xs.flatMap((x, i) => f(i, x))], counting from [i]. *)
Fixpoint flat_mapi {A B : Type} (f : nat -> A -> list B) (i : nat) (l : list A)
  : list B :=
  match l with
  | [] => []
  | x :: l' => (f i x ++ flat_mapi f (S i) l')%list
  end.

Fixpoint zod_issues (t : ZodType) (path : list path_elem) (v : value)
  : list ZodIssue :=
  match t with
  | z_string =>
      match v with
      | VStr _ => []
      | _ => [invalid_type "string" (parsed_type v) path]
      end
  | z_number =>
      match v with
      | VNum _ => []
      | _ => [invalid_type "number" (parsed_type v) path]
      end
  | z_unknown => []
  | z_enum options =>
      match v with
      | VStr s =>
          if mem s options then []
          else [invalid_enum_value options s path]
      | _ => [invalid_type (enum_expected options) (parsed_type v) path]
      end
  | z_optional inner =>
      match v with
      | VUndefined => []
      | _ => zod_issues inner path v
      end
  | z_array element =>
      match v with
      | VArr l =>
          flat_mapi (fun i x => zod_issues element (path ++ [Index i]) x) O l
      | _ => [invalid_type "array" (parsed_type v) path]
      end
  | z_object shape =>
      match v with
      | VObj ps =>
          flat_map (fun kt : string * ZodType =>
                      let (k, tk) := kt in
                      zod_issues tk (path ++ [Key k]) (field k ps))
                   shape
      | _ => [invalid_type "object" (parsed_type v) path]
      end
  | z_record valueType =>
      match v with
      | VObj ps =>
          flat_map (fun kx : string * value =>
                      zod_issues valueType (path ++ [Key (fst kx)]) (snd kx))
                   ps
      | _ => [invalid_type "object" (parsed_type v) path]
      end
  end.

(** The parsed data of a value without issues. *)
Fixpoint zod_output (t : ZodType) (v : value) : value :=
  match t with
  | z_optional inner =>
      match v with
      | VUndefined => VUndefined
      | _ => zod_output inner v
      end
  | z_array element =>
      match v with
      | VArr l => VArr (map (zod_output element) l)
      | _ => v
      end
  | z_object shape =>
      match v with
      | VObj ps =>
          VObj (flat_map (fun kt : string * ZodType =>
                            let (k, tk) := kt in
                            if obj_has k ps
                            then [(k, zod_output tk (field k ps))]
                            else [])
                         shape)
      | _ => v
      end
  | z_record valueType =>
      match v with
      | VObj ps => VObj (map (fun kx => (fst kx, zod_output valueType (snd kx))) ps)
      | _ => v
      end
  | _ => v
  end.

(** [schema.parse(data)]: the parsed data, or the error with all its
    issues. *)
Definition zod_parse (t : ZodType) (data : value) : value + list ZodIssue :=
  match zod_issues t [] data with
  | [] => inl (zod_output t data)
  | issues => inr issues
  end.

(** [createAgentTypeSchema], over the agent roster of the
    configuration. *)
Definition createAgentTypeSchema (config_agents : list string) : ZodType :=
  match config_agents with
  | [] => z_enum ["claude"; "codex"; "gemini"]
  | _ => z_enum config_agents
  end.

Definition AgentTypeSchema : ZodType := z_enum ["claude"; "codex"; "gemini"].

Definition node_shape (agentTypeSchema : ZodType) : ZodType :=
  z_object [ ("id", z_string);
             ("name", z_string);
             ("description", z_string);
             ("agentType", agentTypeSchema);
             ("basePrompt", z_string);
             ("maxRetries", z_optional z_number);
             ("onSuccess", z_optional z_string);
             ("onError", z_optional z_string) ].

Definition createStateNodeDefinitionSchema (config_agents : list string) : ZodType :=
  node_shape (createAgentTypeSchema config_agents).

Definition StateNodeDefinitionSchema : ZodType := node_shape AgentTypeSchema.

Definition ConditionDefinitionSchema : ZodType :=
  z_object [ ("code", z_string); ("description", z_optional z_string) ].

Definition EdgeDefinitionSchema : ZodType :=
  z_object [ ("from", z_string);
             ("to", z_string);
             ("condition", z_optional ConditionDefinitionSchema) ].

Definition machine_shape (stateNodeSchema : ZodType) : ZodType :=
  z_object [ ("plan", z_string);
             ("diagram", z_string);
             ("nodes", z_array stateNodeSchema);
             ("edges", z_array EdgeDefinitionSchema);
             ("startNodeId", z_string);
             ("endNodeId", z_string);
             ("initialMetadata", z_optional (z_record z_unknown)) ].

Definition createStateMachineSchemaDefinition (config_agents : list string)
  : ZodType :=
  machine_shape (createStateNodeDefinitionSchema config_agents).

Definition StateMachineSchemaDefinition : ZodType :=
  machine_shape StateNodeDefinitionSchema.

(** The validation step of [generateStateMachine], from the parsed
    response on. *)
Definition generateStateMachine_validate (config_agents : list string)
           (parsed : value) : value + list ZodIssue :=
  zod_parse (createStateMachineSchemaDefinition config_agents) parsed.

(** *** The validated document seen as a [StateMachineSchema] *)

Definition obind {A B : Type} (o : option A) (f : A -> option B) : option B :=
  match o with
  | Some a => f a
  | None => None
  end.

Notation "x <-? o ;; k" := (obind o (fun x => k))
  (at level 61, o at next level, right associativity) : engine_scope.

Definition as_string (v : value) : option string :=
  match v with VStr s => Some s | _ => None end.

Definition as_optional {A : Type} (f : value -> option A) (v : value)
  : option (option A) :=
  match v with
  | VUndefined => Some None
  | _ => match f v with Some a => Some (Some a) | None => None end
  end.

Definition as_number (v : value) : option Z :=
  match v with VNum z => Some z | _ => None end.

Fixpoint as_list {A : Type} (f : value -> option A) (l : list value)
  : option (list A) :=
  match l with
  | [] => Some []
  | x :: l' =>
      a <-? f x ;;
      rest <-? as_list f l' ;;
      Some (a :: rest)
  end.

Definition as_array {A : Type} (f : value -> option A) (v : value)
  : option (list A) :=
  match v with VArr l => as_list f l | _ => None end.

Definition as_record (v : value) : option (obj value) :=
  match v with VObj ps => Some ps | _ => None end.

Definition node_of_value (v : value) : option StateNodeDefinition :=
  match v with
  | VObj ps =>
      i <-? as_string (field "id" ps) ;;
      n <-? as_string (field "name" ps) ;;
      d <-? as_string (field "description" ps) ;;
      a <-? as_string (field "agentType" ps) ;;
      b <-? as_string (field "basePrompt" ps) ;;
      m <-? as_optional as_number (field "maxRetries" ps) ;;
      s <-? as_optional as_string (field "onSuccess" ps) ;;
      e <-? as_optional as_string (field "onError" ps) ;;
      Some {| id := i; name := n; description := d; agentType := a;
              basePrompt := b; maxRetries := m; onSuccess := s; onError := e |}
  | _ => None
  end.

Definition condition_of_value (v : value) : option ConditionDefinition :=
  match v with
  | VObj ps =>
      c <-? as_string (field "code" ps) ;;
      d <-? as_optional as_string (field "description" ps) ;;
      Some {| code := c; condition_description := d |}
  | _ => None
  end.

Definition edge_of_value (v : value) : option EdgeDefinition :=
  match v with
  | VObj ps =>
      f <-? as_string (field "from" ps) ;;
      t <-? as_string (field "to" ps) ;;
      c <-? as_optional condition_of_value (field "condition" ps) ;;
      Some {| from := f; to := t; condition := c |}
  | _ => None
  end.

Definition schema_of_value (v : value) : option StateMachineSchema :=
  match v with
  | VObj ps =>
      p <-? as_string (field "plan" ps) ;;
      d <-? as_string (field "diagram" ps) ;;
      ns <-? as_array node_of_value (field "nodes" ps) ;;
      es <-? as_array edge_of_value (field "edges" ps) ;;
      s <-? as_string (field "startNodeId" ps) ;;
      e <-? as_string (field "endNodeId" ps) ;;
      m <-? as_optional as_record (field "initialMetadata" ps) ;;
      Some {| plan := p; diagram := d; nodes := ns; edges := es;
              startNodeId := s; endNodeId := e; initialMetadata := m |}
  | _ => None
  end.

(** The document that denotes a schema. *)
Definition optional_field {A : Type} (k : string) (f : A -> value) (o : option A)
  : obj value :=
  match o with
  | Some a => [(k, f a)]
  | None => []
  end.

Definition value_of_node (n : StateNodeDefinition) : value :=
  VObj ([ ("id", VStr (id n));
          ("name", VStr (name n));
          ("description", VStr (description n));
          ("agentType", VStr (agentType n));
          ("basePrompt", VStr (basePrompt n)) ]
          ++ optional_field "maxRetries" VNum (maxRetries n)
          ++ optional_field "onSuccess" VStr (onSuccess n)
          ++ optional_field "onError" VStr (onError n))%list.

Definition value_of_condition (c : ConditionDefinition) : value :=
  VObj ([ ("code", VStr (code c)) ]
          ++ optional_field "description" VStr (condition_description c))%list.

Definition value_of_edge (e : EdgeDefinition) : value :=
  VObj ([ ("from", VStr (from e)); ("to", VStr (to e)) ]
          ++ optional_field "condition" value_of_condition (condition e))%list.

Definition value_of_schema (s : StateMachineSchema) : value :=
  VObj ([ ("plan", VStr (plan s));
          ("diagram", VStr (diagram s));
          ("nodes", VArr (map value_of_node (nodes s)));
          ("edges", VArr (map value_of_edge (edges s)));
          ("startNodeId", VStr (startNodeId s));
          ("endNodeId", VStr (endNodeId s)) ]
          ++ optional_field "initialMetadata" VObj (initialMetadata s))%list.

(** *** The invariant the specification states for a workflow schema *)

Definition node_ids (s : StateMachineSchema) : list string := map id (nodes s).

Fixpoint all_distinct (xs : list string) : bool :=
  match xs with
  | [] => true
  | x :: xs' => negb (mem x xs') && all_distinct xs'
  end.

(** Node ids are unique, every edge endpoint is a node id, the start and
    the end node exist, and no [maxRetries] is negative. *)
Definition spec_well_formed (s : StateMachineSchema) : bool :=
  all_distinct (node_ids s)
  && forallb (fun e => mem (from e) (node_ids s) && mem (to e) (node_ids s)) (edges s)
  && mem (startNodeId s) (node_ids s)
  && mem (endNodeId s) (node_ids s)
  && forallb (fun n => 0 <=? nullish (maxRetries n) 0) (nodes s).

(** A node of the shape the schema declares, with an agent type of the
    roster. *)
Definition agent_allowed (config_agents : list string) (n : StateNodeDefinition)
  : bool :=
  match config_agents with
  | [] => mem (agentType n) ["claude"; "codex"; "gemini"]
  | _ => mem (agentType n) config_agents
  end.

(** *** What counts as a violation of a declared shape *)

(** [violation t path v i]: somewhere inside [v], at a position reached
    through declared object fields, array elements, record entries and
    present optional values, a value does not have the type [t] declares
    there, and [i] is the issue for that position. *)
Inductive violation : ZodType -> list path_elem -> value -> ZodIssue -> Prop :=
| viol_string p v :
    (forall s, v <> VStr s) ->
    violation z_string p v (invalid_type "string" (parsed_type v) p)
| viol_number p v :
    (forall z, v <> VNum z) ->
    violation z_number p v (invalid_type "number" (parsed_type v) p)
| viol_enum_type options p v :
    (forall s, v <> VStr s) ->
    violation (z_enum options) p v
              (invalid_type (enum_expected options) (parsed_type v) p)
| viol_enum_value options p s :
    mem s options = false ->
    violation (z_enum options) p (VStr s) (invalid_enum_value options s p)
| viol_optional t p v i :
    v <> VUndefined ->
    violation t p v i ->
    violation (z_optional t) p v i
| viol_array_type t p v :
    (forall l, v <> VArr l) ->
    violation (z_array t) p v (invalid_type "array" (parsed_type v) p)
| viol_array_element t p l n x i :
    nth_error l n = Some x ->
    violation t (p ++ [Index n]) x i ->
    violation (z_array t) p (VArr l) i
| viol_object_type shape p v :
    (forall ps, v <> VObj ps) ->
    violation (z_object shape) p v (invalid_type "object" (parsed_type v) p)
| viol_object_field shape p ps k t i :
    In (k, t) shape ->
    violation t (p ++ [Key k]) (field k ps) i ->
    violation (z_object shape) p (VObj ps) i
| viol_record_type t p v :
    (forall ps, v <> VObj ps) ->
    violation (z_record t) p v (invalid_type "object" (parsed_type v) p)
| viol_record_entry t p ps k x i :
    In (k, x) ps ->
    violation t (p ++ [Key k]) x i ->
    violation (z_record t) p (VObj ps) i.

(** ** Notions used to state the properties *)

(** The router's answer for a list of destinations. *)
Definition pack (destinations : list string) : route :=
  match destinations with
  | [] => RString END
  | [d] => RString d
  | _ => RArray destinations
  end.

Section Notions.
Context `{Host}.

(** A conditional edge whose condition evaluates to a truthy value. *)
Definition condition_holds (ctx : ConditionContext) (e : EdgeDefinition) : bool :=
  match condition e with
  | Some c =>
      match evaluateCondition (code c) ctx with
      | Normal b => truthy b
      | Throw _ => false
      end
  | None => false
  end.

Definition outgoing (schema : StateMachineSchema) (nodeId : string)
  : list EdgeDefinition :=
  filter (fun e => (from e =? nodeId)%string) (edges schema).

(** A delegate that rejects every call. *)
Definition always_fails (agent : CLIAgent) : Prop :=
  forall p w, exists e w', execute agent p w = (Throw e, w').

(** A delegate none of whose rejections has an empty message. *)
Definition never_silent (agent : CLIAgent) : Prop :=
  forall p w e w', execute agent p w = (Throw e, w') -> message_of e <> "".

(** The prompt a node's delegate receives. *)
Definition full_prompt (node : StateNodeDefinition) (state : OrchestratorStateType)
  : string :=
  basePrompt node ++ "

Context from previous steps:
" ++ json_stringify (nodeOutputs state).

End Notions.

(** Two updates of a mapping agree when they give the same value to
    every key both of them write. *)
Definition agree {A : Type} (p1 p2 : obj A) : Prop :=
  forall k v1 v2, last_write k p1 = Some v1 -> last_write k p2 = Some v2 -> v1 = v2.

(** The mapping a partial update brings for [nodeOutputs] and for
    [metadata]; nothing when the field is absent. *)
Definition outputs_of (u : Partial) : obj string := nullish (upd_nodeOutputs u) [].
Definition metadata_of (u : Partial) : obj value :=
  match upd_metadata u with
  | Some b => props_of b
  | None => []
  end.

(** The text of the error after the last attempt. *)
Definition exhausted_message (nodeId : string) (attempts : Z) (msg : string)
  : string :=
  "Node " ++ nodeId ++ " failed after " ++ string_of_Z attempts
          ++ " attempts: " ++ msg.

(** What the run shows after attempt number [n] of a node with
    [maxRetries = k] whose delegate keeps failing: the attempt is
    counted, the node has no output, and the compiled graph activates
    the node itself with the delegate's message as error while attempts
    remain, and nothing with the message that states the attempt count
    after the last one. *)
Definition attempt_recorded (nodeId : string) (k n : Z)
           (sr : OrchestratorStateType * list string) : Prop :=
  obj_get nodeId (_retryCount (fst sr)) = Some n
  /\ obj_has nodeId (nodeOutputs (fst sr)) = false
  /\ if n <? k + 1
     then snd sr = [nodeId]
          /\ exists msg, msg <> "" /\ error (fst sr) = Some msg
     else snd sr = []
          /\ exists msg, error (fst sr) = Some (exhausted_message nodeId n msg).

(** The entries of a trace record the attempts [n], [n + 1], ... *)
Fixpoint attempts_from (nodeId : string) (k n : Z)
         (trace : list (OrchestratorStateType * list string)) : Prop :=
  match trace with
  | [] => True
  | sr :: rest =>
      attempt_recorded nodeId k n sr /\ attempts_from nodeId k (n + 1) rest
  end.

(** ** Concrete runs *)

(** A host for concrete runs: a clock that advances by one millisecond at
    every reading, and an evaluator that knows a few expressions and
    throws on anything else. *)
Definition demo_eval (code : string) (args : list (string * value))
  : completion value :=
  if (code =? "({ ok: true })")%string then Normal (VObj [("ok", VBool true)])
  else if (code =? "({ ok: false })")%string then Normal (VObj [("ok", VBool false)])
  else if (code =? "true")%string then Normal (VBool true)
  else if (code =? "42")%string then Normal (VNum 42)
  else Throw (ErrorObject "Unexpected token").

#[local] Instance demo_host : Host :=
  {| World := Z;
     date_now := fun w => (w, w + 1);
     js_eval := demo_eval;
     json_stringify := fun _ => "{}" |}.

Definition failing_agent : CLIAgent :=
  {| execute := fun _ w => (Throw (ErrorObject "boom"), w) |}.

Definition answering_agent (answer : string) : CLIAgent :=
  {| execute := fun _ w => (Normal answer, w) |}.

Definition demo_node (i : string) (retries : option Z) (success : option string)
  : StateNodeDefinition :=
  {| id := i; name := i; description := ""; agentType := "claude";
     basePrompt := "Do " ++ i; maxRetries := retries;
     onSuccess := success; onError := None |}.

Definition demo_edge (f t : string) : EdgeDefinition :=
  {| from := f; to := t; condition := None |}.

(** [A -> B], both nodes with the default retry budget. *)
Definition linear_schema : StateMachineSchema :=
  {| plan := "two steps"; diagram := "A -> B";
     nodes := [demo_node "A" None None; demo_node "B" None None];
     edges := [demo_edge "A" "B"];
     startNodeId := "A"; endNodeId := "B"; initialMetadata := None |}.

(** The state after [A] of [linear_schema] ran once from the initial
    state with a delegate that fails. *)
Definition state_after_failed_A : OrchestratorStateType :=
  match createNodeExecutor (demo_node "A" None None) [("A", failing_agent)]
          OrchestratorStateAnnotation.default 0 with
  | (Normal update, _) => apply_update OrchestratorStateAnnotation.default update
  | (Throw _, _) => OrchestratorStateAnnotation.default
  end.

(** A candidate with two nodes called [A], one of them with a negative
    retry budget, an edge to a node that does not exist, and start and
    end ids that name no node. *)
Definition malformed_schema : StateMachineSchema :=
  {| plan := "p"; diagram := "d";
     nodes := [demo_node "A" (Some (-1)) None; demo_node "A" None None];
     edges := [demo_edge "A" "ghost"];
     startNodeId := "nowhere"; endNodeId := "nothing";
     initialMetadata := None |}.

(** A candidate with a number for [plan], a node whose [id] is null and
    no other field. *)
Definition ill_typed_candidate : value :=
  VObj [ ("plan", VNum 1); ("nodes", VArr [VObj [("id", VNull)]]) ].

(** A terminal state without error whose only output is the empty
    string. *)
Definition state_with_empty_output : OrchestratorStateType :=
  {| prompt := "q"; nodeOutputs := [("A", "")]; finalAnswer := ""; error := None;
     metadata := []; currentNode := Some "A"; _retryCount := [("A", 1)] |}.

(** The updates of two nodes that complete in the same step, each with
    an [onSuccess] hook that sets the key [ok]. *)
Definition update_of (i code : string) : Partial :=
  match createNodeExecutor (demo_node i None (Some code))
          [(i, answering_agent "done")] OrchestratorStateAnnotation.default 0 with
  | (Normal update, _) => update
  | (Throw _, _) => no_update
  end.

Definition update_B : Partial := update_of "B" "({ ok: true })".
Definition update_C : Partial := update_of "C" "({ ok: false })".

(** [A] fans out to [B], [C] and [D] without condition, to [E] on a
    condition that holds and to [F] on a condition whose evaluation
    throws. *)
Definition fanout_schema : StateMachineSchema :=
  {| plan := "fan out"; diagram := "A -> B, C, D, E?, F?";
     nodes := map (fun i => demo_node i None None) ["A"; "B"; "C"; "D"; "E"; "F"];
     edges :=
       [ demo_edge "A" "B";
         {| from := "A"; to := "E";
            condition := Some {| code := "true"; condition_description := None |} |};
         demo_edge "A" "C";
         {| from := "A"; to := "F";
            condition := Some {| code := "ctx.metadata.flag.set";
                                 condition_description := None |} |};
         demo_edge "A" "D" ];
     startNodeId := "A"; endNodeId := "F"; initialMetadata := None |}.

(** X with [maxRetries = 1] and one unconditional edge to Y. *)
Definition retry_schema : StateMachineSchema :=
  {| plan := "retry"; diagram := "X -> Y";
     nodes := [demo_node "X" (Some 1) None; demo_node "Y" None None];
     edges := [demo_edge "X" "Y"];
     startNodeId := "X"; endNodeId := "Y"; initialMetadata := None |}.

(** A single node [X] with [maxRetries = 1] and no edge; [X] is the
    start node and the end node. *)
Definition solo_schema : StateMachineSchema :=
  {| plan := "one step"; diagram := "X";
     nodes := [demo_node "X" (Some 1) None];
     edges := [];
     startNodeId := "X"; endNodeId := "X"; initialMetadata := None |}.

(** The state after [X] of [solo_schema] ran once from the initial
    state with a delegate that fails. *)
Definition state_after_failed_X : OrchestratorStateType :=
  match createNodeExecutor (demo_node "X" (Some 1) None) [("X", failing_agent)]
          OrchestratorStateAnnotation.default 0 with
  | (Normal update, _) => apply_update OrchestratorStateAnnotation.default update
  | (Throw _, _) => OrchestratorStateAnnotation.default
  end.

(** The delegates of [linear_schema] in a run where [A] fails and [B]
    answers. *)
Definition failing_then_done : list (string * CLIAgent) :=
  [("A", failing_agent); ("B", answering_agent "done")].

(** The state after [B] of [linear_schema] ran in the state that the
    failure of [A] left. *)
Definition state_after_B : OrchestratorStateType :=
  match createNodeExecutor (demo_node "B" None None) failing_then_done
          state_after_failed_A 2 with
  | (Normal update, _) => apply_update state_after_failed_A update
  | (Throw _, _) => state_after_failed_A
  end.

(** ** The delegates' own retry ([agents/base.ts]) *)

Record ExecuteOptions : Type := { jsonSchema : option string }.

(** [error instanceof Error ? error : new Error(String(error))]. *)
Definition as_error (e : exn) : exn :=
  match e with
  | ErrorObject m => ErrorObject m
  | Thrown s => ErrorObject s
  end.

Section BaseAgent.
Context `{Host}.

(** [throw e]. *)
Definition throw {A : Type} (e : exn) : M A := fun w => (Throw e, w).

(** The private field [maxRetries] of [BaseCLIAgent]. *)
Definition BaseCLIAgent_maxRetries : nat := 1.

(** The [for] loop of [BaseCLIAgent.execute] with [remaining] iterations
    to go, and the [throw] that follows it. *)
Fixpoint execute_attempts (executeInternal : string -> option ExecuteOptions -> M string)
         (remaining : nat) (prompt : string) (options : option ExecuteOptions)
         (lastError : option exn) : M string :=
  match remaining with
  | O => throw (nullish lastError (ErrorObject "Unknown execution error"))
  | S remaining' =>
      try_catch (executeInternal prompt options)
                (fun error =>
                   execute_attempts executeInternal remaining' prompt options
                                    (Some (as_error error)))
  end.

(** [BaseCLIAgent.execute], over the [executeInternal] of the subclass. *)
Definition BaseCLIAgent_execute
           (executeInternal : string -> option ExecuteOptions -> M string)
           (prompt : string) (options : option ExecuteOptions) : M string :=
  execute_attempts executeInternal (S BaseCLIAgent_maxRetries) prompt options None.

(** A subclass of [BaseCLIAgent] as the node executor calls it, without
    options. *)
Definition agent_of (executeInternal : string -> option ExecuteOptions -> M string)
  : CLIAgent :=
  {| execute := fun prompt => BaseCLIAgent_execute executeInternal prompt None |}.

End BaseAgent.

(** ** The agent pool and the command line ([index.ts]) *)

(** [Map.prototype.set]: an existing key keeps its place. *)
Definition map_set {V : Type} (k : string) (v : V) (m : list (string * V))
  : list (string * V) :=
  if obj_has k m then obj_replace k v m else (m ++ [(k, v)])%list.

Section AgentPool.
Context `{Host}.

(** The three agent classes, each constructed with [{ nodeId }]. *)
Variables ClaudeAgent CodexAgent GeminiAgent : string -> CLIAgent.

Definition createAgent (type nodeId : string) : completion CLIAgent :=
  if (type =? "claude")%string then Normal (ClaudeAgent nodeId)
  else if (type =? "codex")%string then Normal (CodexAgent nodeId)
  else if (type =? "gemini")%string then Normal (GeminiAgent nodeId)
  else Throw (ErrorObject ("Unknown agent type: " ++ type)).

(** The loop of [createAgentPool] over the nodes still to visit. *)
Fixpoint fill_pool (remaining : list StateNodeDefinition)
         (pool : list (string * CLIAgent)) : completion (list (string * CLIAgent)) :=
  match remaining with
  | [] => Normal pool
  | node :: rest =>
      agent <~ createAgent (agentType node) (id node) ;;
      fill_pool rest (map_set (id node) agent pool)
  end.

Definition createAgentPool (schema : StateMachineSchema)
  : completion (list (string * CLIAgent)) :=
  fill_pool (nodes schema) [].

End AgentPool.

(** The agent types [createAgent] knows. *)
Definition known_agent_type (type : string) : bool :=
  (type =? "claude")%string || (type =? "codex")%string || (type =? "gemini")%string.

Record Args : Type := {
  args_prompt : string;
  args_verbose : bool
}.

Definition is_verbose_flag (arg : string) : bool :=
  (arg =? "-v")%string || (arg =? "--verbose")%string.

(** [parseArgs] of the entry point without a file option. *)
Definition parseArgs (args : list string) : Args :=
  let step (state : bool * list string) (arg : string) :=
    if is_verbose_flag arg then (true, snd state)
    else (fst state, (snd state ++ [arg])%list) in
  let final := fold_left step args (false, []) in
  {| args_prompt := String.concat " " (snd final); args_verbose := fst final |}.

(** An argument that goes into the prompt. *)
Definition plain_argument (arg : string) : bool := negb (is_verbose_flag arg).

Record ParsedArgs : Type := {
  parsed_prompt : string;
  parsed_verbose : bool;
  parsed_file : option string
}.

Definition is_file_flag (arg : string) : bool :=
  (arg =? "-f")%string || (arg =? "--file")%string.

(** The indexed loop of the [parseArgs] that knows [-f]: after a file
    flag the next argument, if there is one, is taken as the file and
    skipped. *)
Fixpoint parse_from (args : list string) (verbose : bool) (file : option string)
         (promptParts : list string) : ParsedArgs :=
  match args with
  | [] =>
      {| parsed_prompt := String.concat " " promptParts;
         parsed_verbose := verbose;
         parsed_file := file |}
  | arg :: rest =>
      if is_verbose_flag arg then parse_from rest true file promptParts
      else if is_file_flag arg then
        match rest with
        | [] =>
            {| parsed_prompt := String.concat " " promptParts;
               parsed_verbose := verbose;
               parsed_file := None |}
        | next :: rest' => parse_from rest' verbose (Some next) promptParts
        end
      else parse_from rest verbose file (promptParts ++ [arg])%list
  end.

(** [parseArgs] of the entry point with a file option. *)
Definition parseArgs_file (args : list string) : ParsedArgs :=
  parse_from args false None [].

(** ** More notions used to state the properties *)

(** The node an edge of the graph leaves. *)
Definition edge_source {R : Type} (e : graph_edge R) : string :=
  match e with
  | Edge source _ => source
  | ConditionalEdges source _ _ => source
  end.

(** The [possibleDestinations] that [buildGraph] declares with a node's
    router. *)
Definition declared_destinations (schema : StateMachineSchema) (nodeId : string)
  : list string :=
  let hasRetry :=
    nullish (match find (fun n => (id n =? nodeId)%string) (nodes schema) with
             | Some n => maxRetries n
             | None => None
             end) 0 >? 0 in
  dedupe (map to (filter (fun e => (from e =? nodeId)%string) (edges schema))
              ++ [END] ++ (if hasRetry then [nodeId] else []))%list.

(** A declared type all of whose object shapes have distinct keys, as
    the shape of an object literal has. *)
Inductive well_keyed : ZodType -> Prop :=
| wk_string : well_keyed z_string
| wk_number : well_keyed z_number
| wk_unknown : well_keyed z_unknown
| wk_enum options : well_keyed (z_enum options)
| wk_optional t : well_keyed t -> well_keyed (z_optional t)
| wk_array t : well_keyed t -> well_keyed (z_array t)
| wk_object shape :
    NoDup (map fst shape) ->
    (forall k t, In (k, t) shape -> well_keyed t) ->
    well_keyed (z_object shape)
| wk_record t : well_keyed t -> well_keyed (z_record t).

(** The roster [createAgentTypeSchema] enumerates. *)
Definition roster (config_agents : list string) : list string :=
  match config_agents with
  | [] => ["claude"; "codex"; "gemini"]
  | _ => config_agents
  end.

(** Agent classes for concrete pools: each answers with its class and
    the node it was made for. *)
Definition demo_claude (nodeId : string) : @CLIAgent demo_host :=
  answering_agent ("claude for " ++ nodeId).
Definition demo_codex (nodeId : string) : @CLIAgent demo_host :=
  answering_agent ("codex for " ++ nodeId).
Definition demo_gemini (nodeId : string) : @CLIAgent demo_host :=
  answering_agent ("gemini for " ++ nodeId).

(** A schema whose second node names an agent type that only a custom
    roster knows. *)
Definition local_schema : StateMachineSchema :=
  {| plan := "local"; diagram := "A -> L";
     nodes := [ demo_node "A" None None;
                {| id := "L"; name := "L"; description := ""; agentType := "local";
                   basePrompt := "Do L"; maxRetries := None; onSuccess := None;
                   onError := None |} ];
     edges := [demo_edge "A" "L"];
     startNodeId := "A"; endNodeId := "L"; initialMetadata := None |}.

(** A host for runs with delegates that count: the world is the clock,
    the number of failures a delegate still has in store and the number
    of calls made so far. *)
Definition counting_host : Host :=
  {| World := Z * nat * nat;
     date_now := fun w => (fst (fst w), (fst (fst w) + 1, snd (fst w), snd w));
     js_eval := demo_eval;
     json_stringify := fun _ => "{}" |}.

(** An [executeInternal] that fails while failures are in store, then
    answers, and counts its calls. *)
Definition flaky_internal (_ : string) (_ : option ExecuteOptions)
  : @M counting_host string :=
  fun w =>
    match snd (fst w) with
    | O => (Normal "done", (fst (fst w), O, S (snd w)))
    | S n => (Throw (ErrorObject "boom"), (fst (fst w), n, S (snd w)))
    end.

(** A delegate that calls [flaky_internal] once per [execute]. *)
Definition flaky_agent : @CLIAgent counting_host :=
  {| execute := fun prompt => flaky_internal prompt None |}.

(** An [executeInternal] that always fails, and counts its calls. *)
Definition broken_internal (_ : string) (_ : option ExecuteOptions)
  : @M counting_host string :=
  fun w => (Throw (Thrown "down"), (fst w, S (snd w))).

(** * Properties *)

(** ** Objects *)

Section ObjectFacts.
Context {A : Type}.
Implicit Types (o a b : obj A) (k : string) (v : A).

Lemma obj_get_replace_same k v o :
  obj_has k o = true -> obj_get k (obj_replace k v o) = Some v.
Proof.
  unfold obj_has. induction o as [|[k' v'] o IH]; simpl; [discriminate|].
  destruct (String.eqb_spec k' k) as [->|Hne]; simpl.
  - now rewrite String.eqb_refl.
  - intros Hk. destruct (String.eqb_spec k' k); [contradiction|]. now apply IH.
Qed.

Lemma obj_get_replace_other k k' v o :
  k' <> k -> obj_get k' (obj_replace k v o) = obj_get k' o.
Proof.
  intros Hne. induction o as [|[k0 v0] o IH]; simpl; [reflexivity|].
  destruct (String.eqb_spec k0 k) as [->|Hk0]; simpl.
  - destruct (String.eqb_spec k k'); [congruence|reflexivity].
  - now rewrite IH.
Qed.

Lemma obj_get_insert_index_same i k v o :
  obj_get k o = None -> obj_get k (obj_insert_index i k v o) = Some v.
Proof.
  induction o as [|[k0 v0] o IH]; simpl.
  - now rewrite String.eqb_refl.
  - destruct (String.eqb_spec k0 k) as [->|Hk0]; [discriminate|]. intros Hk.
    destruct (array_index k0) as [j|]; [destruct (i <? j)%N|]; simpl;
      rewrite ?String.eqb_refl; try reflexivity.
    destruct (String.eqb_spec k0 k); [contradiction|]. now apply IH.
Qed.

Lemma obj_get_insert_index_other i k k' v o :
  k' <> k -> obj_get k' (obj_insert_index i k v o) = obj_get k' o.
Proof.
  intros Hne. induction o as [|[k0 v0] o IH]; simpl.
  - destruct (String.eqb_spec k k'); [congruence|reflexivity].
  - destruct (array_index k0) as [j|]; [destruct (i <? j)%N|]; simpl;
      try (destruct (String.eqb_spec k k'); [congruence|reflexivity]).
    now rewrite IH.
Qed.

Lemma obj_get_app_new k v o :
  obj_get k o = None -> obj_get k (o ++ [(k, v)])%list = Some v.
Proof.
  induction o as [|[k0 v0] o IH]; simpl.
  - now rewrite String.eqb_refl.
  - destruct (k0 =? k)%string; [discriminate|exact IH].
Qed.

Lemma obj_get_app_other k k' v o :
  k' <> k -> obj_get k' (o ++ [(k, v)])%list = obj_get k' o.
Proof.
  intros Hne. induction o as [|[k0 v0] o IH]; simpl.
  - destruct (String.eqb_spec k k'); [congruence|reflexivity].
  - now rewrite IH.
Qed.

(** Reading a key just written gives the value written. *)
Lemma obj_get_set_same k v o : obj_get k (obj_set k v o) = Some v.
Proof.
  unfold obj_set. destruct (obj_has k o) eqn:Hhas.
  - now apply obj_get_replace_same.
  - assert (Hnone : obj_get k o = None).
    { unfold obj_has in Hhas. destruct (obj_get k o); [discriminate|reflexivity]. }
    destruct (array_index k).
    + now apply obj_get_insert_index_same.
    + now apply obj_get_app_new.
Qed.

(** Writing a key leaves the other keys as they were. *)
Lemma obj_get_set_other k k' v o :
  k' <> k -> obj_get k' (obj_set k v o) = obj_get k' o.
Proof.
  intros Hne. unfold obj_set. destruct (obj_has k o).
  - now apply obj_get_replace_other.
  - destruct (array_index k).
    + now apply obj_get_insert_index_other.
    + now apply obj_get_app_other.
Qed.

Lemma last_write_from k b (acc : option A) :
  fold_left (fun acc kv => if (fst kv =? k)%string then Some (snd kv) else acc)
            b acc
  = match last_write k b with
    | Some v => Some v
    | None => acc
    end.
Proof.
  unfold last_write. revert acc.
  induction b as [|[k0 v0] b IH]; intros acc; simpl; [reflexivity|].
  rewrite IH. rewrite (IH (if (k0 =? k)%string then Some v0 else None)).
  destruct (fold_left _ b None); [reflexivity|].
  now destruct (k0 =? k)%string.
Qed.

Lemma last_write_cons k k0 v0 b :
  last_write k ((k0, v0) :: b)
  = match last_write k b with
    | Some v => Some v
    | None => if (k0 =? k)%string then Some v0 else None
    end.
Proof. unfold last_write at 1. simpl. apply last_write_from. Qed.

(** A key has a last write in [b] exactly when [b] has the key. *)
Lemma last_write_none k b : last_write k b = None <-> obj_has k b = false.
Proof.
  unfold obj_has. induction b as [|[k0 v0] b IH]; simpl; [easy|].
  rewrite last_write_cons.
  destruct (k0 =? k)%string.
  - destruct (last_write k b); easy.
  - destruct (last_write k b); [|easy].
    split; [discriminate|]. intros Hb. apply IH in Hb. discriminate.
Qed.

(** The properties of [{ ...a, ...b }]: those of [b], and those of [a]
    for the keys [b] does not have. *)
Lemma obj_get_spread k a b :
  obj_get k (spread a b)
  = match last_write k b with
    | Some v => Some v
    | None => obj_get k a
    end.
Proof.
  unfold spread. revert a.
  induction b as [|[k0 v0] b IH]; intros a; simpl; [reflexivity|].
  rewrite IH, last_write_cons.
  destruct (last_write k b); [reflexivity|].
  destruct (String.eqb_spec k0 k) as [->|Hne].
  - apply obj_get_set_same.
  - apply obj_get_set_other. congruence.
Qed.

Lemma spread_empty a : spread a [] = a.
Proof. reflexivity. Qed.

Lemma pop_app_one (xs : list A) (x : A) : pop (xs ++ [x])%list = Some x.
Proof. unfold pop. now rewrite rev_unit. Qed.

(** A new key that is not an integer index becomes the last
    property. *)
Lemma obj_set_new_last k v o :
  obj_has k o = false -> array_index k = None ->
  obj_set k v o = (o ++ [(k, v)])%list.
Proof. intros Hhas Hidx. unfold obj_set. now rewrite Hhas, Hidx. Qed.

End ObjectFacts.

Lemma obj_get_singleton {A : Type} (k : string) (v : A) :
  obj_get k (singleton k v) = Some v.
Proof. apply obj_get_set_same. Qed.

Lemma singleton_eq {A : Type} (k : string) (v : A) : singleton k v = [(k, v)].
Proof.
  unfold singleton, obj_set. simpl. now destruct (array_index k).
Qed.

Lemma truthy_string_true (s : string) : truthy_string s = true <-> s <> "".
Proof.
  unfold truthy_string. destruct (String.eqb_spec s ""); simpl; split; congruence.
Qed.

(** ** The state reducers *)

Section ReducerFacts.
Context {A : Type}.

Lemma merge_twice_get (base p1 p2 : obj A) (k : string) :
  obj_get k (OrchestratorStateAnnotation.merge
               (OrchestratorStateAnnotation.merge base p1) p2)
  = match last_write k p2 with
    | Some v => Some v
    | None => match last_write k p1 with
              | Some v => Some v
              | None => obj_get k base
              end
    end.
Proof.
  unfold OrchestratorStateAnnotation.merge. now rewrite !obj_get_spread.
Qed.

(** Two shallow merges commute, as mappings, exactly when the two
    updates agree on the keys they share. *)
Lemma merge_commutes_iff (base p1 p2 : obj A) :
  same_mapping
    (OrchestratorStateAnnotation.merge
       (OrchestratorStateAnnotation.merge base p1) p2)
    (OrchestratorStateAnnotation.merge
       (OrchestratorStateAnnotation.merge base p2) p1)
  <-> agree p1 p2.
Proof.
  unfold same_mapping, agree. split.
  - intros Hsame k v1 v2 H1 H2. specialize (Hsame k).
    rewrite !merge_twice_get, H1, H2 in Hsame. congruence.
  - intros Hagree k. rewrite !merge_twice_get.
    destruct (last_write k p1) as [v1|] eqn:H1,
             (last_write k p2) as [v2|] eqn:H2; try reflexivity.
    f_equal. symmetry. now apply (Hagree k).
Qed.

End ReducerFacts.

Lemma apply_update_nodeOutputs (s : OrchestratorStateType) (u : Partial) :
  nodeOutputs (apply_update s u)
  = OrchestratorStateAnnotation.merge (nodeOutputs s) (outputs_of u).
Proof.
  unfold apply_update, outputs_of. simpl. now destruct (upd_nodeOutputs u).
Qed.

Lemma apply_update_metadata (s : OrchestratorStateType) (u : Partial) :
  metadata (apply_update s u)
  = OrchestratorStateAnnotation.merge (metadata s) (metadata_of u).
Proof.
  unfold apply_update, metadata_of. simpl. now destruct (upd_metadata u).
Qed.

(** C7, amended.  For every base state and every two updates applied one
    after the other, the merged [nodeOutputs] (and likewise [metadata])
    are the same mapping in either order exactly when the two updates
    agree on the keys they share, as the [nodeOutputs] updates of two
    distinct nodes do; for a shared key with different values the update
    applied last wins.  [error] and [currentNode] take the value of the
    update applied last, so two updates that set them differently give
    different results in the two orders. *)
Theorem reducers_commute_when_updates_agree
        (s : OrchestratorStateType) (u1 u2 : Partial) :
  (same_mapping (nodeOutputs (apply_update (apply_update s u1) u2))
                (nodeOutputs (apply_update (apply_update s u2) u1))
   <-> agree (outputs_of u1) (outputs_of u2))
  /\ (same_mapping (metadata (apply_update (apply_update s u1) u2))
                   (metadata (apply_update (apply_update s u2) u1))
      <-> agree (metadata_of u1) (metadata_of u2))
  /\ (forall e1 e2, upd_error u1 = Some e1 -> upd_error u2 = Some e2 ->
        error (apply_update (apply_update s u1) u2) = e2
        /\ error (apply_update (apply_update s u2) u1) = e1)
  /\ (forall c1 c2, upd_currentNode u1 = Some c1 -> upd_currentNode u2 = Some c2 ->
        currentNode (apply_update (apply_update s u1) u2) = c2
        /\ currentNode (apply_update (apply_update s u2) u1) = c1).
Proof.
  split; [|split; [|split]].
  - rewrite !apply_update_nodeOutputs. apply merge_commutes_iff.
  - rewrite !apply_update_metadata. apply merge_commutes_iff.
  - intros e1 e2 H1 H2. simpl. now rewrite H1, H2.
  - intros c1 c2 H1 H2. simpl. now rewrite H1, H2.
Qed.

(** The updates of [B] and [C] write different keys of [nodeOutputs], so
    the merged outputs are the same mapping in both orders. *)
Lemma reducers_commute_when_updates_agree_witness :
  same_mapping
    (nodeOutputs (apply_update (apply_update OrchestratorStateAnnotation.default
                                             update_B) update_C))
    (nodeOutputs (apply_update (apply_update OrchestratorStateAnnotation.default
                                             update_C) update_B)).
Proof.
  apply (proj1 (reducers_commute_when_updates_agree
                  OrchestratorStateAnnotation.default update_B update_C)).
  change (outputs_of update_B) with [("B", "done")].
  change (outputs_of update_C) with [("C", "done")].
  intros k v1 v2. unfold last_write. cbn [fold_left fst snd].
  destruct (String.eqb_spec "B" k) as [<-|]; [|intros H1; discriminate H1].
  intros _ H2. discriminate H2.
Defined.

(** C7 as stated fails for [metadata]: [B] sets [ok] to [true], [C] sets
    it to [false], both complete in the same step, and the merged
    metadata depends on the order. *)
Lemma metadata_merge_not_commutative :
  ~ same_mapping
      (metadata (apply_update (apply_update OrchestratorStateAnnotation.default
                                            update_B) update_C))
      (metadata (apply_update (apply_update OrchestratorStateAnnotation.default
                                            update_C) update_B)).
Proof.
  intros Hsame. specialize (Hsame "ok"). vm_compute in Hsame. discriminate.
Qed.

(** ** Expression evaluation *)

Section EvaluationFacts.
Context `{Host}.

Lemma executeMetadataUpdate_total code context :
  exists v, executeMetadataUpdate code context = Normal v.
Proof.
  unfold executeMetadataUpdate, cbind, catch.
  destruct (js_eval code (hook_arguments context)); eauto.
Qed.

Lemma evaluateCondition_total code ctx :
  exists v, evaluateCondition code ctx = Normal v.
Proof.
  unfold evaluateCondition, catch.
  destruct (js_eval code [("ctx", value_of_ctx ctx)]); eauto.
Qed.

Lemma first_matching_edge_total ctx es :
  exists r, first_matching_edge ctx es = Normal r.
Proof.
  induction es as [|e es IH]; simpl; [eauto|].
  destruct (condition e) as [c|]; [|exact IH].
  destruct (evaluateCondition_total (code c) ctx) as [b ->]. simpl.
  destruct (truthy b); eauto.
Qed.

Lemma push_matching_edges_total ctx es acc :
  exists ds, push_matching_edges ctx es acc = Normal ds.
Proof.
  revert acc. induction es as [|e es IH]; intros acc; simpl; [eauto|].
  destruct (evaluateCondition_total
              (match condition e with Some c => code c | None => "" end) ctx)
    as [b ->]. simpl. apply IH.
Qed.

Lemma createConditionRouter_total schema nodeId st :
  exists r, createConditionRouter schema nodeId st = Normal r.
Proof.
  unfold createConditionRouter.
  destruct (_ && _ && _); [eauto|].
  destruct (_ && _); [apply first_matching_edge_total|].
  match goal with
  | |- context [push_matching_edges ?c ?es ?acc] =>
      destruct (push_matching_edges_total c es acc) as [ds ->]
  end.
  simpl. destruct ds as [|d [|d' ds]]; eauto.
Qed.

(** What a node's hook contributes to the update: the object it
    evaluates to, and the empty object when there is no hook. *)
Lemma hook_step (hook : option string) context :
  exists mu,
    (if truthy_opt hook
     then executeMetadataUpdate (nullish hook "") context
     else Normal (VObj [])) = Normal mu
    /\ (truthy_opt hook = false -> mu = VObj [])
    /\ (truthy_opt hook = true ->
        executeMetadataUpdate (nullish hook "") context = Normal mu).
Proof.
  destruct (truthy_opt hook).
  - destruct (executeMetadataUpdate_total (nullish hook "") context) as [mu Hmu].
    exists mu. rewrite Hmu. repeat split; congruence.
  - exists (VObj []). repeat split; congruence.
Qed.

End EvaluationFacts.

(** ** The node executor *)

Section ExecutorFacts.
Context `{Host}.
Variables (node : StateNodeDefinition) (agents : list (string * CLIAgent)).

Let attempt (st : OrchestratorStateType) : Z :=
  nullish (obj_get (id node) (_retryCount st)) 0 + 1.

(** The update of a node whose delegate resolved. *)
Lemma executor_on_success agent st w t0 w1 output w2 t1 w3 :
  map_get (id node) agents = Some agent ->
  date_now w = (t0, w1) ->
  execute agent (full_prompt node st) w1 = (Normal output, w2) ->
  date_now w2 = (t1, w3) ->
  exists mu,
    createNodeExecutor node agents st w
    = (Normal {| upd_prompt := None;
                 upd_nodeOutputs := Some (singleton (id node) output);
                 upd_finalAnswer := None;
                 upd_error := Some None;
                 upd_metadata := Some mu;
                 upd_currentNode := Some (Some (id node));
                 upd_retryCount := Some (singleton (id node) (attempt st)) |},
       w3)
    /\ (truthy_opt (onSuccess node) = false -> mu = VObj [])
    /\ (truthy_opt (onSuccess node) = true ->
        executeMetadataUpdate (nullish (onSuccess node) "")
          {| hook_output := Some output; hook_error := None;
             hook_elapsedMs := t1 - t0; hook_retryCount := attempt st - 1;
             hook_metadata := metadata st; hook_nodeId := id node |}
        = Normal mu).
Proof.
  intros Hagent Hnow Hexec Hend.
  destruct (hook_step (onSuccess node)
              {| hook_output := Some output; hook_error := None;
                 hook_elapsedMs := t1 - t0; hook_retryCount := attempt st - 1;
                 hook_metadata := metadata st; hook_nodeId := id node |})
    as (mu & Hmu & Hno & Hyes).
  exists mu. split; [|split; assumption].
  unfold createNodeExecutor, bind, try_catch, now, lift, ret.
  rewrite Hagent, Hnow. unfold full_prompt in Hexec. rewrite Hexec, Hend.
  unfold attempt in Hmu. rewrite Hmu. reflexivity.
Qed.

(** The update of a node whose delegate rejected. *)
Lemma executor_on_failure agent st w t0 w1 e w2 t1 w3 :
  map_get (id node) agents = Some agent ->
  date_now w = (t0, w1) ->
  execute agent (full_prompt node st) w1 = (Throw e, w2) ->
  date_now w2 = (t1, w3) ->
  exists mu,
    createNodeExecutor node agents st w
    = (Normal {| upd_prompt := None;
                 upd_nodeOutputs := None;
                 upd_finalAnswer := None;
                 upd_error :=
                   Some (Some (if attempt st <? nullish (maxRetries node) 0 + 1
                               then message_of e
                               else exhausted_message (id node) (attempt st)
                                                      (message_of e)));
                 upd_metadata := Some mu;
                 upd_currentNode := Some (Some (id node));
                 upd_retryCount := Some (singleton (id node) (attempt st)) |},
       w3)
    /\ (truthy_opt (onError node) = false -> mu = VObj [])
    /\ (truthy_opt (onError node) = true ->
        executeMetadataUpdate (nullish (onError node) "")
          {| hook_output := None; hook_error := Some (message_of e);
             hook_elapsedMs := t1 - t0; hook_retryCount := attempt st - 1;
             hook_metadata := metadata st; hook_nodeId := id node |}
        = Normal mu).
Proof.
  intros Hagent Hnow Hexec Hend.
  destruct (hook_step (onError node)
              {| hook_output := None; hook_error := Some (message_of e);
                 hook_elapsedMs := t1 - t0; hook_retryCount := attempt st - 1;
                 hook_metadata := metadata st; hook_nodeId := id node |})
    as (mu & Hmu & Hno & Hyes).
  exists mu. split; [|split; assumption].
  unfold createNodeExecutor, bind, try_catch, now, lift, ret.
  rewrite Hagent, Hnow. unfold full_prompt in Hexec. rewrite Hexec, Hend.
  unfold attempt in Hmu. rewrite Hmu. unfold exhausted_message, attempt.
  destruct (_ <? _); reflexivity.
Qed.

Lemma executor_without_agent st w :
  map_get (id node) agents = None ->
  createNodeExecutor node agents st w
  = (Normal {| upd_prompt := None; upd_nodeOutputs := None;
               upd_finalAnswer := None;
               upd_error := Some (Some ("No agent available for node: " ++ id node));
               upd_metadata := None;
               upd_currentNode := Some (Some (id node));
               upd_retryCount := None |}, w).
Proof. intros Hagent. unfold createNodeExecutor. now rewrite Hagent. Qed.

Lemma createNodeExecutor_total st w :
  exists u w', createNodeExecutor node agents st w = (Normal u, w').
Proof.
  destruct (map_get (id node) agents) as [agent|] eqn:Hagent.
  - destruct (date_now w) as [t0 w1] eqn:Hnow.
    destruct (execute agent (full_prompt node st) w1) as [[output|e] w2] eqn:Hexec;
      destruct (date_now w2) as [t1 w3] eqn:Hend.
    + destruct (executor_on_success _ _ _ _ _ _ _ _ _ Hagent Hnow Hexec Hend)
        as (mu & -> & _). eauto.
    + destruct (executor_on_failure _ _ _ _ _ _ _ _ _ Hagent Hnow Hexec Hend)
        as (mu & -> & _). eauto.
  - rewrite (executor_without_agent _ _ Hagent). eauto.
Qed.

End ExecutorFacts.

Lemma spread_singleton {A : Type} (a : obj A) (k : string) (v : A) :
  spread a (singleton k v) = obj_set k v a.
Proof. now rewrite singleton_eq. Qed.

Lemma apply_update_retryCount_get (s : OrchestratorStateType) (u : Partial)
      (k : string) (n : Z) :
  upd_retryCount u = Some (singleton k n) ->
  obj_get k (_retryCount (apply_update s u)) = Some n.
Proof.
  intros Hu. unfold apply_update. simpl. rewrite Hu.
  unfold OrchestratorStateAnnotation.retryCount_reducer,
    OrchestratorStateAnnotation.merge.
  rewrite spread_singleton. apply obj_get_set_same.
Qed.

(** Reading a key out of a merge with a one-property object. *)
Ltac merge_singleton :=
  unfold OrchestratorStateAnnotation.retryCount_reducer,
    OrchestratorStateAnnotation.nodeOutputs_reducer,
    OrchestratorStateAnnotation.merge;
  rewrite spread_singleton.

(** C8.  When the node has a delegate, its executor returns an update
    that sets [currentNode] to the node and [_retryCount[id]] to the
    attempt number.  If the delegate resolved, the update merges
    [{id: output}] into [nodeOutputs] and sets [error] to null.  If the
    delegate rejected, the update has no [nodeOutputs], so the outputs
    stay as they were, and [error] is the delegate's message while
    attempts remain and the message stating the attempt count once they
    are exhausted. *)
Theorem executor_update_on_completion `{Host}
        (node : StateNodeDefinition) (agents : list (string * CLIAgent))
        (agent : CLIAgent) (st : OrchestratorStateType) (w : World) :
  map_get (id node) agents = Some agent ->
  let attemptNumber := nullish (obj_get (id node) (_retryCount st)) 0 + 1 in
  exists u w',
    createNodeExecutor node agents st w = (Normal u, w')
    /\ upd_currentNode u = Some (Some (id node))
    /\ upd_retryCount u = Some (singleton (id node) attemptNumber)
    /\ currentNode (apply_update st u) = Some (id node)
    /\ obj_get (id node) (_retryCount (apply_update st u)) = Some attemptNumber
    /\ match fst (execute agent (full_prompt node st) (snd (date_now w))) with
       | Normal output =>
           upd_nodeOutputs u = Some (singleton (id node) output)
           /\ upd_error u = Some None
           /\ obj_get (id node) (nodeOutputs (apply_update st u)) = Some output
           /\ (forall k, k <> id node ->
                 obj_get k (nodeOutputs (apply_update st u))
                 = obj_get k (nodeOutputs st))
           /\ error (apply_update st u) = None
       | Throw e =>
           let text :=
             if attemptNumber <? nullish (maxRetries node) 0 + 1
             then message_of e
             else exhausted_message (id node) attemptNumber (message_of e) in
           upd_nodeOutputs u = None
           /\ nodeOutputs (apply_update st u) = nodeOutputs st
           /\ upd_error u = Some (Some text)
           /\ error (apply_update st u) = Some text
       end.
Proof.
  intros Hagent attemptNumber.
  destruct (date_now w) as [t0 w1] eqn:Hnow. simpl.
  destruct (execute agent (full_prompt node st) w1) as [[output|e] w2] eqn:Hexec;
    destruct (date_now w2) as [t1 w3] eqn:Hend; simpl.
  - destruct (executor_on_success node agents _ _ _ _ _ _ _ _ _
                                  Hagent Hnow Hexec Hend) as (mu & Hrun & _).
    eexists _, _. split; [exact Hrun|]. simpl.
    repeat split.
    + merge_singleton. apply obj_get_set_same.
    + merge_singleton. apply obj_get_set_same.
    + intros k Hk. merge_singleton. now apply obj_get_set_other.
  - destruct (executor_on_failure node agents _ _ _ _ _ _ _ _ _
                                  Hagent Hnow Hexec Hend) as (mu & Hrun & _).
    eexists _, _. split; [exact Hrun|]. simpl.
    repeat split.
    merge_singleton. apply obj_get_set_same.
Qed.

(** [X] of [retry_schema], first attempt, with a delegate that fails. *)
Lemma executor_update_on_completion_witness :
  exists u w',
    createNodeExecutor (demo_node "X" (Some 1) None) [("X", failing_agent)]
                       OrchestratorStateAnnotation.default 0 = (Normal u, w')
    /\ upd_nodeOutputs u = None
    /\ upd_error u = Some (Some "boom")
    /\ upd_retryCount u = Some [("X", 1)].
Proof.
  destruct (executor_update_on_completion
              (demo_node "X" (Some 1) None) [("X", failing_agent)] failing_agent
              OrchestratorStateAnnotation.default 0 eq_refl)
    as (u & w' & Hrun & _ & Hretry & _ & _ & Hno & _ & Herr & _).
  exists u, w'. repeat split; assumption.
Defined.

(** C10.  When the agent map has no entry for the node, the executor
    returns an update with only [error], the text naming the node, and
    [currentNode]; applying it leaves [nodeOutputs], [metadata] and
    [_retryCount] as they were, so no attempt is counted. *)
Theorem executor_without_agent_update `{Host}
        (node : StateNodeDefinition) (agents : list (string * CLIAgent))
        (st : OrchestratorStateType) (w : World) :
  map_get (id node) agents = None ->
  exists u,
    createNodeExecutor node agents st w = (Normal u, w)
    /\ upd_error u = Some (Some ("No agent available for node: " ++ id node))
    /\ upd_currentNode u = Some (Some (id node))
    /\ upd_nodeOutputs u = None
    /\ upd_metadata u = None
    /\ upd_retryCount u = None
    /\ error (apply_update st u)
       = Some ("No agent available for node: " ++ id node)
    /\ currentNode (apply_update st u) = Some (id node)
    /\ nodeOutputs (apply_update st u) = nodeOutputs st
    /\ metadata (apply_update st u) = metadata st
    /\ _retryCount (apply_update st u) = _retryCount st.
Proof.
  intros Hagent. eexists. split; [now apply executor_without_agent|].
  repeat split.
Qed.

(** [Y] has no entry in a map that only knows [X]. *)
Lemma executor_without_agent_update_witness :
  exists u,
    createNodeExecutor (demo_node "Y" None None) [("X", failing_agent)]
                       OrchestratorStateAnnotation.default 0 = (Normal u, 0)
    /\ upd_error u = Some (Some "No agent available for node: Y")
    /\ upd_retryCount u = None.
Proof.
  destruct (executor_without_agent_update
              (demo_node "Y" None None) [("X", failing_agent)]
              OrchestratorStateAnnotation.default 0 eq_refl)
    as (u & Hrun & Herr & _ & _ & _ & Hretry & _).
  exists u. repeat split; assumption.
Defined.

(** C9.  When a hook expression evaluates, without throwing, to a value
    that is not a non-null object, the hook's result is the empty
    object, and merging the empty object leaves [metadata] as it
    was. *)
Theorem hook_result_not_an_object `{Host}
        (code : string) (context : MetadataUpdateContext) (v : value) :
  js_eval code (hook_arguments context) = Normal v ->
  typeof v <> "object" \/ v = VNull ->
  executeMetadataUpdate code context = Normal (VObj [])
  /\ forall st u,
       upd_metadata u = Some (VObj []) ->
       metadata (apply_update st u) = metadata st.
Proof.
  intros Heval Hv. split.
  - unfold executeMetadataUpdate. rewrite Heval. simpl.
    destruct Hv as [Hty| ->]; [|reflexivity].
    destruct (String.eqb_spec (typeof v) "object"); [contradiction|reflexivity].
  - intros st u Hu. unfold apply_update. simpl. now rewrite Hu.
Qed.

(** The hook [42] evaluates to a number. *)
Lemma hook_result_not_an_object_witness :
  executeMetadataUpdate "42"
    {| hook_output := Some "done"; hook_error := None; hook_elapsedMs := 3;
       hook_retryCount := 0; hook_metadata := []; hook_nodeId := "A" |}
  = Normal (VObj []).
Proof.
  refine (proj1 (hook_result_not_an_object "42" _ (VNum 42) eq_refl _)).
  left. discriminate.
Defined.

(** C6.  When the evaluation of a condition throws, [evaluateCondition]
    catches it and answers [false]; when the evaluation of a hook
    throws, [executeMetadataUpdate] catches it and answers the empty
    object.  Neither of them ever throws, and neither does a router or a
    node executor, whatever the expressions do. *)
Theorem evaluation_errors_are_contained `{Host} :
  (forall code ctx e,
      js_eval code [("ctx", value_of_ctx ctx)] = Throw e ->
      evaluateCondition code ctx = Normal (VBool false))
  /\ (forall code context e,
         js_eval code (hook_arguments context) = Throw e ->
         executeMetadataUpdate code context = Normal (VObj []))
  /\ (forall code ctx, exists v, evaluateCondition code ctx = Normal v)
  /\ (forall code context, exists v, executeMetadataUpdate code context = Normal v)
  /\ (forall schema nodeId st,
         exists r, createConditionRouter schema nodeId st = Normal r)
  /\ (forall node agents st w,
         exists u w', createNodeExecutor node agents st w = (Normal u, w')).
Proof.
  repeat split.
  - intros code ctx e He. unfold evaluateCondition. now rewrite He.
  - intros code context e He. unfold executeMetadataUpdate. now rewrite He.
  - intros. apply evaluateCondition_total.
  - intros. apply executeMetadataUpdate_total.
  - intros. apply createConditionRouter_total.
  - intros. apply createNodeExecutor_total.
Qed.

(** The expression [ctx.missing.field] throws in the concrete host. *)
Lemma evaluation_errors_are_contained_witness :
  evaluateCondition "ctx.missing.field"
    (context_of OrchestratorStateAnnotation.default) = Normal (VBool false)
  /\ executeMetadataUpdate "({ broken"
       {| hook_output := Some "done"; hook_error := None; hook_elapsedMs := 3;
          hook_retryCount := 0; hook_metadata := []; hook_nodeId := "A" |}
     = Normal (VObj []).
Proof.
  split.
  - exact (proj1 evaluation_errors_are_contained "ctx.missing.field" _
                 (ErrorObject "Unexpected token") eq_refl).
  - exact (proj1 (proj2 evaluation_errors_are_contained) "({ broken" _
                 (ErrorObject "Unexpected token") eq_refl).
Defined.

(** ** The final answer *)

Lemma final_answer_with_error (st : OrchestratorStateType) (e : string) :
  error st = Some e -> e <> "" ->
  final_answer_of st = "Error during execution: " ++ e.
Proof.
  intros He Hne. unfold final_answer_of. rewrite He. simpl.
  now rewrite (proj2 (truthy_string_true e) Hne).
Qed.

Lemma final_answer_last (st : OrchestratorStateType) (o : obj string)
      (k v : string) :
  truthy_opt (error st) = false ->
  nodeOutputs st = (o ++ [(k, v)])%list ->
  final_answer_of st = if (v =? "")%string then "No output generated" else v.
Proof.
  intros Herr Hout. unfold final_answer_of. rewrite Herr, Hout.
  unfold obj_values. rewrite map_app. simpl. rewrite pop_app_one. simpl.
  unfold truthy_string. now destruct (v =? "")%string.
Qed.

(** C4, amended.  When the graph returns a terminal state, [finalAnswer]
    is ["Error during execution: " + error] when [error] is a non-empty
    string.  Otherwise it is the value of the last property of
    [nodeOutputs] in property order when that value is a non-empty
    string, and the placeholder when [nodeOutputs] is empty or that
    value is the empty string.  The last property is the output merged
    most recently when its node id is new to [nodeOutputs] and is not an
    integer index. *)
Theorem final_answer_of_terminal_state `{Host}
        (graph : OrchestratorStateType -> M OrchestratorStateType)
        (initialState : InitialState) (w w' : World)
        (result : OrchestratorStateType) :
  graph (initial_state initialState) w = (Normal result, w') ->
  exists res,
    executeGraph graph initialState w = (Normal res, w')
    /\ result_nodeOutputs res = nodeOutputs result
    /\ result_error res = error result
    /\ (forall e, error result = Some e -> e <> "" ->
          result_finalAnswer res = "Error during execution: " ++ e)
    /\ (truthy_opt (error result) = false ->
        (nodeOutputs result = [] -> result_finalAnswer res = "No output generated")
        /\ (forall o k v,
               nodeOutputs result = (o ++ [(k, v)])%list ->
               result_finalAnswer res
               = if (v =? "")%string then "No output generated" else v)
        /\ (forall o k v,
               nodeOutputs result
               = OrchestratorStateAnnotation.nodeOutputs_reducer o (singleton k v) ->
               obj_has k o = false -> array_index k = None ->
               result_finalAnswer res
               = if (v =? "")%string then "No output generated" else v)).
Proof.
  intros Hrun. eexists. split.
  { unfold executeGraph, try_catch, bind, ret. rewrite Hrun. reflexivity. }
  simpl. split; [reflexivity|]. split; [reflexivity|]. split.
  - intros e He Hne. now apply final_answer_with_error.
  - intros Herr. split; [|split].
    + intros Hout. unfold final_answer_of. now rewrite Herr, Hout.
    + intros o k v Hout. now apply final_answer_last with (o := o) (k := k).
    + intros o k v Hout Hnew Hidx.
      apply final_answer_last with (o := o) (k := k); [assumption|].
      rewrite Hout. merge_singleton. now apply obj_set_new_last.
Qed.

(** Node ids that are integer indices come first in property order,
    whenever they were inserted: after the output of ["2"] and then the
    output of ["1"], the last value is the output of ["2"]. *)
Example integer_ids_come_first :
  let outputs :=
    OrchestratorStateAnnotation.nodeOutputs_reducer
      (OrchestratorStateAnnotation.nodeOutputs_reducer [] (singleton "2" "two"))
      (singleton "1" "one") in
  outputs = [("1", "one"); ("2", "two")]
  /\ final_answer_of
       {| prompt := ""; nodeOutputs := outputs; finalAnswer := ""; error := None;
          metadata := []; currentNode := Some "1"; _retryCount := [] |}
     = "two".
Proof. split; reflexivity. Qed.

(** A graph that ends in [state_with_empty_output]. *)
Lemma final_answer_of_terminal_state_witness :
  exists res,
    executeGraph (H := demo_host) (fun _ => ret state_with_empty_output)
                 {| initial_prompt := "q"; initial_metadata := None |} 0
    = (Normal res, 0)
    /\ result_finalAnswer res = "No output generated".
Proof.
  destruct (final_answer_of_terminal_state (H := demo_host)
              (fun _ => ret state_with_empty_output)
              {| initial_prompt := "q"; initial_metadata := None |} 0 0
              state_with_empty_output eq_refl)
    as (res & Hrun & _ & _ & _ & Hok).
  exists res. split; [exact Hrun|].
  exact (proj1 (proj2 (Hok eq_refl)) [] "A" "" eq_refl).
Defined.

(** C4 as stated fails: the terminal state has no error and
    [nodeOutputs] is not empty, its most recently inserted value being
    the empty output of [A], and the answer is the placeholder. *)
Lemma placeholder_with_outputs :
  error state_with_empty_output = None
  /\ nodeOutputs state_with_empty_output = [("A", "")]
  /\ final_answer_of state_with_empty_output = "No output generated"
  /\ final_answer_of state_with_empty_output <> "".
Proof. repeat split. discriminate. Qed.

(** ** The router *)

Section RouterFacts.
Context `{Host}.

Lemma condition_holds_has_condition ctx e :
  condition_holds ctx e = true -> has_condition e = true.
Proof.
  unfold condition_holds, has_condition. now destruct (condition e).
Qed.

Lemma filter_holds_conditional ctx es :
  filter (condition_holds ctx) (filter has_condition es)
  = filter (condition_holds ctx) es.
Proof.
  induction es as [|e es IH]; simpl; [reflexivity|].
  destruct (has_condition e) eqn:Hc; simpl.
  - now rewrite IH.
  - destruct (condition_holds ctx e) eqn:Hh; [|exact IH].
    apply condition_holds_has_condition in Hh. congruence.
Qed.

(** The loop of the success rule pushes the targets of the
    conditional edges whose condition holds, in order. *)
Lemma push_matching_edges_spec ctx es acc :
  Forall (fun e => has_condition e = true) es ->
  push_matching_edges ctx es acc
  = Normal (acc ++ map to (filter (condition_holds ctx) es))%list.
Proof.
  intros Hall. revert acc.
  induction Hall as [|e es He _ IH]; intros acc; simpl.
  - now rewrite app_nil_r.
  - unfold condition_holds. unfold has_condition in He.
    destruct (condition e) as [c|]; [|discriminate].
    destruct (evaluateCondition_total (code c) ctx) as [b ->]. simpl.
    rewrite IH. destruct (truthy b); simpl; [|reflexivity].
    now rewrite <- app_assoc.
Qed.

(** The exhausted-retry rule ends the run when no conditional edge
    holds. *)
Lemma first_matching_edge_none ctx es :
  (forall e, In e es -> condition_holds ctx e = false) ->
  first_matching_edge ctx es = Normal (RString END).
Proof.
  induction es as [|e es IH]; intros Hnone; simpl; [reflexivity|].
  assert (He := Hnone e (or_introl eq_refl)).
  assert (Hrest : forall e', In e' es -> condition_holds ctx e' = false)
    by (intros e' Hin; apply Hnone; now right).
  unfold condition_holds in He.
  destruct (condition e) as [c|]; [|now apply IH].
  destruct (evaluateCondition_total (code c) ctx) as [b Hb].
  rewrite Hb in *. simpl. rewrite He. now apply IH.
Qed.

(** The router's answer when the state carries no error. *)
Lemma router_without_error schema nodeId st :
  truthy_opt (error st) = false ->
  createConditionRouter schema nodeId st
  = Normal
      (pack (map to (filter (fun e => negb (has_condition e))
                            (outgoing schema nodeId))
               ++ map to (filter (condition_holds (context_of st))
                                 (outgoing schema nodeId)))%list).
Proof.
  intros Herr. unfold createConditionRouter. rewrite Herr. simpl.
  fold (outgoing schema nodeId).
  rewrite push_matching_edges_spec.
  - simpl. rewrite filter_holds_conditional.
    unfold pack. now destruct (_ ++ _)%list as [|d [|d' ds]].
  - apply Forall_forall. intros e He. now apply filter_In in He.
Qed.

End RouterFacts.

(** C5.  When the state carries no error, the router's destinations are
    the targets of all unconditional outgoing edges of the node followed
    by the targets of the conditional outgoing edges whose condition
    evaluates to a truthy value in the current state: a node id is a
    destination exactly when it is the target of such an edge, and when
    there is none the router answers [END], which activates nothing. *)
Theorem router_success_rule `{Host}
        (schema : StateMachineSchema) (nodeId : string)
        (st : OrchestratorStateType) :
  truthy_opt (error st) = false ->
  let ctx := context_of st in
  let targets :=
    (map to (filter (fun e => negb (has_condition e)) (outgoing schema nodeId))
       ++ map to (filter (condition_holds ctx) (outgoing schema nodeId)))%list in
  createConditionRouter schema nodeId st = Normal (pack targets)
  /\ (forall d,
         In d targets
         <-> exists e,
             In e (edges schema) /\ from e = nodeId /\ to e = d
             /\ (condition e = None \/ condition_holds ctx e = true))
  /\ (targets = [] ->
      createConditionRouter schema nodeId st = Normal (RString END)
      /\ destinations (RString END) = []).
Proof.
  intros Herr ctx targets. split; [now apply router_without_error|]. split.
  - intros d. unfold targets. rewrite in_app_iff, !in_map_iff. split.
    + intros [(e & Hto & He)|(e & Hto & He)];
        apply filter_In in He; destruct He as [He Hp];
        unfold outgoing in He; apply filter_In in He; destruct He as [He Hfrom];
        apply String.eqb_eq in Hfrom; exists e; repeat split; try assumption.
      * left. unfold has_condition in Hp. now destruct (condition e).
      * now right.
    + intros (e & He & Hfrom & Hto & Hc).
      assert (Hout : In e (outgoing schema nodeId)).
      { unfold outgoing. apply filter_In. split; [assumption|].
        now apply String.eqb_eq. }
      destruct Hc as [Hc|Hc].
      * left. exists e. split; [assumption|]. apply filter_In. split; [assumption|].
        unfold has_condition. now rewrite Hc.
      * right. exists e. split; [assumption|]. apply filter_In. now split.
  - intros Hnil. split; [|reflexivity].
    rewrite (router_without_error schema nodeId st Herr).
    fold ctx. fold targets. now rewrite Hnil.
Qed.

(** The fan-out of [A]: the three unconditional targets, then [E];
    [F] is left out because its condition throws. *)
Lemma router_success_rule_witness :
  createConditionRouter fanout_schema "A" OrchestratorStateAnnotation.default
  = Normal (RArray ["B"; "C"; "D"; "E"]).
Proof.
  exact (proj1 (router_success_rule fanout_schema "A"
                                    OrchestratorStateAnnotation.default eq_refl)).
Defined.

(** ** Retry *)

Section RetryFacts.
Context `{Host}.
Variables (schema : StateMachineSchema) (node : StateNodeDefinition)
          (agents : list (string * CLIAgent)) (agent : CLIAgent) (k : Z).
Hypothesis Hfind :
  find (fun n => (id n =? id node)%string) (nodes schema) = Some node.
Hypothesis Hbudget : nullish (maxRetries node) 0 = k.
Hypothesis Hnot_end : id node <> END.
Hypothesis Hagent : map_get (id node) agents = Some agent.
Hypothesis Hfails : always_fails agent.
Hypothesis Hmessages : never_silent agent.
Hypothesis Hno_fallback :
  forall s e, In e (outgoing schema (id node)) ->
              truthy_opt (error s) = true ->
              condition_holds (context_of s) e = false.

Let so_far (s : OrchestratorStateType) : Z :=
  nullish (obj_get (id node) (_retryCount s)) 0.

(** One failed attempt. *)
Lemma failed_attempt s w :
  exists u w' msg,
    createNodeExecutor node agents s w = (Normal u, w')
    /\ msg <> ""
    /\ obj_get (id node) (_retryCount (apply_update s u)) = Some (so_far s + 1)
    /\ nodeOutputs (apply_update s u) = nodeOutputs s
    /\ error (apply_update s u)
       = Some (if so_far s + 1 <? k + 1 then msg
               else exhausted_message (id node) (so_far s + 1) msg).
Proof.
  destruct (date_now w) as [t0 w1] eqn:Hnow.
  destruct (Hfails (full_prompt node s) w1) as (e & w2 & Hexec).
  pose proof (Hmessages _ _ _ _ Hexec) as Hmsg.
  destruct (date_now w2) as [t1 w3] eqn:Hend.
  destruct (executor_on_failure node agents _ _ _ _ _ _ _ _ _
                                Hagent Hnow Hexec Hend) as (mu & Hrun & _).
  eexists _, _, (message_of e). split; [exact Hrun|]. split; [exact Hmsg|].
  simpl. rewrite Hbudget. repeat split.
  merge_singleton. apply obj_get_set_same.
Qed.

Lemma exhausted_message_truthy n msg :
  truthy_string (exhausted_message (id node) n msg) = true.
Proof. reflexivity. Qed.

(** The router after a failed attempt that leaves attempts. *)
Lemma router_retries s msg :
  error s = Some msg -> msg <> "" ->
  obj_has (id node) (nodeOutputs s) = false ->
  so_far s < k + 1 ->
  createConditionRouter schema (id node) s = Normal (RString (id node)).
Proof.
  intros Herr Hmsg Hout Hlt. unfold createConditionRouter.
  rewrite Hfind, Hbudget, Herr, Hout. simpl.
  rewrite (proj2 (truthy_string_true msg) Hmsg). simpl.
  fold (so_far s). now rewrite (proj2 (Z.ltb_lt _ _) Hlt).
Qed.

(** The router after the last failed attempt. *)
Lemma router_gives_up s msg :
  error s = Some msg -> truthy_string msg = true ->
  k + 1 <= so_far s ->
  createConditionRouter schema (id node) s = Normal (RString END).
Proof.
  intros Herr Hmsg Hge. unfold createConditionRouter.
  rewrite Hfind, Hbudget, Herr. simpl. rewrite Hmsg. simpl.
  fold (so_far s).
  rewrite (proj2 (Z.ltb_ge _ _) Hge), andb_false_r.
  rewrite (proj2 (Z.geb_le _ _) Hge).
  fold (outgoing schema (id node)).
  apply first_matching_edge_none. intros e He. apply Hno_fallback; [assumption|].
  rewrite Herr. exact Hmsg.
Qed.

Lemma destinations_self : destinations (RString (id node)) = [id node].
Proof.
  simpl. destruct (String.eqb_spec (id node) END); [contradiction|reflexivity].
Qed.

End RetryFacts.

(** C3.  The retry bound fails for a node without outgoing edge.  [X]
    of [solo_schema] has [maxRetries = 1] and a delegate that always
    fails.  The graph that [buildGraph] compiles holds no router for
    [X], only the edge from [START] and the end node's edge to [END].
    The run of [X] makes one attempt and activates nothing:
    [_retryCount[X]] stays at 1, the error is the delegate's bare
    message and the final answer says nothing of attempts, although the
    executor left the error of an attempt that can be retried and the
    router of [X], had it been installed, answers [X]. *)
Theorem retry_skipped_without_outgoing_edge :
  graph_edges (fst (buildGraph solo_schema [("X", failing_agent)] None))
  = [Edge START "X"; Edge "X" END]
  /\ run_node 5 solo_schema (demo_node "X" (Some 1) None) [("X", failing_agent)]
              OrchestratorStateAnnotation.default 0
     = (Normal (Some [(state_after_failed_X, [])]), 2)
  /\ _retryCount state_after_failed_X = [("X", 1)]
  /\ error state_after_failed_X = Some "boom"
  /\ final_answer_of state_after_failed_X = "Error during execution: boom"
  /\ createConditionRouter solo_schema "X" state_after_failed_X
     = Normal (RString "X").
Proof. repeat split. Qed.

(** ** Plain transitions *)

Section WiringFacts.
Context `{Host}.

Lemma wire_node_plain schema nodeId edge :
  outgoing schema nodeId = [edge] ->
  condition edge = None ->
  nullish (match find (fun n => (id n =? nodeId)%string) (nodes schema) with
           | Some n => maxRetries n
           | None => None
           end) 0 <= 0 ->
  wire_node schema nodeId = [Edge nodeId (to edge)].
Proof.
  intros Hout Hcond Hretry. unfold wire_node.
  fold (outgoing schema nodeId). rewrite Hout. simpl.
  unfold has_condition. rewrite Hcond. simpl.
  destruct (_ >? 0) eqn:Hgt; [|reflexivity].
  apply Z.gtb_lt in Hgt. lia.
Qed.

(** A node with a retry budget gets its router, whatever its edges. *)
Lemma wire_node_with_retry schema nodeId :
  0 < nullish (match find (fun n => (id n =? nodeId)%string) (nodes schema) with
               | Some n => maxRetries n
               | None => None
               end) 0 ->
  wire_node schema nodeId
  = wire_router schema nodeId (outgoing schema nodeId) true.
Proof.
  intros Hretry. unfold wire_node. fold (outgoing schema nodeId).
  apply Z.gtb_lt in Hretry. rewrite Hretry.
  now rewrite orb_true_r.
Qed.

Lemma successors_plain nodeId target st :
  successors [Edge nodeId target] nodeId st
  = Normal (destinations (RString target)).
Proof.
  cbn [successors cbind]. rewrite String.eqb_refl. now rewrite app_nil_r.
Qed.

Lemma successors_router schema nodeId es retry st r :
  createConditionRouter schema nodeId st = Normal r ->
  successors (wire_router schema nodeId es retry) nodeId st
  = Normal (destinations r).
Proof.
  intros Hr. unfold wire_router. cbn [successors].
  rewrite String.eqb_refl, Hr. cbn [cbind]. now rewrite app_nil_r.
Qed.

End WiringFacts.

(** X23.  A node with exactly one outgoing edge, unconditional, and no
    retry budget is compiled as a plain edge to the edge's target.  In
    every state without error, as is the state after the node completed
    successfully, the plain edge and the conditional edges with the
    node's router activate the same destination, the target. *)
Theorem plain_edge_agrees_without_error `{Host}
        (schema : StateMachineSchema) (nodeId : string) (edge : EdgeDefinition)
        (st : OrchestratorStateType) :
  outgoing schema nodeId = [edge] ->
  condition edge = None ->
  nullish (match find (fun n => (id n =? nodeId)%string) (nodes schema) with
           | Some n => maxRetries n
           | None => None
           end) 0 = 0 ->
  truthy_opt (error st) = false ->
  wire_node schema nodeId = [Edge nodeId (to edge)]
  /\ createConditionRouter schema nodeId st = Normal (RString (to edge))
  /\ successors (wire_node schema nodeId) nodeId st
     = successors (wire_router schema nodeId (outgoing schema nodeId) false)
                  nodeId st
  /\ successors (wire_node schema nodeId) nodeId st
     = Normal (destinations (RString (to edge))).
Proof.
  intros Hout Hcond Hretry Herr.
  assert (Hwire : wire_node schema nodeId = [Edge nodeId (to edge)])
    by (apply wire_node_plain; [assumption|assumption|lia]).
  assert (Hroute : createConditionRouter schema nodeId st
                   = Normal (RString (to edge))).
  { rewrite (router_without_error schema nodeId st Herr), Hout. simpl.
    unfold has_condition, condition_holds. now rewrite Hcond. }
  repeat split; try assumption.
  - rewrite Hwire, successors_plain.
    now rewrite (successors_router _ _ _ _ _ _ Hroute).
  - rewrite Hwire. apply successors_plain.
Qed.

(** [A] of [linear_schema], before any error. *)
Lemma plain_edge_agrees_without_error_witness :
  successors (wire_node linear_schema "A") "A" OrchestratorStateAnnotation.default
  = successors (wire_router linear_schema "A" (outgoing linear_schema "A") false)
               "A" OrchestratorStateAnnotation.default.
Proof.
  exact (proj1 (proj2 (proj2 (plain_edge_agrees_without_error
                                linear_schema "A" (demo_edge "A" "B")
                                OrchestratorStateAnnotation.default
                                eq_refl eq_refl eq_refl eq_refl)))).
Defined.

(** C2 fails in a state where the node failed: the plain edge and the
    router differ there.  [A] of [linear_schema] has one unconditional edge and the
    default retry budget, its delegate fails, and in the state after
    this completion the plain edge activates [B] while the router
    answers [END] and activates nothing. *)
Lemma plain_edge_differs_after_failure :
  successors (wire_node linear_schema "A") "A" state_after_failed_A
  <> successors (wire_router linear_schema "A" (outgoing linear_schema "A") false)
                "A" state_after_failed_A
  /\ outgoing linear_schema "A" = [demo_edge "A" "B"]
  /\ error state_after_failed_A = Some "Node A failed after 1 attempts: boom"
  /\ wire_node linear_schema "A" = [Edge "A" "B"]
  /\ successors (wire_node linear_schema "A") "A" state_after_failed_A
     = Normal ["B"]
  /\ createConditionRouter linear_schema "A" state_after_failed_A
     = Normal (RString END)
  /\ successors (wire_router linear_schema "A" (outgoing linear_schema "A") false)
                "A" state_after_failed_A
     = Normal [].
Proof. repeat split. discriminate. Qed.

(** C2.  The plain transition is not equivalent to the router after a
    failure, and the difference loses the failure.  In [linear_schema]
    the node [A] has one unconditional edge, to [B], and no retry
    budget, so [buildGraph] compiles it as a plain edge.  When the
    delegate of [A] fails, the state holds the error that states that
    [A] failed after 1 attempts; the router of [A] answers [END] in
    that state, which ends the run with that error in the final
    answer.  The compiled graph instead activates [B]; [B] answers, its
    update sets the error to null, nothing is activated after it, and
    the final answer is the output of [B] with no trace of the failure
    of [A]. *)
Theorem plain_edge_swallows_failure :
  graph_edges (fst (buildGraph linear_schema failing_then_done None))
  = [Edge START "A"; Edge "A" "B"; Edge "B" END]
  /\ run_node 5 linear_schema (demo_node "A" None None) failing_then_done
              OrchestratorStateAnnotation.default 0
     = (Normal (Some [(state_after_failed_A, ["B"])]), 2)
  /\ error state_after_failed_A = Some "Node A failed after 1 attempts: boom"
  /\ createConditionRouter linear_schema "A" state_after_failed_A
     = Normal (RString END)
  /\ final_answer_of state_after_failed_A
     = "Error during execution: Node A failed after 1 attempts: boom"
  /\ run_node 5 linear_schema (demo_node "B" None None) failing_then_done
              state_after_failed_A 2
     = (Normal (Some [(state_after_B, [])]), 4)
  /\ error state_after_B = None
  /\ nodeOutputs state_after_B = [("B", "done")]
  /\ final_answer_of state_after_B = "done".
Proof. repeat split. Qed.

(** ** Schema validation *)

(** Induction on a declared type, through the fields of an object. *)
Lemma ZodType_nested_ind (P : ZodType -> Prop) :
  P z_string -> P z_number -> P z_unknown ->
  (forall options, P (z_enum options)) ->
  (forall t, P t -> P (z_optional t)) ->
  (forall t, P t -> P (z_array t)) ->
  (forall shape, Forall (fun kt => P (snd kt)) shape -> P (z_object shape)) ->
  (forall t, P t -> P (z_record t)) ->
  forall t, P t.
Proof.
  intros Hs Hn Hu He Ho Ha Hobj Hr.
  fix IH 1. intros [| | | options | t | t | shape | t].
  - exact Hs.
  - exact Hn.
  - exact Hu.
  - apply He.
  - apply Ho, IH.
  - apply Ha, IH.
  - apply Hobj. induction shape as [|[k t] shape IHshape]; constructor.
    + apply IH.
    + exact IHshape.
  - apply Hr, IH.
Qed.

Lemma in_flat_mapi {A B : Type} (f : nat -> A -> list B) (l : list A) (i : nat)
      (y : B) :
  In y (flat_mapi f i l)
  <-> exists j x, nth_error l j = Some x /\ In y (f (i + j)%nat x).
Proof.
  revert i. induction l as [|a l IH]; intros i; simpl.
  - split; [intros []|]. intros (j & x & Hj & _). now destruct j.
  - rewrite in_app_iff, IH. split.
    + intros [Hy|(j & x & Hj & Hy)].
      * exists O, a. now rewrite Nat.add_0_r.
      * exists (S j), x. now rewrite Nat.add_succ_r.
    + intros (j & x & Hj & Hy). destruct j as [|j]; simpl in Hj.
      * injection Hj as ->. left. now rewrite Nat.add_0_r in Hy.
      * right. exists j, x. now rewrite Nat.add_succ_r in Hy.
Qed.

(** The issues of a parse are exactly the violations of the declared
    shape. *)
Lemma zod_issues_iff_violation (t : ZodType) :
  forall p v i, In i (zod_issues t p v) <-> violation t p v i.
Proof.
  induction t as [| | | options | t IH | t IH | shape IH | t IH]
    using ZodType_nested_ind; intros p v i.
  - split.
    + destruct v; simpl; intros Hin; try contradiction;
        destruct Hin as [<-|[]]; apply (viol_string p); discriminate.
    + intros Hv. inversion Hv as [p' v' Hne| | | | | | | | | |]; subst.
      destruct v; simpl; auto. now destruct (Hne s).
  - split.
    + destruct v; simpl; intros Hin; try contradiction;
        destruct Hin as [<-|[]]; apply (viol_number p); discriminate.
    + intros Hv. inversion Hv as [|p' v' Hne| | | | | | | | |]; subst.
      destruct v; simpl; auto. now destruct (Hne z).
  - split; [intros []|]. intros Hv. inversion Hv.
  - split.
    + destruct v; simpl; intros Hin;
        try (destruct Hin as [<-|[]]; apply (viol_enum_type options p); discriminate).
      destruct (mem s options) eqn:Hmem; [contradiction|].
      destruct Hin as [<-|[]]. now apply viol_enum_value.
    + intros Hv.
      inversion Hv as [| |o p' v' Hne|o p' s Hmem| | | | | | |]; subst.
      * destruct v; simpl; auto. now destruct (Hne s).
      * simpl. rewrite Hmem. now left.
  - split.
    + intros Hin. destruct v; simpl in Hin; try contradiction;
        (apply viol_optional; [discriminate|now apply IH]).
    + intros Hv. inversion Hv as [| | | |t' p' v' i' Hne Hin| | | | | |]; subst.
      apply IH in Hin. destruct v; simpl; auto.
  - split.
    + destruct v; simpl; intros Hin;
        try (destruct Hin as [<-|[]]; apply (viol_array_type t p); discriminate).
      apply in_flat_mapi in Hin. destruct Hin as (j & x & Hj & Hin).
      apply viol_array_element with (n := j) (x := x); [exact Hj|].
      now apply IH.
    + intros Hv.
      inversion Hv as [| | | | |t' p' v' Hne|t' p' l n x i' Hn Hin| | | |]; subst.
      * destruct v; simpl; auto. now destruct (Hne elems).
      * simpl. apply in_flat_mapi. exists n, x. split; [exact Hn|]. now apply IH.
  - split.
    + destruct v; simpl; intros Hin;
        try (destruct Hin as [<-|[]]; apply (viol_object_type shape p); discriminate).
      apply in_flat_map in Hin. destruct Hin as ([k tk] & Hkt & Hin).
      apply viol_object_field with (k := k) (t := tk); [exact Hkt|].
      rewrite Forall_forall in IH. now apply (IH (k, tk) Hkt).
    + intros Hv.
      inversion Hv as [| | | | | | |s' p' v' Hne|s' p' ps k tk i' Hkt Hin| |]; subst.
      * destruct v; simpl; auto. now destruct (Hne props).
      * simpl. apply in_flat_map. exists (k, tk). split; [exact Hkt|].
        rewrite Forall_forall in IH. now apply (IH (k, tk) Hkt).
  - split.
    + destruct v; simpl; intros Hin;
        try (destruct Hin as [<-|[]]; apply (viol_record_type t p); discriminate).
      apply in_flat_map in Hin. destruct Hin as ([k x] & Hkx & Hin).
      apply viol_record_entry with (k := k) (x := x); [exact Hkx|].
      now apply IH.
    + intros Hv.
      inversion Hv as [| | | | | | | | |t' p' v' Hne|t' p' ps k x i' Hkx Hin]; subst.
      * destruct v; simpl; auto. now destruct (Hne props).
      * simpl. apply in_flat_map. exists (k, x). split; [exact Hkx|]. now apply IH.
Qed.

Lemma flat_mapi_nil {A B : Type} (f : nat -> A -> list B) (l : list A) :
  (forall x, In x l -> forall i, f i x = []) ->
  forall i, flat_mapi f i l = [].
Proof.
  induction l as [|a l IH]; intros Hall i; simpl; [reflexivity|].
  rewrite (Hall a (or_introl eq_refl)). simpl. apply IH.
  intros x Hx. apply Hall. now right.
Qed.

Lemma as_list_map {A : Type} (f : A -> value) (g : value -> option A)
      (l : list A) :
  (forall x, g (f x) = Some x) -> as_list g (map f l) = Some l.
Proof.
  intros Hgf. induction l as [|a l IH]; simpl; [reflexivity|].
  now rewrite Hgf, IH.
Qed.

Lemma map_fixed {A : Type} (f : A -> value) (h : value -> value) (l : list A) :
  (forall x, In x l -> h (f x) = f x) -> map h (map f l) = map f l.
Proof.
  intros Hfix. rewrite map_map. apply map_ext_in. exact Hfix.
Qed.

Lemma agent_type_accepts (config_agents : list string) (n : StateNodeDefinition) :
  agent_allowed config_agents n = true ->
  (forall p, zod_issues (createAgentTypeSchema config_agents) p
                        (VStr (agentType n)) = [])
  /\ zod_output (createAgentTypeSchema config_agents) (VStr (agentType n))
     = VStr (agentType n).
Proof.
  intros Hallowed.
  destruct config_agents; unfold createAgentTypeSchema, agent_allowed in *;
    cbn [zod_issues zod_output]; rewrite Hallowed; now split.
Qed.

Lemma node_accepts (agentTypeSchema : ZodType) (n : StateNodeDefinition) :
  (forall p, zod_issues agentTypeSchema p (VStr (agentType n)) = []) ->
  zod_output agentTypeSchema (VStr (agentType n)) = VStr (agentType n) ->
  (forall p, zod_issues (node_shape agentTypeSchema) p (value_of_node n) = [])
  /\ zod_output (node_shape agentTypeSchema) (value_of_node n) = value_of_node n.
Proof.
  intros Hissues Houtput.
  destruct n as [i nm d a b [m|] [s|] [e|]]; simpl in *;
    (split; [intros p; now rewrite Hissues
            |unfold field; simpl; now rewrite Houtput]).
Qed.

Lemma node_of_value_of_node (n : StateNodeDefinition) :
  node_of_value (value_of_node n) = Some n.
Proof. destruct n as [i nm d a b [m|] [s|] [e|]]; reflexivity. Qed.

Lemma edge_accepts (e : EdgeDefinition) :
  (forall p, zod_issues EdgeDefinitionSchema p (value_of_edge e) = [])
  /\ zod_output EdgeDefinitionSchema (value_of_edge e) = value_of_edge e
  /\ edge_of_value (value_of_edge e) = Some e.
Proof. destruct e as [f t [[c [d|]]|]]; repeat split. Qed.

Lemma record_output_fixed (ps : obj value) :
  map (fun kx : string * value => (fst kx, zod_output z_unknown (snd kx))) ps = ps.
Proof.
  induction ps as [|[k x] ps IH]; simpl in *; [reflexivity|]. now f_equal.
Qed.

Lemma flat_map_const_nil {A B : Type} (l : list A) :
  flat_map (fun _ : A => @nil B) l = [].
Proof. induction l as [|a l IH]; simpl; [reflexivity|exact IH]. Qed.

(** Every schema whose nodes have an agent type of the roster denotes a
    document that is accepted as it is and read back as the schema. *)
Lemma schema_accepted (config_agents : list string) (s : StateMachineSchema) :
  forallb (agent_allowed config_agents) (nodes s) = true ->
  generateStateMachine_validate config_agents (value_of_schema s)
  = inl (value_of_schema s)
  /\ schema_of_value (value_of_schema s) = Some s.
Proof.
  intros Hallowed. rewrite forallb_forall in Hallowed.
  assert (Hnodes : forall n, In n (nodes s) ->
            (forall p, zod_issues (createStateNodeDefinitionSchema config_agents) p
                                  (value_of_node n) = [])
            /\ zod_output (createStateNodeDefinitionSchema config_agents)
                          (value_of_node n) = value_of_node n).
  { intros n Hn. destruct (agent_type_accepts config_agents n (Hallowed n Hn)).
    now apply node_accepts. }
  assert (Hissues : zod_issues (createStateMachineSchemaDefinition config_agents) []
                               (value_of_schema s) = []).
  { unfold createStateMachineSchemaDefinition, machine_shape.
    generalize dependent (createStateNodeDefinitionSchema config_agents).
    intros nodeSchema Hnodes.
    destruct s as [p d ns es st en [m|]];
      cbn [zod_issues flat_map value_of_schema plan diagram nodes edges
           startNodeId endNodeId initialMetadata optional_field app
           field obj_get nullish String.eqb Ascii.eqb Bool.eqb] in *;
      rewrite !flat_mapi_nil.
    all: try (intros x Hx i; apply in_map_iff in Hx; destruct Hx as (y & <- & Hy);
              first [apply edge_accepts | apply Hnodes; exact Hy]).
    all: rewrite ?flat_map_const_nil; reflexivity. }
  split.
  - unfold generateStateMachine_validate, zod_parse. rewrite Hissues. f_equal.
    unfold createStateMachineSchemaDefinition, machine_shape.
    generalize dependent (createStateNodeDefinitionSchema config_agents).
    intros nodeSchema Hnodes.
    destruct s as [p d ns es st en [m|]];
      cbn [zod_output flat_map value_of_schema plan diagram nodes edges
           startNodeId endNodeId initialMetadata optional_field app
           field obj_get obj_has nullish String.eqb Ascii.eqb Bool.eqb] in *;
      rewrite ?record_output_fixed;
      rewrite !map_fixed; try reflexivity.
    all: try (intros x Hx; apply edge_accepts).
    all: try (intros x Hx; now apply Hnodes).
  - destruct s as [p d ns es st en [m|]]; simpl;
      rewrite !as_list_map; try reflexivity.
    all: try apply node_of_value_of_node.
    all: try (intros e; apply edge_accepts).
Qed.

(** *** An accepted document is a [StateMachineSchema] *)

Lemma zod_output_undefined (t : ZodType) : zod_output t VUndefined = VUndefined.
Proof. destruct t; reflexivity. Qed.

Lemma field_absent (ps : obj value) (k : string) :
  obj_has k ps = false -> field k ps = VUndefined.
Proof.
  unfold obj_has, field. now destruct (obj_get k ps).
Qed.

(** Reading a declared key out of the parsed data of an object. *)
Lemma field_of_output (shape : list (string * ZodType)) (ps : obj value)
      (k : string) (tk : ZodType) :
  NoDup (map fst shape) -> In (k, tk) shape ->
  field k (flat_map (fun kt : string * ZodType =>
                       let (k', t') := kt in
                       if obj_has k' ps
                       then [(k', zod_output t' (field k' ps))]
                       else []) shape)
  = zod_output tk (field k ps).
Proof.
  induction shape as [|[k0 t0] shape IH]; intros Hnodup Hin; [contradiction|].
  simpl in Hnodup. inversion Hnodup as [|? ? Hfresh Hrest]; subst.
  cbn [flat_map]. destruct Hin as [Heq|Hin].
  - injection Heq as -> ->. destruct (obj_has k ps) eqn:Hhas.
    + unfold field at 1. simpl. now rewrite String.eqb_refl.
    + rewrite (field_absent _ _ Hhas), zod_output_undefined. simpl.
      clear IH Hrest Hnodup. induction shape as [|[k1 t1] shape IH]; [reflexivity|].
      simpl in Hfresh. cbn [flat_map].
      destruct (obj_has k1 ps).
      * unfold field. simpl. destruct (String.eqb_spec k1 k) as [->|_].
        -- exfalso. apply Hfresh. now left.
        -- apply IH. intros Hk. apply Hfresh. now right.
      * simpl. apply IH. intros Hk. apply Hfresh. now right.
  - assert (Hne : k0 <> k).
    { intros ->. apply Hfresh. apply in_map_iff. now exists (k, tk). }
    destruct (obj_has k0 ps).
    + unfold field at 1. simpl. destruct (String.eqb_spec k0 k); [contradiction|].
      now apply IH.
    + simpl. now apply IH.
Qed.

Lemma no_issue_string (p : list path_elem) (v : value) :
  zod_issues z_string p v = [] -> exists s, v = VStr s.
Proof. destruct v; simpl; intros Hv; try discriminate. eauto. Qed.

Lemma no_issue_optional_string (p : list path_elem) (v : value) :
  zod_issues (z_optional z_string) p v = [] ->
  exists o, as_optional as_string (zod_output (z_optional z_string) v) = Some o.
Proof. destruct v; simpl; intros Hv; try discriminate; eauto. Qed.

Lemma no_issue_optional_number (p : list path_elem) (v : value) :
  zod_issues (z_optional z_number) p v = [] ->
  exists o, as_optional as_number (zod_output (z_optional z_number) v) = Some o.
Proof. destruct v; simpl; intros Hv; try discriminate; eauto. Qed.

Lemma no_issue_enum (options : list string) (p : list path_elem) (v : value) :
  zod_issues (z_enum options) p v = [] -> exists s, v = VStr s.
Proof.
  destruct v; simpl; intros Hv; try discriminate. eauto.
Qed.

Lemma flat_mapi_nil_inv {A B : Type} (f : nat -> A -> list B) (l : list A) (i : nat) :
  flat_mapi f i l = [] -> forall x, In x l -> exists j, f j x = [].
Proof.
  revert i. induction l as [|a l IH]; intros i Hnil x Hx; [contradiction|].
  simpl in Hnil. apply app_eq_nil in Hnil. destruct Hnil as [Ha Hl].
  destruct Hx as [<-|Hx]; [eauto|]. now apply (IH (S i)).
Qed.

Lemma as_list_total {A : Type} (g : value -> option A) (l : list value) :
  (forall x, In x l -> exists a, g x = Some a) -> exists r, as_list g l = Some r.
Proof.
  induction l as [|x l IH]; intros Hall; simpl; [eauto|].
  destruct (Hall x (or_introl eq_refl)) as [a ->].
  destruct IH as [r ->]; [intros y Hy; apply Hall; now right|].
  simpl. eauto.
Qed.

Ltac split_issues H :=
  repeat match type of H with
         | (_ ++ _)%list = [] =>
             let H1 := fresh "Hissue" in
             apply app_eq_nil in H; destruct H as [H1 H]
         end.

Ltac read_field k :=
  erewrite (field_of_output _ _ k);
  [|repeat constructor; simpl; intuition discriminate|simpl; tauto].

Lemma node_view (agentTypeSchema : ZodType) (p : list path_elem) (v : value) :
  (forall p' x, zod_issues agentTypeSchema p' x = [] ->
                exists s, zod_output agentTypeSchema x = VStr s) ->
  zod_issues (node_shape agentTypeSchema) p v = [] ->
  exists n, node_of_value (zod_output (node_shape agentTypeSchema) v) = Some n.
Proof.
  intros Hagent Hv. unfold node_shape in *.
  destruct v; try discriminate. cbn [zod_issues flat_map] in Hv.
  split_issues Hv.
  cbn [zod_output]. unfold node_of_value.
  read_field "id". read_field "name". read_field "description".
  read_field "agentType". read_field "basePrompt". read_field "maxRetries".
  read_field "onSuccess". read_field "onError".
  destruct (no_issue_string _ _ Hissue) as [i ->].
  destruct (no_issue_string _ _ Hissue0) as [nm ->].
  destruct (no_issue_string _ _ Hissue1) as [d ->].
  destruct (Hagent _ _ Hissue2) as [a ->].
  destruct (no_issue_string _ _ Hissue3) as [b ->].
  destruct (no_issue_optional_number _ _ Hissue4) as [m ->].
  destruct (no_issue_optional_string _ _ Hissue5) as [s ->].
  destruct (no_issue_optional_string _ _ Hissue6) as [e ->].
  simpl. eauto.
Qed.

Lemma condition_view (p : list path_elem) (v : value) :
  zod_issues (z_optional ConditionDefinitionSchema) p v = [] ->
  exists c, as_optional condition_of_value
              (zod_output (z_optional ConditionDefinitionSchema) v) = Some c.
Proof.
  intros Hv. destruct v; try discriminate; try (simpl; eauto; fail).
  unfold ConditionDefinitionSchema in *. cbn [zod_issues flat_map] in Hv.
  split_issues Hv.
  cbn [zod_output as_optional]. unfold condition_of_value.
  read_field "code". read_field "description".
  destruct (no_issue_string _ _ Hissue) as [c ->].
  destruct (no_issue_optional_string _ _ Hissue0) as [d ->].
  simpl. eauto.
Qed.

Lemma edge_view (p : list path_elem) (v : value) :
  zod_issues EdgeDefinitionSchema p v = [] ->
  exists e, edge_of_value (zod_output EdgeDefinitionSchema v) = Some e.
Proof.
  intros Hv. unfold EdgeDefinitionSchema in *.
  destruct v; try discriminate. cbn [zod_issues flat_map] in Hv.
  split_issues Hv.
  cbn [zod_output]. unfold edge_of_value.
  read_field "from". read_field "to". read_field "condition".
  destruct (no_issue_string _ _ Hissue) as [f ->].
  destruct (no_issue_string _ _ Hissue0) as [t ->].
  destruct (condition_view _ _ Hissue1) as [c ->].
  simpl. eauto.
Qed.

Lemma array_view {A : Type} (t : ZodType) (g : value -> option A)
      (p : list path_elem) (v : value) :
  (forall p' x, zod_issues t p' x = [] -> exists a, g (zod_output t x) = Some a) ->
  zod_issues (z_array t) p v = [] ->
  exists l, as_array g (zod_output (z_array t) v) = Some l.
Proof.
  intros Helem Hv. destruct v; try discriminate. cbn [zod_issues] in Hv.
  cbn [zod_output as_array]. apply as_list_total.
  intros y Hy. apply in_map_iff in Hy. destruct Hy as (x & <- & Hx).
  destruct (flat_mapi_nil_inv _ _ _ Hv x Hx) as [j Hj]. eauto.
Qed.

Lemma metadata_view (p : list path_elem) (v : value) :
  zod_issues (z_optional (z_record z_unknown)) p v = [] ->
  exists m, as_optional as_record
              (zod_output (z_optional (z_record z_unknown)) v) = Some m.
Proof. destruct v; simpl; intros Hv; try discriminate; eauto. Qed.

Lemma machine_view (nodeSchema : ZodType) (parsed : value) :
  (forall p x, zod_issues nodeSchema p x = [] ->
               exists n, node_of_value (zod_output nodeSchema x) = Some n) ->
  zod_issues (machine_shape nodeSchema) [] parsed = [] ->
  exists s, schema_of_value (zod_output (machine_shape nodeSchema) parsed) = Some s.
Proof.
  intros Hnode Hv. unfold machine_shape in *.
  destruct parsed; try discriminate. cbn [zod_issues flat_map] in Hv.
  split_issues Hv.
  cbn [zod_output]. unfold schema_of_value.
  read_field "plan". read_field "diagram". read_field "nodes". read_field "edges".
  read_field "startNodeId". read_field "endNodeId". read_field "initialMetadata".
  destruct (no_issue_string _ _ Hissue) as [pl ->].
  destruct (no_issue_string _ _ Hissue0) as [d ->].
  destruct (array_view nodeSchema node_of_value _ _ Hnode Hissue1) as [ns ->].
  destruct (array_view EdgeDefinitionSchema edge_of_value _ _
                       (fun p x => edge_view p x) Hissue2) as [es ->].
  destruct (no_issue_string _ _ Hissue3) as [st ->].
  destruct (no_issue_string _ _ Hissue4) as [en ->].
  destruct (metadata_view _ _ Hissue5) as [m ->].
  simpl. eauto.
Qed.

(** A document that validation accepts is handed back as a
    [StateMachineSchema]. *)
Lemma accepted_is_schema (config_agents : list string) (parsed validated : value) :
  generateStateMachine_validate config_agents parsed = inl validated ->
  exists s, schema_of_value validated = Some s.
Proof.
  unfold generateStateMachine_validate, zod_parse.
  destruct (zod_issues _ [] parsed) eqn:Hv; [|discriminate].
  intros Hok.
  replace validated
    with (zod_output (createStateMachineSchemaDefinition config_agents) parsed)
    by congruence.
  apply machine_view; [|exact Hv].
  intros p x. apply node_view. intros p' y Hy.
  unfold createAgentTypeSchema in Hy |- *.
  destruct config_agents; destruct (no_issue_enum _ _ _ Hy) as [a ->];
    now exists a.
Qed.

(** C1, amended.  Schema validation is the structural parse of the
    declared shape.  It accepts a candidate exactly when no position of
    the candidate violates the declared types, the agent type of a node
    being one of the roster; in particular it accepts the document of
    every schema whose nodes have an agent type of the roster, and hands
    it back unchanged, without any check of the uniqueness of node ids,
    of the endpoints of edges, of the start and end ids or of the sign
    of [maxRetries].  What it accepts is a [StateMachineSchema].  When
    it rejects, the issues it reports are all the violations of the
    declared shape, not just the first. *)
Theorem validation_is_structural (config_agents : list string) :
  (forall s,
      forallb (agent_allowed config_agents) (nodes s) = true ->
      generateStateMachine_validate config_agents (value_of_schema s)
      = inl (value_of_schema s)
      /\ schema_of_value (value_of_schema s) = Some s)
  /\ (forall parsed,
         (exists validated,
             generateStateMachine_validate config_agents parsed = inl validated)
         <-> (forall i,
                 ~ violation (createStateMachineSchemaDefinition config_agents)
                             [] parsed i))
  /\ (forall parsed validated,
         generateStateMachine_validate config_agents parsed = inl validated ->
         exists s, schema_of_value validated = Some s)
  /\ (forall parsed issues,
         generateStateMachine_validate config_agents parsed = inr issues ->
         issues <> []
         /\ forall i,
             violation (createStateMachineSchemaDefinition config_agents)
                       [] parsed i
             <-> In i issues).
Proof.
  split; [|split; [|split]].
  - intros s Hallowed. now apply schema_accepted.
  - intros parsed. unfold generateStateMachine_validate, zod_parse. split.
    + intros [validated Hok] i Hv.
      apply zod_issues_iff_violation in Hv.
      destruct (zod_issues _ [] parsed); [contradiction|discriminate].
    + intros Hnone.
      destruct (zod_issues _ [] parsed) as [|i issues] eqn:Hissues; [eauto|].
      exfalso. apply (Hnone i), zod_issues_iff_violation.
      rewrite Hissues. now left.
  - apply accepted_is_schema.
  - intros parsed issues. unfold generateStateMachine_validate, zod_parse.
    destruct (zod_issues _ [] parsed) as [|i0 rest] eqn:Hissues; [discriminate|].
    intros Hrej. injection Hrej as <-. split; [discriminate|].
    intros i. rewrite <- Hissues. symmetry. apply zod_issues_iff_violation.
Qed.

(** [linear_schema] is accepted under the default roster, and the two
    ill-typed positions of [ill_typed_candidate] are both violations. *)
Lemma validation_is_structural_witness :
  generateStateMachine_validate [] (value_of_schema linear_schema)
  = inl (value_of_schema linear_schema)
  /\ violation (createStateMachineSchemaDefinition []) [] ill_typed_candidate
               (invalid_type "string" "number" [Key "plan"])
  /\ violation (createStateMachineSchemaDefinition []) [] ill_typed_candidate
               (invalid_type "string" "null" [Key "nodes"; Index 0; Key "id"]).
Proof.
  destruct (validation_is_structural []) as (Haccept & _ & _ & Hreject).
  destruct (Hreject ill_typed_candidate _ eq_refl) as [_ Hall].
  split; [|split].
  - exact (proj1 (Haccept linear_schema eq_refl)).
  - apply Hall. vm_compute. auto.
  - apply Hall. vm_compute. auto.
Defined.

(** C1 as stated fails: the candidate has two nodes with the id [A], a
    negative [maxRetries], an edge to a node that does not exist and
    start and end ids that name no node, and validation accepts it. *)
Lemma validation_accepts_malformed_schema :
  generateStateMachine_validate [] (value_of_schema malformed_schema)
  = inl (value_of_schema malformed_schema)
  /\ schema_of_value (value_of_schema malformed_schema) = Some malformed_schema
  /\ spec_well_formed malformed_schema = false
  /\ all_distinct (node_ids malformed_schema) = false
  /\ mem "ghost" (node_ids malformed_schema) = false
  /\ mem (startNodeId malformed_schema) (node_ids malformed_schema) = false
  /\ mem (endNodeId malformed_schema) (node_ids malformed_schema) = false
  /\ maxRetries (demo_node "A" (Some (-1)) None) = Some (-1).
Proof. repeat split. Qed.

(** * Further properties of the code *)

(** ** The router's error rules *)

Section RouterRules.
Context `{Host}.

Lemma first_matching_edge_find ctx es :
  first_matching_edge ctx es
  = Normal (match find (condition_holds ctx) es with
            | Some e => RString (to e)
            | None => RString END
            end).
Proof.
  induction es as [|e es IH]; simpl; [reflexivity|].
  unfold condition_holds at 1.
  destruct (condition e) as [c|]; [|exact IH].
  destruct (evaluateCondition_total (code c) ctx) as [b ->]. simpl.
  now destruct (truthy b).
Qed.

(** The router's answer when neither error rule applies. *)
Lemma router_falls_through schema nodeId st :
  let attempts := nullish (obj_get nodeId (_retryCount st)) 0 in
  let total :=
    nullish (match find (fun n => (id n =? nodeId)%string) (nodes schema) with
             | Some n => maxRetries n
             | None => None
             end) 0 + 1 in
  truthy_opt (error st) && negb (obj_has nodeId (nodeOutputs st))
    && (attempts <? total) = false ->
  truthy_opt (error st) && (attempts >=? total) = false ->
  createConditionRouter schema nodeId st
  = Normal
      (pack (map to (filter (fun e => negb (has_condition e))
                            (outgoing schema nodeId))
               ++ map to (filter (condition_holds (context_of st))
                                 (outgoing schema nodeId)))%list).
Proof.
  intros attempts total Hretry Hexhausted. unfold createConditionRouter.
  fold attempts. fold total. rewrite Hretry, Hexhausted.
  fold (outgoing schema nodeId).
  rewrite push_matching_edges_spec.
  - simpl. rewrite filter_holds_conditional.
    unfold pack. now destruct (_ ++ _)%list as [|d [|d' ds]].
  - apply Forall_forall. intros e He. now apply filter_In in He.
Qed.

Lemma answers_pack (l : list string) :
  answers (pack l) = match l with [] => [END] | _ => l end.
Proof. now destruct l as [|d [|d' l]]. Qed.

End RouterRules.

Lemma dedupe_from_In (seen xs : list string) (x : string) :
  In x (dedupe_from seen xs) <-> In x xs /\ ~ In x seen.
Proof.
  revert seen. induction xs as [|y xs IH]; intros seen; simpl; [tauto|].
  destruct (existsb (String.eqb y) seen) eqn:Hseen.
  - rewrite IH. apply existsb_exists in Hseen.
    destruct Hseen as (z & Hz & Hyz). apply String.eqb_eq in Hyz. subst z.
    split; [tauto|]. intros [[->|Hx] Hn]; tauto.
  - simpl. rewrite IH. simpl.
    assert (Hy : ~ In y seen).
    { intros Hy. assert (Ht : existsb (String.eqb y) seen = true).
      { apply existsb_exists. exists y. split; [exact Hy|apply String.eqb_refl]. }
      congruence. }
    destruct (String.eqb_spec y x) as [->|Hne]; [tauto|].
    split.
    + intros [Heq|[Hx Hn]]; [congruence|]. split; [tauto|]. tauto.
    + intros [[Heq|Hx] Hn]; [congruence|]. right. split; [exact Hx|].
      intros [Heq|Hs]; [congruence|tauto].
Qed.

Lemma dedupe_In (xs : list string) (x : string) : In x (dedupe xs) <-> In x xs.
Proof. unfold dedupe. rewrite dedupe_from_In. simpl. tauto. Qed.

Lemma dedupe_from_NoDup (seen xs : list string) : NoDup (dedupe_from seen xs).
Proof.
  revert seen. induction xs as [|y xs IH]; intros seen; simpl; [constructor|].
  destruct (existsb (String.eqb y) seen); [apply IH|].
  constructor; [|apply IH].
  rewrite dedupe_from_In. simpl. tauto.
Qed.

Lemma dedupe_NoDup (xs : list string) : NoDup (dedupe xs).
Proof. apply dedupe_from_NoDup. Qed.

(** X1.  When the state carries an error and the attempts counted for
    the node have reached [maxRetries + 1], the router answers the
    target of the first outgoing edge, in declaration order, that has a
    condition evaluating to a truthy value, and [END] when there is
    none.  Unconditional edges are not taken: a node with only
    unconditional edges ends the run there. *)
Theorem router_exhausted_rule `{Host}
        (schema : StateMachineSchema) (nodeId : string)
        (st : OrchestratorStateType) :
  truthy_opt (error st) = true ->
  nullish (match find (fun n => (id n =? nodeId)%string) (nodes schema) with
           | Some n => maxRetries n
           | None => None
           end) 0 + 1
  <= nullish (obj_get nodeId (_retryCount st)) 0 ->
  createConditionRouter schema nodeId st
  = Normal (match find (condition_holds (context_of st)) (outgoing schema nodeId) with
            | Some e => RString (to e)
            | None => RString END
            end)
  /\ ((forall e, In e (outgoing schema nodeId) -> condition e = None) ->
      createConditionRouter schema nodeId st = Normal (RString END)).
Proof.
  intros Herr Hge.
  assert (Hroute : createConditionRouter schema nodeId st
                   = first_matching_edge (context_of st) (outgoing schema nodeId)).
  { unfold createConditionRouter. rewrite Herr. simpl.
    rewrite (proj2 (Z.ltb_ge _ _) Hge), andb_false_r.
    now rewrite (proj2 (Z.geb_le _ _) Hge). }
  split.
  - rewrite Hroute. apply first_matching_edge_find.
  - intros Hnone. rewrite Hroute. apply first_matching_edge_none.
    intros e He. unfold condition_holds. now rewrite (Hnone e He).
Qed.

(** [A] of [linear_schema] after its only attempt failed. *)
Lemma router_exhausted_rule_witness :
  createConditionRouter linear_schema "A" state_after_failed_A
  = Normal (RString END).
Proof.
  refine (proj2 (router_exhausted_rule linear_schema "A" state_after_failed_A
                                       eq_refl _) _).
  - vm_compute. discriminate.
  - intros e [<-|[]]. reflexivity.
Defined.

(** X2.  A node that already has an output is not retried: when the
    state carries an error, [nodeOutputs] has an entry for the node and
    attempts remain, the router follows the success rule, the error
    notwithstanding. *)
Theorem router_no_retry_with_output `{Host}
        (schema : StateMachineSchema) (nodeId : string)
        (st : OrchestratorStateType) :
  truthy_opt (error st) = true ->
  obj_has nodeId (nodeOutputs st) = true ->
  nullish (obj_get nodeId (_retryCount st)) 0
  < nullish (match find (fun n => (id n =? nodeId)%string) (nodes schema) with
             | Some n => maxRetries n
             | None => None
             end) 0 + 1 ->
  createConditionRouter schema nodeId st
  = Normal
      (pack (map to (filter (fun e => negb (has_condition e))
                            (outgoing schema nodeId))
               ++ map to (filter (condition_holds (context_of st))
                                 (outgoing schema nodeId)))%list).
Proof.
  intros Herr Hout Hlt. apply router_falls_through.
  - now rewrite Hout, andb_false_r.
  - rewrite Herr. simpl. rewrite Z.geb_leb. apply Z.leb_gt. exact Hlt.
Qed.

(** [X] of [retry_schema] has an output from an earlier visit and then
    fails: it goes on to [Y]. *)
Lemma router_no_retry_with_output_witness :
  createConditionRouter retry_schema "X"
    {| prompt := ""; nodeOutputs := [("X", "first")]; finalAnswer := "";
       error := Some "boom"; metadata := []; currentNode := Some "X";
       _retryCount := [("X", 1)] |}
  = Normal (RString "Y").
Proof.
  refine (router_no_retry_with_output retry_schema "X"
            {| prompt := ""; nodeOutputs := [("X", "first")]; finalAnswer := "";
               error := Some "boom"; metadata := []; currentNode := Some "X";
               _retryCount := [("X", 1)] |} eq_refl eq_refl _).
  vm_compute. reflexivity.
Defined.

(** X3.  Once an attempt of the node is counted, every string its
    router answers is one of the destinations [buildGraph] declares with
    the router: the targets of the node's edges, [END], and the node
    itself when it has a retry budget. *)
Theorem router_answers_declared `{Host}
        (schema : StateMachineSchema) (nodeId : string)
        (st : OrchestratorStateType) (r : route) :
  1 <= nullish (obj_get nodeId (_retryCount st)) 0 ->
  createConditionRouter schema nodeId st = Normal r ->
  (forall d, In d (answers r) -> In d (declared_destinations schema nodeId))
  /\ forall retry,
      retry = (nullish (match find (fun n => (id n =? nodeId)%string)
                                   (nodes schema) with
                        | Some n => maxRetries n
                        | None => None
                        end) 0 >? 0) ->
      wire_router schema nodeId (outgoing schema nodeId) retry
      = [ConditionalEdges nodeId (createConditionRouter schema nodeId)
                          (declared_destinations schema nodeId)].
Proof.
  intros Hcount Hroute. split; [|intros retry ->; reflexivity].
  intros d Hd. unfold declared_destinations. fold (outgoing schema nodeId).
  apply dedupe_In. rewrite !in_app_iff.
  set (budget := nullish (match find (fun n => (id n =? nodeId)%string)
                                       (nodes schema) with
                          | Some n => maxRetries n
                          | None => None
                          end) 0) in *.
  destruct (truthy_opt (error st) && negb (obj_has nodeId (nodeOutputs st))
            && (nullish (obj_get nodeId (_retryCount st)) 0 <? budget + 1))
    eqn:Hretry.
  - (* the retry rule *)
    unfold createConditionRouter in Hroute. fold budget in Hroute.
    rewrite Hretry in Hroute. injection Hroute as <-.
    destruct Hd as [<-|[]].
    apply andb_true_iff in Hretry. destruct Hretry as [_ Hlt].
    apply Z.ltb_lt in Hlt.
    assert (Hgt : (budget >? 0) = true) by (apply Z.gtb_lt; lia).
    rewrite Hgt. right. right. now left.
  - destruct (truthy_opt (error st)
              && (nullish (obj_get nodeId (_retryCount st)) 0 >=? budget + 1))
      eqn:Hexhausted.
    + (* the exhausted-retry rule *)
      unfold createConditionRouter in Hroute. fold budget in Hroute.
      rewrite Hretry, Hexhausted in Hroute.
      fold (outgoing schema nodeId) in Hroute.
      rewrite first_matching_edge_find in Hroute. injection Hroute as <-.
      destruct (find _ (outgoing schema nodeId)) as [e|] eqn:Hfind.
      * destruct Hd as [<-|[]]. left. apply in_map.
        now apply find_some in Hfind.
      * destruct Hd as [<-|[]]. right. left. now left.
    + (* the success rule *)
      rewrite (router_falls_through schema nodeId st Hretry Hexhausted) in Hroute.
      injection Hroute as <-. rewrite answers_pack in Hd.
      destruct (_ ++ _)%list as [|d0 ds] eqn:Htargets.
      * destruct Hd as [<-|[]]. right. left. now left.
      * left. rewrite <- Htargets in Hd. apply in_app_iff in Hd.
        destruct Hd as [Hd|Hd]; apply in_map_iff in Hd;
          destruct Hd as (e & <- & He); apply filter_In in He;
          apply in_map; tauto.
Qed.

(** [X] of [retry_schema] after its first failed attempt answers
    itself, which is declared because [X] has a retry budget. *)
Lemma router_answers_declared_witness :
  In "X" (declared_destinations retry_schema "X").
Proof.
  refine (proj1 (router_answers_declared retry_schema "X"
                   {| prompt := ""; nodeOutputs := []; finalAnswer := "";
                      error := Some "boom"; metadata := []; currentNode := Some "X";
                      _retryCount := [("X", 1)] |}
                   (RString "X") _ eq_refl) "X" _).
  - vm_compute. discriminate.
  - now left.
Defined.

(** ** The compiled graph *)

Section GraphFacts.
Context `{Host}.

Lemma successors_skip (es : list (graph_edge Router)) nodeId st :
  (forall e, In e es -> edge_source e <> nodeId) ->
  successors es nodeId st = Normal [].
Proof.
  induction es as [|e es IH]; intros Hother; [reflexivity|].
  assert (He := Hother e (or_introl eq_refl)).
  assert (Hrest : successors es nodeId st = Normal [])
    by (apply IH; intros e' He'; apply Hother; now right).
  destruct e as [source target|source router pathMap]; simpl in *;
    destruct (String.eqb_spec source nodeId); try contradiction;
    now rewrite Hrest.
Qed.

Lemma successors_app (a b : list (graph_edge Router)) nodeId st :
  successors (a ++ b) nodeId st
  = (x <~ successors a nodeId st ;;
     y <~ successors b nodeId st ;;
     Normal (x ++ y)%list).
Proof.
  induction a as [|e a IH]; simpl.
  - now destruct (successors b nodeId st).
  - destruct e as [source target|source router pathMap].
    + rewrite IH. destruct (successors a nodeId st) as [x|]; simpl; [|reflexivity].
      destruct (successors b nodeId st) as [y|]; simpl; [|reflexivity].
      destruct (source =? nodeId)%string; [|reflexivity].
      now rewrite app_assoc.
    + destruct (source =? nodeId)%string; [|exact IH].
      destruct (router st) as [r|]; simpl; [|reflexivity].
      rewrite IH. destruct (successors a nodeId st) as [x|]; simpl; [|reflexivity].
      destruct (successors b nodeId st) as [y|]; simpl; [|reflexivity].
      now rewrite app_assoc.
Qed.

Lemma wire_node_source schema n e :
  In e (wire_node schema n) -> edge_source e = n.
Proof.
  unfold wire_node, wire_router.
  destruct (_ || _ || _).
  - intros [<-|[]]. reflexivity.
  - destruct (filter _ (edges schema)) as [|edge [|edge' rest]];
      [intros []|intros [<-|[]]; reflexivity|intros []].
Qed.

Lemma successors_wired schema (l : list string) nodeId st :
  NoDup l ->
  successors (flat_map (wire_node schema) l) nodeId st
  = if mem nodeId l then successors (wire_node schema nodeId) nodeId st
    else Normal [].
Proof.
  induction 1 as [|n l Hfresh Hnodup IH]; [reflexivity|].
  cbn [flat_map]. rewrite successors_app. unfold mem in *. cbn [existsb].
  destruct (String.eqb_spec nodeId n) as [->|Hne]; simpl.
  - rewrite (successors_skip (flat_map (wire_node schema) l)).
    + destruct (successors (wire_node schema n) n st); simpl; [|reflexivity].
      now rewrite app_nil_r.
    + intros e He. apply in_flat_map in He. destruct He as (m & Hm & He).
      rewrite (wire_node_source _ _ _ He). intros ->. contradiction.
  - rewrite (successors_skip (wire_node schema n)).
    + simpl. rewrite IH.
      destruct (existsb (String.eqb nodeId) l); [|reflexivity].
      now destruct (successors (wire_node schema nodeId) nodeId st).
    + intros e He. rewrite (wire_node_source _ _ _ He). congruence.
Qed.

End GraphFacts.

Lemma mem_In (x : string) (xs : list string) : mem x xs = true <-> In x xs.
Proof.
  unfold mem. rewrite existsb_exists. split.
  - intros (y & Hy & Heq). apply String.eqb_eq in Heq. now subst.
  - intros Hx. exists x. split; [exact Hx|apply String.eqb_refl].
Qed.

Lemma mem_dedupe (x : string) (xs : list string) : mem x (dedupe xs) = mem x xs.
Proof.
  destruct (mem x xs) eqn:Hx.
  - apply (proj2 (mem_In _ _)), (proj2 (dedupe_In _ _)), (proj1 (mem_In _ _)).
    exact Hx.
  - destruct (mem x (dedupe xs)) eqn:Hd; [|reflexivity].
    apply (proj1 (mem_In _ _)), (proj1 (dedupe_In _ _)), (proj2 (mem_In _ _)) in Hd.
    congruence.
Qed.

(** *** What the compiled graph activates *)

Section ActivatedFacts.
Context `{Host}.

Lemma activated_skip (es : list (graph_edge Router)) nodeId st :
  (forall e, In e es -> edge_source e <> nodeId) ->
  activated es nodeId st = Normal [].
Proof.
  induction es as [|e es IH]; intros Hother; [reflexivity|].
  assert (He := Hother e (or_introl eq_refl)).
  assert (Hrest : activated es nodeId st = Normal [])
    by (apply IH; intros e' He'; apply Hother; now right).
  destruct e as [source target|source router pathMap]; simpl in *;
    destruct (String.eqb_spec source nodeId); try contradiction;
    now rewrite Hrest.
Qed.

Lemma activated_app (a b : list (graph_edge Router)) nodeId st :
  activated (a ++ b) nodeId st
  = (x <~ activated a nodeId st ;;
     y <~ activated b nodeId st ;;
     Normal (x ++ y)%list).
Proof.
  induction a as [|e a IH]; simpl.
  - now destruct (activated b nodeId st).
  - destruct e as [source target|source router pathMap].
    + rewrite IH. destruct (activated a nodeId st) as [x|]; simpl; [|reflexivity].
      destruct (activated b nodeId st) as [y|]; simpl; [|reflexivity].
      destruct (source =? nodeId)%string; [|reflexivity].
      now rewrite app_assoc.
    + destruct (source =? nodeId)%string; [|exact IH].
      destruct (router st) as [r|]; simpl; [|reflexivity].
      destruct (forallb _ (answers r)); [|reflexivity].
      rewrite IH. destruct (activated a nodeId st) as [x|]; simpl; [|reflexivity].
      destruct (activated b nodeId st) as [y|]; simpl; [|reflexivity].
      now rewrite app_assoc.
Qed.

Lemma activated_wired schema (l : list string) nodeId st :
  NoDup l ->
  activated (flat_map (wire_node schema) l) nodeId st
  = if mem nodeId l then activated (wire_node schema nodeId) nodeId st
    else Normal [].
Proof.
  induction 1 as [|n l Hfresh Hnodup IH]; [reflexivity|].
  cbn [flat_map]. rewrite activated_app. unfold mem in *. cbn [existsb].
  destruct (String.eqb_spec nodeId n) as [->|Hne]; simpl.
  - rewrite (activated_skip (flat_map (wire_node schema) l)).
    + destruct (activated (wire_node schema n) n st); simpl; [|reflexivity].
      now rewrite app_nil_r.
    + intros e He. apply in_flat_map in He. destruct He as (m & Hm & He).
      rewrite (wire_node_source _ _ _ He). intros ->. contradiction.
  - rewrite (activated_skip (wire_node schema n)).
    + simpl. rewrite IH.
      destruct (existsb (String.eqb nodeId) l); [|reflexivity].
      now destruct (activated (wire_node schema nodeId) nodeId st).
    + intros e He. rewrite (wire_node_source _ _ _ He). congruence.
Qed.

(** In the compiled graph a node with an outgoing edge activates what
    its own wiring activates. *)
Lemma activated_built schema agents options nodeId st :
  nodeId <> START ->
  mem nodeId (map from (edges schema)) = true ->
  activated (graph_edges (fst (buildGraph schema agents options))) nodeId st
  = activated (wire_node schema nodeId) nodeId st.
Proof.
  intros Hstart Hout. unfold buildGraph. cbn [fst graph_edges].
  rewrite !activated_app.
  rewrite (activated_skip [Edge START (startNodeId schema)]).
  2:{ intros e [<-|[]]. simpl. congruence. }
  cbn [cbind]. rewrite activated_wired by apply dedupe_NoDup.
  rewrite mem_dedupe, Hout.
  assert (Hend : activated
                   (if negb (existsb (fun e => (from e =? endNodeId schema)%string)
                                     (edges schema))
                       && existsb (fun n => (id n =? endNodeId schema)%string)
                                  (nodes schema)
                    then [Edge (endNodeId schema) END] else [])
                   nodeId st = Normal []).
  { apply activated_skip. intros e He.
    destruct (existsb (fun e0 => (from e0 =? endNodeId schema)%string)
                      (edges schema)) eqn:Hhas; simpl in He; [contradiction|].
    destruct (existsb _ (nodes schema)); [|contradiction].
    destruct He as [<-|[]]. simpl. intros Heq.
    apply mem_In, in_map_iff in Hout. destruct Hout as (e & Hfrom & He).
    assert (Ht : existsb (fun e0 => (from e0 =? endNodeId schema)%string)
                         (edges schema) = true).
    { apply existsb_exists. exists e. split; [exact He|].
      apply String.eqb_eq. congruence. }
    congruence. }
  rewrite Hend.
  destruct (activated (wire_node schema nodeId) nodeId st); simpl;
    [now rewrite app_nil_r|reflexivity].
Qed.

(** Whatever the state, the router answers the node itself, [END] or
    targets of the node's edges. *)
Lemma router_answers_in schema nodeId st r :
  createConditionRouter schema nodeId st = Normal r ->
  forall d, In d (answers r) ->
    In d (map to (outgoing schema nodeId)) \/ d = END \/ d = nodeId.
Proof.
  intros Hroute d Hd.
  set (budget := nullish (match find (fun n => (id n =? nodeId)%string)
                                       (nodes schema) with
                          | Some n => maxRetries n
                          | None => None
                          end) 0) in *.
  destruct (truthy_opt (error st) && negb (obj_has nodeId (nodeOutputs st))
            && (nullish (obj_get nodeId (_retryCount st)) 0 <? budget + 1))
    eqn:Hretry.
  - unfold createConditionRouter in Hroute. fold budget in Hroute.
    rewrite Hretry in Hroute. injection Hroute as <-.
    destruct Hd as [<-|[]]. tauto.
  - destruct (truthy_opt (error st)
              && (nullish (obj_get nodeId (_retryCount st)) 0 >=? budget + 1))
      eqn:Hexhausted.
    + unfold createConditionRouter in Hroute. fold budget in Hroute.
      rewrite Hretry, Hexhausted in Hroute.
      fold (outgoing schema nodeId) in Hroute.
      rewrite first_matching_edge_find in Hroute. injection Hroute as <-.
      destruct (find _ (outgoing schema nodeId)) as [e|] eqn:Hfind.
      * destruct Hd as [<-|[]]. left. apply in_map.
        now apply find_some in Hfind.
      * destruct Hd as [<-|[]]. tauto.
    + rewrite (router_falls_through schema nodeId st Hretry Hexhausted) in Hroute.
      injection Hroute as <-. rewrite answers_pack in Hd.
      destruct (_ ++ _)%list as [|d0 ds] eqn:Htargets.
      * destruct Hd as [<-|[]]. tauto.
      * left. rewrite <- Htargets in Hd. apply in_app_iff in Hd.
        destruct Hd as [Hd|Hd]; apply in_map_iff in Hd;
          destruct Hd as (e & <- & He); apply filter_In in He;
          apply in_map; tauto.
Qed.

(** A node with an outgoing edge and a retry budget is wired with its
    router, and every answer of the router is declared: the compiled
    graph activates what the router answers. *)
Lemma activated_routed schema agents options nodeId st r :
  nodeId <> START ->
  mem nodeId (map from (edges schema)) = true ->
  0 < nullish (match find (fun n => (id n =? nodeId)%string) (nodes schema) with
               | Some n => maxRetries n
               | None => None
               end) 0 ->
  createConditionRouter schema nodeId st = Normal r ->
  activated (graph_edges (fst (buildGraph schema agents options))) nodeId st
  = Normal (destinations r).
Proof.
  intros Hstart Hout Hretry Hroute.
  rewrite (activated_built _ _ _ _ _ Hstart Hout).
  rewrite (wire_node_with_retry _ _ Hretry).
  unfold wire_router. cbn [activated]. rewrite String.eqb_refl, Hroute.
  cbn [cbind].
  assert (Hdeclared :
            forallb (fun d => existsb (String.eqb d)
                                (dedupe (map to (outgoing schema nodeId)
                                           ++ [END] ++ [nodeId])%list))
                    (answers r) = true).
  { apply forallb_forall. intros d Hd.
    apply (proj2 (mem_In _ _)), dedupe_In. rewrite !in_app_iff. simpl.
    destruct (router_answers_in _ _ _ _ Hroute d Hd) as [Ht|[->| ->]]; tauto. }
  rewrite Hdeclared. simpl. now rewrite app_nil_r.
Qed.

End ActivatedFacts.

(** X4.  In the graph [buildGraph] builds, each node is wired once: the
    destinations activated when a node completes are those of the
    wiring of that node alone (its router, or its plain edge) when the
    node has an outgoing edge in the schema, and none otherwise, be it
    the end node with its edge to [END] or a node without edges. *)
Theorem buildGraph_successors `{Host}
        (schema : StateMachineSchema) (agents : list (string * CLIAgent))
        (options : option BuildGraphOptions) (nodeId : string)
        (st : OrchestratorStateType) :
  nodeId <> START ->
  successors (graph_edges (fst (buildGraph schema agents options))) nodeId st
  = if mem nodeId (map from (edges schema))
    then successors (wire_node schema nodeId) nodeId st
    else Normal [].
Proof.
  intros Hstart. unfold buildGraph. cbn [fst graph_edges].
  rewrite !successors_app.
  rewrite (successors_skip [Edge START (startNodeId schema)]).
  2:{ intros e [<-|[]]. simpl. congruence. }
  cbn [cbind]. rewrite successors_wired by apply dedupe_NoDup.
  rewrite mem_dedupe.
  destruct (mem nodeId (map from (edges schema))) eqn:Hout.
  - assert (Hend : successors
                     (if negb (existsb (fun e => (from e =? endNodeId schema)%string)
                                       (edges schema))
                         && existsb (fun n => (id n =? endNodeId schema)%string)
                                    (nodes schema)
                      then [Edge (endNodeId schema) END] else [])
                     nodeId st = Normal []).
    { apply successors_skip. intros e He.
      destruct (existsb (fun e0 => (from e0 =? endNodeId schema)%string)
                        (edges schema)) eqn:Hhas; simpl in He; [contradiction|].
      destruct (existsb _ (nodes schema)); [|contradiction].
      destruct He as [<-|[]]. simpl. intros Heq.
      apply mem_In, in_map_iff in Hout. destruct Hout as (e & Hfrom & He).
      assert (Ht : existsb (fun e0 => (from e0 =? endNodeId schema)%string)
                           (edges schema) = true).
      { apply existsb_exists. exists e. split; [exact He|].
        apply String.eqb_eq. congruence. }
      congruence. }
    rewrite Hend.
    destruct (successors (wire_node schema nodeId) nodeId st); simpl;
      [now rewrite app_nil_r|reflexivity].
  - cbn [cbind app].
    destruct (negb _ && _); [|reflexivity].
    cbn [successors cbind]. destruct (endNodeId schema =? nodeId)%string;
      reflexivity.
Qed.

(** In the graph of [fanout_schema], [A] activates what its router
    answers, and the end node [F] activates nothing. *)
Lemma buildGraph_successors_witness :
  successors (graph_edges (fst (buildGraph fanout_schema [] None))) "A"
             OrchestratorStateAnnotation.default
  = Normal ["B"; "C"; "D"; "E"]
  /\ successors (graph_edges (fst (buildGraph fanout_schema [] None))) "F"
                OrchestratorStateAnnotation.default
     = Normal [].
Proof.
  split.
  - rewrite (buildGraph_successors (H := demo_host) fanout_schema [] None "A");
      [reflexivity|discriminate].
  - rewrite (buildGraph_successors (H := demo_host) fanout_schema [] None "F");
      [reflexivity|discriminate].
Defined.

(** ** What an execution leaves alone *)

(** The shape of every update a node executor returns. *)
Lemma executor_update_shape `{Host} node agents st w u w' :
  createNodeExecutor node agents st w = (Normal u, w') ->
  upd_prompt u = None
  /\ upd_finalAnswer u = None
  /\ upd_currentNode u = Some (Some (id node))
  /\ (exists e, upd_error u = Some e)
  /\ (upd_nodeOutputs u = None
      \/ exists output, upd_nodeOutputs u = Some (singleton (id node) output))
  /\ (upd_retryCount u = None
      \/ upd_retryCount u
         = Some (singleton (id node)
                           (nullish (obj_get (id node) (_retryCount st)) 0 + 1))).
Proof.
  intros Hrun.
  destruct (map_get (id node) agents) as [agent|] eqn:Hagent.
  - destruct (date_now w) as [t0 w1] eqn:Hnow.
    destruct (execute agent (full_prompt node st) w1) as [[output|e] w2] eqn:Hexec;
      destruct (date_now w2) as [t1 w3] eqn:Hend.
    + destruct (executor_on_success node agents _ _ _ _ _ _ _ _ _
                                    Hagent Hnow Hexec Hend) as (mu & Heq & _).
      rewrite Heq in Hrun. injection Hrun as <- <-. simpl. eauto 10.
    + destruct (executor_on_failure node agents _ _ _ _ _ _ _ _ _
                                    Hagent Hnow Hexec Hend) as (mu & Heq & _).
      rewrite Heq in Hrun. injection Hrun as <- <-. simpl. eauto 10.
  - rewrite (executor_without_agent node agents st w Hagent) in Hrun.
    injection Hrun as <- <-. simpl. eauto 10.
Qed.

(** X5.  Whatever the delegate and the hooks do, applying the update of
    a node's executor leaves [prompt] and [finalAnswer] as they were,
    and the outputs and attempt counters of every other node as they
    were; [currentNode] becomes the node. *)
Theorem executor_frame `{Host}
        (node : StateNodeDefinition) (agents : list (string * CLIAgent))
        (st : OrchestratorStateType) (w w' : World) (u : Partial) :
  createNodeExecutor node agents st w = (Normal u, w') ->
  prompt (apply_update st u) = prompt st
  /\ finalAnswer (apply_update st u) = finalAnswer st
  /\ currentNode (apply_update st u) = Some (id node)
  /\ forall k, k <> id node ->
       obj_get k (nodeOutputs (apply_update st u)) = obj_get k (nodeOutputs st)
       /\ obj_get k (_retryCount (apply_update st u)) = obj_get k (_retryCount st).
Proof.
  intros Hrun.
  destruct (executor_update_shape _ _ _ _ _ _ Hrun)
    as (Hp & Hf & Hc & _ & Ho & Hr).
  unfold apply_update. simpl. rewrite Hp, Hf, Hc.
  split; [reflexivity|]. split; [reflexivity|]. split; [reflexivity|].
  intros k Hk. split.
  - destruct Ho as [->|[output ->]]; [reflexivity|].
    merge_singleton. now apply obj_get_set_other.
  - destruct Hr as [->| ->]; [reflexivity|].
    merge_singleton. now apply obj_get_set_other.
Qed.

(** [X] runs in a state that holds the output and the count of [W]. *)
Lemma executor_frame_witness :
  exists u w',
    createNodeExecutor (demo_node "X" (Some 1) None) [("X", failing_agent)]
      {| prompt := "q"; nodeOutputs := [("W", "out")]; finalAnswer := "";
         error := None; metadata := []; currentNode := Some "W";
         _retryCount := [("W", 1)] |} 0 = (Normal u, w')
    /\ obj_get "W" (nodeOutputs
                      (apply_update
                         {| prompt := "q"; nodeOutputs := [("W", "out")];
                            finalAnswer := ""; error := None; metadata := [];
                            currentNode := Some "W"; _retryCount := [("W", 1)] |} u))
       = Some "out".
Proof.
  destruct (createNodeExecutor_total (demo_node "X" (Some 1) None)
              [("X", failing_agent)]
              {| prompt := "q"; nodeOutputs := [("W", "out")]; finalAnswer := "";
                 error := None; metadata := []; currentNode := Some "W";
                 _retryCount := [("W", 1)] |} 0) as (u & w' & Hrun).
  exists u, w'. split; [exact Hrun|].
  destruct (executor_frame _ _ _ _ _ _ Hrun) as (_ & _ & _ & Hother).
  rewrite (proj1 (Hother "W" ltac:(discriminate))). reflexivity.
Defined.

(** X6.  Applying the same update twice gives the same state as
    applying it once: the same [prompt], [finalAnswer], [error] and
    [currentNode], and the same mappings for [nodeOutputs], [metadata]
    and [_retryCount]. *)
Theorem apply_update_idempotent (s : OrchestratorStateType) (u : Partial) :
  let once := apply_update s u in
  let twice := apply_update (apply_update s u) u in
  prompt twice = prompt once
  /\ finalAnswer twice = finalAnswer once
  /\ error twice = error once
  /\ currentNode twice = currentNode once
  /\ same_mapping (nodeOutputs twice) (nodeOutputs once)
  /\ same_mapping (metadata twice) (metadata once)
  /\ same_mapping (_retryCount twice) (_retryCount once).
Proof.
  simpl. repeat split.
  - now destruct (upd_prompt u).
  - now destruct (upd_finalAnswer u).
  - now destruct (upd_error u).
  - now destruct (upd_currentNode u).
  - intros k. destruct (upd_nodeOutputs u) as [b|]; [|reflexivity].
    unfold OrchestratorStateAnnotation.nodeOutputs_reducer,
      OrchestratorStateAnnotation.merge.
    rewrite !obj_get_spread. now destruct (last_write k b).
  - intros k. destruct (upd_metadata u) as [b|]; [|reflexivity].
    unfold OrchestratorStateAnnotation.metadata_reducer,
      OrchestratorStateAnnotation.merge.
    rewrite !obj_get_spread. now destruct (last_write k (props_of b)).
  - intros k. destruct (upd_retryCount u) as [b|]; [|reflexivity].
    unfold OrchestratorStateAnnotation.retryCount_reducer,
      OrchestratorStateAnnotation.merge.
    rewrite !obj_get_spread. now destruct (last_write k b).
Qed.

(** ** The graph executor's boundary *)

(** X7.  [executeGraph] never throws.  When the graph's [invoke] throws,
    the result has the answer ["Execution failed: " + message], no
    outputs, the initial metadata and the message as error. *)
Theorem executeGraph_never_throws `{Host}
        (graph : OrchestratorStateType -> M OrchestratorStateType)
        (initialState : InitialState) (w : World) :
  exists res w',
    executeGraph graph initialState w = (Normal res, w')
    /\ forall e w1,
        graph (initial_state initialState) w = (Throw e, w1) ->
        w' = w1
        /\ res = {| result_finalAnswer := "Execution failed: " ++ message_of e;
                    result_nodeOutputs := [];
                    result_metadata := nullish (initial_metadata initialState) [];
                    result_error := Some (message_of e) |}.
Proof.
  unfold executeGraph, try_catch, bind, ret.
  destruct (graph (initial_state initialState) w) as [[result|e] w1].
  - eexists _, _. split; [reflexivity|]. discriminate.
  - eexists _, _. split; [reflexivity|].
    intros e' w1' Heq. injection Heq as <- <-. now split.
Qed.

(** A graph whose [invoke] throws a value that is not an [Error]. *)
Lemma executeGraph_never_throws_witness :
  exists res,
    executeGraph (H := demo_host) (fun _ => throw (Thrown "recursion limit"))
                 {| initial_prompt := "q"; initial_metadata := Some [("n", VNum 1)] |} 0
    = (Normal res, 0)
    /\ result_finalAnswer res = "Execution failed: recursion limit"
    /\ result_metadata res = [("n", VNum 1)].
Proof.
  destruct (executeGraph_never_throws (H := demo_host)
              (fun _ => throw (Thrown "recursion limit"))
              {| initial_prompt := "q"; initial_metadata := Some [("n", VNum 1)] |} 0)
    as (res & w' & Hrun & Hfail).
  destruct (Hfail (Thrown "recursion limit") 0 eq_refl) as [-> ->].
  eexists. split; [exact Hrun|]. split; reflexivity.
Defined.

(** X8.  When a node's delegate fails on the node's last attempt, the
    state after the attempt yields the final answer
    ["Error during execution: Node <id> failed after <n> attempts: "]
    followed by the delegate's message, whatever the outputs so far. *)
Theorem final_answer_after_exhausted_failure `{Host}
        (node : StateNodeDefinition) (agents : list (string * CLIAgent))
        (agent : CLIAgent) (st : OrchestratorStateType) (w w' : World)
        (u : Partial) (e : exn) :
  map_get (id node) agents = Some agent ->
  fst (execute agent (full_prompt node st) (snd (date_now w))) = Throw e ->
  nullish (maxRetries node) 0 + 1
  <= nullish (obj_get (id node) (_retryCount st)) 0 + 1 ->
  createNodeExecutor node agents st w = (Normal u, w') ->
  final_answer_of (apply_update st u)
  = "Error during execution: Node " ++ id node ++ " failed after "
      ++ string_of_Z (nullish (obj_get (id node) (_retryCount st)) 0 + 1)
      ++ " attempts: " ++ message_of e.
Proof.
  intros Hagent Hexec Hlast Hrun.
  destruct (date_now w) as [t0 w1] eqn:Hnow. simpl in Hexec.
  destruct (execute agent (full_prompt node st) w1) as [c w2] eqn:Hcall.
  simpl in Hexec. subst c.
  destruct (date_now w2) as [t1 w3] eqn:Hend.
  destruct (executor_on_failure node agents _ _ _ _ _ _ _ _ _
                                Hagent Hnow Hcall Hend) as (mu & Heq & _).
  rewrite Heq in Hrun. injection Hrun as <- <-.
  rewrite (proj2 (Z.ltb_ge _ _) Hlast).
  unfold final_answer_of, apply_update. simpl. reflexivity.
Qed.

(** [A] of [linear_schema], whose single attempt fails. *)
Lemma final_answer_after_exhausted_failure_witness :
  final_answer_of state_after_failed_A
  = "Error during execution: Node A failed after 1 attempts: boom".
Proof.
  destruct (createNodeExecutor_total (demo_node "A" None None)
              [("A", failing_agent)] OrchestratorStateAnnotation.default 0)
    as (u & w' & Hrun).
  pose proof (final_answer_after_exhausted_failure
                (demo_node "A" None None) [("A", failing_agent)] failing_agent
                OrchestratorStateAnnotation.default 0 w' u (ErrorObject "boom")
                eq_refl eq_refl ltac:(vm_compute; discriminate) Hrun) as Hfinal.
  unfold state_after_failed_A. rewrite Hrun. exact Hfinal.
Defined.

(** ** Runs of a node *)

Lemma destinations_pack_In (l : list string) (d : string) :
  In d (destinations (pack l)) -> In d l.
Proof.
  destruct l as [|d0 [|d1 l]]; simpl.
  - intros [].
  - destruct (d0 =? END)%string; simpl; tauto.
  - intros Hd.
    assert (Hin : In d (filter (fun s => negb (s =? END)%string) (d0 :: d1 :: l))).
    { exact Hd. }
    apply filter_In in Hin. tauto.
Qed.

Section RunFacts.
Context `{Host}.
Variables (schema : StateMachineSchema) (node : StateNodeDefinition)
          (agents : list (string * CLIAgent)).
Hypothesis Hfind :
  find (fun n => (id n =? id node)%string) (nodes schema) = Some node.
Hypothesis Hnot_end : id node <> END.
Hypothesis Hnot_start : id node <> START.
Hypothesis Hwired : mem (id node) (map from (edges schema)) = true.
Hypothesis Hretry : 0 < nullish (maxRetries node) 0.

(** The node has an outgoing edge and a retry budget: the compiled
    graph activates what its router answers. *)
Lemma activated_here st r :
  createConditionRouter schema (id node) st = Normal r ->
  activated (graph_edges (fst (buildGraph schema agents None))) (id node) st
  = Normal (destinations r).
Proof.
  intros Hroute. apply activated_routed; try assumption. now rewrite Hfind.
Qed.

(** One step of the run when the router answers the node itself. *)
Lemma run_node_again fuel st w u w1 :
  createNodeExecutor node agents st w = (Normal u, w1) ->
  createConditionRouter schema (id node) (apply_update st u)
  = Normal (RString (id node)) ->
  run_node (S fuel) schema node agents st w
  = match run_node fuel schema node agents (apply_update st u) w1 with
    | (Normal (Some trace), w2) =>
        (Normal (Some ((apply_update st u, [id node]) :: trace)), w2)
    | (Normal None, w2) => (Normal None, w2)
    | (Throw e, w2) => (Throw e, w2)
    end.
Proof.
  intros Hrun Hroute. cbn [run_node]. unfold bind at 1. rewrite Hrun.
  unfold bind at 1, lift. rewrite (activated_here _ _ Hroute).
  rewrite (destinations_self node Hnot_end), String.eqb_refl.
  unfold bind, ret.
  destruct (run_node fuel schema node agents (apply_update st u) w1)
    as [[[trace|]|e] w2]; reflexivity.
Qed.

(** One step of the run when the router answers something else. *)
Lemma run_node_leaves fuel st w u w1 r :
  createNodeExecutor node agents st w = (Normal u, w1) ->
  createConditionRouter schema (id node) (apply_update st u) = Normal r ->
  (forall d, In d (destinations r) -> d <> id node) ->
  run_node (S fuel) schema node agents st w
  = (Normal (Some [(apply_update st u, destinations r)]), w1).
Proof.
  intros Hrun Hroute Hother. cbn [run_node]. unfold bind at 1. rewrite Hrun.
  unfold bind at 1, lift. rewrite (activated_here _ _ Hroute).
  destruct (destinations r) as [|d [|d' ds]]; try reflexivity.
  destruct (String.eqb_spec d (id node)) as [Heq|_]; [|reflexivity].
  exfalso. apply (Hother d); [now left|exact Heq].
Qed.

(** A node without delegate, no attempt counted and no output: the run
    never leaves the node. *)
Lemma run_node_stuck fuel :
  map_get (id node) agents = None ->
  forall st w,
    obj_get (id node) (_retryCount st) = None ->
    obj_has (id node) (nodeOutputs st) = false ->
    run_node fuel schema node agents st w = (Normal None, w).
Proof.
  intros Hagent.
  induction fuel as [|fuel IH]; intros st w Hcount Hout; [reflexivity|].
  pose proof (executor_without_agent node agents st w Hagent) as Hrun.
  match type of Hrun with _ = (Normal ?upd, _) => set (u := upd) in * end.
  assert (Hroute : createConditionRouter schema (id node) (apply_update st u)
                   = Normal (RString (id node))).
  { eapply (router_retries schema node _ Hfind eq_refl).
    - reflexivity.
    - discriminate.
    - exact Hout.
    - simpl. rewrite Hcount. simpl. lia. }
  rewrite (run_node_again _ _ _ _ _ Hrun Hroute).
  rewrite IH; [reflexivity|exact Hcount|exact Hout].
Qed.

Variable agent : CLIAgent.
Hypothesis Hagent : map_get (id node) agents = Some agent.

(** The worlds in which the delegate still has [n] failures in store. *)
Variable P : nat -> World -> Prop.
Hypothesis Hclock : forall n w, P n w -> P n (snd (date_now w)).
Hypothesis Hfailing :
  forall n p w, P (S n) w ->
    exists e w', execute agent p w = (Throw e, w')
                 /\ message_of e <> "" /\ P n w'.
Hypothesis Hanswering :
  forall p w, P O w -> exists output w', execute agent p w = (Normal output, w').
Hypothesis Hno_self_edge :
  forall e, In e (outgoing schema (id node)) -> to e <> id node.

Let so_far (s : OrchestratorStateType) : Z :=
  nullish (obj_get (id node) (_retryCount s)) 0.

Lemma retry_then_success_loop (j : nat) :
  forall st w fuel,
    P j w ->
    0 <= so_far st ->
    so_far st + Z.of_nat j <= nullish (maxRetries node) 0 ->
    obj_has (id node) (nodeOutputs st) = false ->
    (j < fuel)%nat ->
    exists trace w' s_last next output,
      run_node fuel schema node agents st w = (Normal (Some trace), w')
      /\ length trace = S j
      /\ Forall (fun sr => snd sr = [id node]) (firstn j trace)
      /\ nth_error trace j = Some (s_last, next)
      /\ obj_get (id node) (nodeOutputs s_last) = Some output
      /\ error s_last = None
      /\ obj_get (id node) (_retryCount s_last)
         = Some (so_far st + Z.of_nat j + 1)
      /\ (forall d, In d next ->
            exists e, In e (outgoing schema (id node)) /\ to e = d).
Proof.
  induction j as [|j IH]; intros st w fuel HP Hpos Hbudget Hout Hfuel;
    (destruct fuel as [|fuel]; [lia|]);
    pose proof (Hclock _ _ HP) as HP1;
    destruct (date_now w) as [t0 w1] eqn:Hnow; simpl in HP1.
  - (* the attempt that succeeds *)
    destruct (Hanswering (full_prompt node st) w1 HP1) as (output & w2 & Hexec).
    destruct (date_now w2) as [t1 w3] eqn:Hend.
    destruct (executor_on_success node agents _ _ _ _ _ _ _ _ _
                                  Hagent Hnow Hexec Hend) as (mu & Hrun & _).
    match type of Hrun with _ = (Normal ?upd, _) => set (u := upd) in * end.
    assert (Herr : truthy_opt (error (apply_update st u)) = false) by reflexivity.
    pose proof (router_without_error schema (id node) _ Herr) as Hroute.
    match type of Hroute with _ = Normal ?ans => set (r := ans) in * end.
    assert (Htargets : forall d, In d (destinations r) ->
                         exists e, In e (outgoing schema (id node)) /\ to e = d).
    { intros d Hd. apply destinations_pack_In, in_app_iff in Hd.
      destruct Hd as [Hd|Hd]; apply in_map_iff in Hd;
        destruct Hd as (e & <- & He); apply filter_In in He; exists e; tauto. }
    exists [(apply_update st u, destinations r)], w3, (apply_update st u),
           (destinations r), output.
    split.
    { apply run_node_leaves; [exact Hrun|exact Hroute|].
      intros d Hd. destruct (Htargets d Hd) as (e & He & <-).
      now apply Hno_self_edge. }
    split; [reflexivity|]. split; [constructor|]. split; [reflexivity|].
    split; [simpl; merge_singleton; apply obj_get_set_same|].
    split; [reflexivity|]. split; [|exact Htargets].
    simpl. merge_singleton. rewrite obj_get_set_same.
    unfold so_far. f_equal. lia.
  - (* an attempt that fails and leaves attempts *)
    destruct (Hfailing j (full_prompt node st) w1 HP1) as (e & w2 & Hexec & Hmsg & HP2).
    destruct (date_now w2) as [t1 w3] eqn:Hend.
    pose proof (Hclock _ _ HP2) as HP3. rewrite Hend in HP3. simpl in HP3.
    destruct (executor_on_failure node agents _ _ _ _ _ _ _ _ _
                                  Hagent Hnow Hexec Hend) as (mu & Hrun & _).
    match type of Hrun with _ = (Normal ?upd, _) => set (u := upd) in * end.
    set (st' := apply_update st u).
    assert (Hcount : obj_get (id node) (_retryCount st') = Some (so_far st + 1)).
    { unfold st'. simpl. merge_singleton. apply obj_get_set_same. }
    assert (Hso : so_far st' = so_far st + 1)
      by (unfold so_far at 1; now rewrite Hcount).
    assert (Hmore : (so_far st + 1 <? nullish (maxRetries node) 0 + 1) = true)
      by (apply Z.ltb_lt; lia).
    assert (Herr : error st' = Some (message_of e)).
    { unfold st', u. simpl. fold (so_far st). now rewrite Hmore. }
    assert (Hroute : createConditionRouter schema (id node) st'
                     = Normal (RString (id node))).
    { eapply (router_retries schema node _ Hfind eq_refl);
        [exact Herr|exact Hmsg|exact Hout|].
      fold (so_far st'). lia. }
    destruct (IH st' w3 fuel HP3) as
      (trace & w' & s_last & next & output & Hrest & Hlen & Hself & Hlast & Hres);
      [lia|lia|exact Hout|lia|].
    exists ((st', [id node]) :: trace), w', s_last, next, output.
    split.
    { rewrite (run_node_again _ _ _ _ _ Hrun Hroute). fold st'.
      now rewrite Hrest. }
    split; [simpl; now rewrite Hlen|].
    split; [simpl; constructor; [reflexivity|exact Hself]|].
    split; [exact Hlast|].
    destruct Hres as (Hgot & Hnone & Hn & Htargets).
    repeat split; try assumption.
    rewrite Hn, Hso. f_equal. lia.
Qed.

End RunFacts.

(** X9.  A node with an outgoing edge and a retry budget that has no
    entry in the agent map is never left: its executions count no
    attempt, so the retry rule of its router answers the node itself
    after every one of them, the compiled graph activates the node
    again, and the run of the node uses up every step limit. *)
Theorem run_without_agent_never_ends `{Host}
        (schema : StateMachineSchema) (node : StateNodeDefinition)
        (agents : list (string * CLIAgent)) (st : OrchestratorStateType)
        (fuel : nat) (w : World) :
  find (fun n => (id n =? id node)%string) (nodes schema) = Some node ->
  id node <> END ->
  id node <> START ->
  mem (id node) (map from (edges schema)) = true ->
  0 < nullish (maxRetries node) 0 ->
  map_get (id node) agents = None ->
  obj_get (id node) (_retryCount st) = None ->
  obj_has (id node) (nodeOutputs st) = false ->
  run_node fuel schema node agents st w = (Normal None, w).
Proof.
  intros Hfind Hnot_end Hnot_start Hwired Hretry Hagent Hcount Hout.
  now apply run_node_stuck.
Qed.

(** [X] of [retry_schema], which has the edge to [Y] and
    [maxRetries = 1], with a map that only knows [Y]. *)
Lemma run_without_agent_never_ends_witness :
  run_node 50 retry_schema (demo_node "X" (Some 1) None) [("Y", failing_agent)]
           OrchestratorStateAnnotation.default 0
  = (Normal None, 0).
Proof.
  apply (run_without_agent_never_ends retry_schema (demo_node "X" (Some 1) None)
           [("Y", failing_agent)] OrchestratorStateAnnotation.default 50 0);
    try reflexivity; try discriminate.
Defined.



(** ** The retry bound on the compiled graph *)

Section RoutedRetry.
Context `{Host}.
Variables (schema : StateMachineSchema) (node : StateNodeDefinition)
          (agents : list (string * CLIAgent)) (agent : CLIAgent) (k : Z).
Hypothesis Hfind :
  find (fun n => (id n =? id node)%string) (nodes schema) = Some node.
Hypothesis Hbudget : nullish (maxRetries node) 0 = k.
Hypothesis Hnot_end : id node <> END.
Hypothesis Hnot_start : id node <> START.
Hypothesis Hwired : mem (id node) (map from (edges schema)) = true.
Hypothesis Hretry : 0 < k.
Hypothesis Hagent : map_get (id node) agents = Some agent.
Hypothesis Hfails : always_fails agent.
Hypothesis Hmessages : never_silent agent.
Hypothesis Hno_fallback :
  forall s e, In e (outgoing schema (id node)) ->
              truthy_opt (error s) = true ->
              condition_holds (context_of s) e = false.

Let so_far (s : OrchestratorStateType) : Z :=
  nullish (obj_get (id node) (_retryCount s)) 0.

(** The loop, from a state where [k - n] attempts are counted: [n + 1]
    more attempts are made and the last one gives up. *)
Lemma retry_loop (n : nat) :
  forall s w fuel,
    so_far s = k - Z.of_nat n -> 0 <= so_far s ->
    obj_has (id node) (nodeOutputs s) = false ->
    (n < fuel)%nat ->
    exists trace w',
      run_node fuel schema node agents s w = (Normal (Some trace), w')
      /\ length trace = S n
      /\ attempts_from (id node) k (so_far s + 1) trace
      /\ exists s_last msg,
          nth_error trace n = Some (s_last, [])
          /\ obj_get (id node) (_retryCount s_last) = Some (k + 1)
          /\ error s_last = Some (exhausted_message (id node) (k + 1) msg).
Proof.
  assert (Hretry' : 0 < nullish (maxRetries node) 0) by (rewrite Hbudget; exact Hretry).
  induction n as [|n IH]; intros s w fuel Hso Hpos Hout Hfuel;
    (destruct fuel as [|fuel]; [lia|]);
    destruct (failed_attempt node agents agent k Hbudget Hagent Hfails Hmessages s w)
      as (u & w1 & msg & Hrun & Hmsg & Hcount & Hsame & Herr);
    set (s' := apply_update s u) in *;
    assert (Hso' : so_far s' = so_far s + 1)
      by (unfold so_far at 1; now rewrite Hcount);
    assert (Hout' : obj_has (id node) (nodeOutputs s') = false)
      by (now rewrite Hsame).
  - (* the last attempt *)
    assert (Hlast : (so_far s + 1 <? k + 1) = false) by (apply Z.ltb_ge; lia).
    fold (so_far s) in Herr. rewrite Hlast in Herr.
    assert (Hroute : createConditionRouter schema (id node) s'
                     = Normal (RString END)).
    { eapply (router_gives_up schema node k Hfind Hbudget Hno_fallback);
        [exact Herr|reflexivity|]. fold (so_far s'). lia. }
    exists [(s', [])], w1. split.
    { apply (run_node_leaves schema node agents Hfind Hnot_start Hwired Hretry'
                             fuel s w u w1 (RString END) Hrun Hroute).
      intros d []. }
    split; [reflexivity|]. split.
    + simpl. split; [|exact I]. unfold attempt_recorded. simpl.
      fold (so_far s). rewrite Hlast. fold s'.
      repeat split; try assumption. now exists msg.
    + exists s', msg. split; [reflexivity|].
      replace (k + 1) with (so_far s + 1) by lia. now split.
  - (* an attempt that leaves attempts *)
    assert (Hmore : (so_far s + 1 <? k + 1) = true) by (apply Z.ltb_lt; lia).
    fold (so_far s) in Herr. rewrite Hmore in Herr.
    assert (Hroute : createConditionRouter schema (id node) s'
                     = Normal (RString (id node))).
    { eapply (router_retries schema node k Hfind Hbudget);
        [exact Herr|exact Hmsg|exact Hout'|]. fold (so_far s'). lia. }
    destruct (IH s' w1 fuel) as (trace & w2 & Hrest & Hlen & Htrace & Hfinal);
      [lia|lia|exact Hout'|lia|].
    exists ((s', [id node]) :: trace), w2. split.
    { rewrite (run_node_again schema node agents Hfind Hnot_end Hnot_start Hwired
                              Hretry' fuel s w u w1 Hrun Hroute).
      fold s'. now rewrite Hrest. }
    split; [simpl; now rewrite Hlen|]. split.
    + simpl. split.
      * unfold attempt_recorded. simpl. fold (so_far s). rewrite Hmore. fold s'.
        repeat split; try assumption. now exists msg.
      * now rewrite <- Hso'.
    + exact Hfinal.
Qed.

End RoutedRetry.



(** ** The delegates' own retry *)

Lemma base_agent_execute_eq `{Host}
      (executeInternal : string -> option ExecuteOptions -> M string)
      (prompt : string) (options : option ExecuteOptions) (w : World) :
  BaseCLIAgent_execute executeInternal prompt options w
  = match executeInternal prompt options w with
    | (Normal output, w1) => (Normal output, w1)
    | (Throw _, w1) =>
        match executeInternal prompt options w1 with
        | (Normal output, w2) => (Normal output, w2)
        | (Throw e2, w2) => (Throw (ErrorObject (message_of e2)), w2)
        end
    end.
Proof.
  unfold BaseCLIAgent_execute, BaseCLIAgent_maxRetries.
  cbn [execute_attempts]. unfold try_catch, throw.
  destruct (executeInternal prompt options w) as [[output|e1] w1]; [reflexivity|].
  destruct (executeInternal prompt options w1) as [[output|e2] w2]; [reflexivity|].
  now destruct e2.
Qed.

(** X11.  [BaseCLIAgent.execute] calls [executeInternal] once and
    returns its result when it resolves; otherwise it calls it a second
    time, in the world the first call left, and returns that result when
    it resolves; when both calls reject it throws an [Error] whose
    message is that of the second rejection.  It makes no third call
    and never throws its ["Unknown execution error"] fallback. *)
Theorem base_agent_execute `{Host}
        (executeInternal : string -> option ExecuteOptions -> M string)
        (prompt : string) (options : option ExecuteOptions) (w : World) :
  BaseCLIAgent_execute executeInternal prompt options w
  = match executeInternal prompt options w with
    | (Normal output, w1) => (Normal output, w1)
    | (Throw _, w1) =>
        match executeInternal prompt options w1 with
        | (Normal output, w2) => (Normal output, w2)
        | (Throw e2, w2) => (Throw (ErrorObject (message_of e2)), w2)
        end
    end.
Proof. apply base_agent_execute_eq. Qed.

(** With one failure in store the second call answers; with three in
    store the delegate gives up after two calls. *)
Lemma base_agent_execute_witness :
  BaseCLIAgent_execute (H := counting_host) flaky_internal "p" None
                       (0, 1%nat, 0%nat)
  = (Normal "done", (0, 0%nat, 2%nat))
  /\ BaseCLIAgent_execute (H := counting_host) flaky_internal "p" None
                          (0, 3%nat, 0%nat)
     = (Throw (ErrorObject "boom"), (0, 1%nat, 2%nat)).
Proof.
  split.
  - rewrite (base_agent_execute (H := counting_host)). reflexivity.
  - rewrite (base_agent_execute (H := counting_host)). reflexivity.
Defined.

Section CountedRetry.
Context `{Host}.
Variables (schema : StateMachineSchema) (node : StateNodeDefinition)
          (agents : list (string * CLIAgent)) (agent : CLIAgent) (k : Z).
Hypothesis Hfind :
  find (fun n => (id n =? id node)%string) (nodes schema) = Some node.
Hypothesis Hbudget : nullish (maxRetries node) 0 = k.
Hypothesis Hnot_end : id node <> END.
Hypothesis Hnot_start : id node <> START.
Hypothesis Hwired : mem (id node) (map from (edges schema)) = true.
Hypothesis Hretry : 0 < nullish (maxRetries node) 0.
Hypothesis Hagent : map_get (id node) agents = Some agent.
Hypothesis Hno_fallback :
  forall s e, In e (outgoing schema (id node)) ->
              truthy_opt (error s) = true ->
              condition_holds (context_of s) e = false.

(** A measure of the world that the clock leaves alone and that every
    call of the delegate, which fails, raises by [c]. *)
Variables (calls : World -> nat) (c : nat).
Hypothesis Hclock : forall w, calls (snd (date_now w)) = calls w.
Hypothesis Hcall :
  forall p w, exists e w',
    execute agent p w = (Throw e, w')
    /\ message_of e <> "" /\ calls w' = (calls w + c)%nat.

Let so_far (s : OrchestratorStateType) : Z :=
  nullish (obj_get (id node) (_retryCount s)) 0.

Lemma counted_retry_loop (n : nat) :
  forall s w fuel,
    so_far s = k - Z.of_nat n -> 0 <= so_far s ->
    obj_has (id node) (nodeOutputs s) = false ->
    (n < fuel)%nat ->
    exists trace w',
      run_node fuel schema node agents s w = (Normal (Some trace), w')
      /\ length trace = S n
      /\ calls w' = (calls w + c * S n)%nat.
Proof.
  induction n as [|n IH]; intros s w fuel Hso Hpos Hout Hfuel;
    (destruct fuel as [|fuel]; [lia|]);
    pose proof (Hclock w) as Hc1;
    destruct (date_now w) as [t0 w1] eqn:Hnow; simpl in Hc1;
    destruct (Hcall (full_prompt node s) w1) as (e & w2 & Hexec & Hmsg & Hc2);
    pose proof (Hclock w2) as Hc3;
    destruct (date_now w2) as [t1 w3] eqn:Hend; simpl in Hc3;
    destruct (executor_on_failure node agents _ _ _ _ _ _ _ _ _
                                  Hagent Hnow Hexec Hend) as (mu & Hrun & _);
    match type of Hrun with _ = (Normal ?upd, _) => set (u := upd) in * end;
    set (s' := apply_update s u);
    assert (Hcount : obj_get (id node) (_retryCount s') = Some (so_far s + 1))
      by (unfold s'; simpl; merge_singleton; apply obj_get_set_same);
    assert (Hso' : so_far s' = so_far s + 1)
      by (unfold so_far at 1; now rewrite Hcount).
  - assert (Hlast : (so_far s + 1 <? nullish (maxRetries node) 0 + 1) = false)
      by (apply Z.ltb_ge; lia).
    assert (Herr : error s' = Some (exhausted_message (id node) (so_far s + 1)
                                                      (message_of e))).
    { unfold s', u. simpl. fold (so_far s). now rewrite Hlast. }
    assert (Hroute : createConditionRouter schema (id node) s'
                     = Normal (RString END)).
    { eapply (router_gives_up schema node k Hfind Hbudget Hno_fallback);
        [exact Herr|reflexivity|]. fold (so_far s'). lia. }
    exists [(s', [])], w3. split.
    { apply (run_node_leaves schema node agents Hfind Hnot_start Hwired Hretry
                             fuel s w u w3 (RString END) Hrun Hroute).
      intros d []. }
    split; [reflexivity|]. lia.
  - assert (Hmore : (so_far s + 1 <? nullish (maxRetries node) 0 + 1) = true)
      by (apply Z.ltb_lt; lia).
    assert (Herr : error s' = Some (message_of e)).
    { unfold s', u. simpl. fold (so_far s). now rewrite Hmore. }
    assert (Hroute : createConditionRouter schema (id node) s'
                     = Normal (RString (id node))).
    { eapply (router_retries schema node k Hfind Hbudget);
        [exact Herr|exact Hmsg|exact Hout|]. fold (so_far s'). lia. }
    destruct (IH s' w3 fuel) as (trace & w' & Hrest & Hlen & Hcalls);
      [lia|lia|exact Hout|lia|].
    exists ((s', [id node]) :: trace), w'. split.
    { rewrite (run_node_again schema node agents Hfind Hnot_end Hnot_start Hwired
                              Hretry fuel s w u w3 Hrun Hroute).
      fold s'. now rewrite Hrest. }
    split; [simpl; now rewrite Hlen|]. lia.
Qed.

End CountedRetry.



(** ** The agent pool *)

Section PoolFacts.
Context `{Host}.
Variables ClaudeAgent CodexAgent GeminiAgent : string -> CLIAgent.

Lemma createAgent_known type nodeId :
  known_agent_type type = true ->
  exists agent, createAgent ClaudeAgent CodexAgent GeminiAgent type nodeId
                = Normal agent.
Proof.
  unfold known_agent_type, createAgent.
  destruct (type =? "claude")%string; [eauto|].
  destruct (type =? "codex")%string; [eauto|].
  destruct (type =? "gemini")%string; [eauto|discriminate].
Qed.

Lemma createAgent_unknown type nodeId :
  known_agent_type type = false ->
  createAgent ClaudeAgent CodexAgent GeminiAgent type nodeId
  = Throw (ErrorObject ("Unknown agent type: " ++ type)).
Proof.
  unfold known_agent_type, createAgent.
  destruct (type =? "claude")%string; [discriminate|].
  destruct (type =? "codex")%string; [discriminate|].
  destruct (type =? "gemini")%string; [discriminate|reflexivity].
Qed.

Lemma map_get_set_same {V : Type} (k : string) (v : V) (m : list (string * V)) :
  map_get k (map_set k v m) = Some v.
Proof.
  unfold map_get, map_set. destruct (obj_has k m) eqn:Hhas.
  - now apply obj_get_replace_same.
  - apply obj_get_app_new. unfold obj_has in Hhas.
    now destruct (obj_get k m).
Qed.

Lemma map_get_set_other {V : Type} (k k' : string) (v : V)
      (m : list (string * V)) :
  k' <> k -> map_get k' (map_set k v m) = map_get k' m.
Proof.
  intros Hne. unfold map_get, map_set. destruct (obj_has k m).
  - now apply obj_get_replace_other.
  - now apply obj_get_app_other.
Qed.

(** The loop keeps the keys it has and adds one for every node it
    visits. *)
Lemma fill_pool_covers remaining :
  forall pool pool',
    fill_pool ClaudeAgent CodexAgent GeminiAgent remaining pool = Normal pool' ->
    (forall k, obj_has k pool = true -> obj_has k pool' = true)
    /\ forall node, In node remaining -> obj_has (id node) pool' = true.
Proof.
  induction remaining as [|n rest IH]; intros pool pool' Hfill; simpl in Hfill.
  - injection Hfill as <-. split; [tauto|intros node []].
  - destruct (createAgent _ _ _ (agentType n) (id n)) as [agent|e]; [|discriminate].
    simpl in Hfill. destruct (IH _ _ Hfill) as [Hkeeps Hadds].
    assert (Hkept : forall k, obj_has k pool = true ->
                              obj_has k (map_set (id n) agent pool) = true).
    { intros k Hk. unfold obj_has.
      destruct (String.eqb_spec k (id n)) as [->|Hne].
      - fold (@map_get CLIAgent (id n) (map_set (id n) agent pool)).
        now rewrite map_get_set_same.
      - fold (@map_get CLIAgent k (map_set (id n) agent pool)).
        rewrite map_get_set_other by exact Hne. exact Hk. }
    split.
    + intros k Hk. apply Hkeeps. now apply Hkept.
    + intros node [<-|Hin]; [|now apply Hadds].
      apply Hkeeps. unfold obj_has.
      fold (@map_get CLIAgent (id n) (map_set (id n) agent pool)).
      now rewrite map_get_set_same.
Qed.

(** With distinct node ids every node keeps the agent made for it. *)
Lemma fill_pool_binds remaining :
  forall pool pool',
    NoDup (map id remaining) ->
    fill_pool ClaudeAgent CodexAgent GeminiAgent remaining pool = Normal pool' ->
    (forall k, ~ In k (map id remaining) -> map_get k pool' = map_get k pool)
    /\ forall node, In node remaining ->
         exists agent,
           map_get (id node) pool' = Some agent
           /\ createAgent ClaudeAgent CodexAgent GeminiAgent
                          (agentType node) (id node) = Normal agent.
Proof.
  induction remaining as [|n rest IH]; intros pool pool' Hnodup Hfill;
    simpl in Hfill.
  - injection Hfill as <-. split; [reflexivity|intros node []].
  - simpl in Hnodup. inversion Hnodup as [|? ? Hfresh Hrest]; subst.
    destruct (createAgent _ _ _ (agentType n) (id n)) as [agent|e] eqn:Hmake;
      [|discriminate].
    simpl in Hfill. destruct (IH _ _ Hrest Hfill) as [Hframe Hbound].
    split.
    + intros k Hk. simpl in Hk. rewrite Hframe by tauto.
      apply map_get_set_other. intros ->. tauto.
    + intros node [<-|Hin]; [|now apply Hbound].
      exists agent. split; [|exact Hmake].
      rewrite (Hframe (id n) Hfresh). apply map_get_set_same.
Qed.

Lemma fill_pool_unknown remaining :
  forall pool n,
    find (fun m => negb (known_agent_type (agentType m))) remaining = Some n ->
    fill_pool ClaudeAgent CodexAgent GeminiAgent remaining pool
    = Throw (ErrorObject ("Unknown agent type: " ++ agentType n)).
Proof.
  induction remaining as [|m rest IH]; intros pool n Hfind; [discriminate|].
  simpl in *. destruct (known_agent_type (agentType m)) eqn:Hknown; simpl in Hfind.
  - destruct (createAgent_known _ (id m) Hknown) as [agent ->]. simpl.
    now apply IH.
  - injection Hfind as <-. now rewrite (createAgent_unknown _ _ Hknown).
Qed.

Lemma fill_pool_known remaining :
  forall pool,
    forallb (fun m => known_agent_type (agentType m)) remaining = true ->
    exists pool',
      fill_pool ClaudeAgent CodexAgent GeminiAgent remaining pool = Normal pool'.
Proof.
  induction remaining as [|m rest IH]; intros pool Hall; simpl in *; [eauto|].
  apply andb_true_iff in Hall. destruct Hall as [Hknown Hrest].
  destruct (createAgent_known _ (id m) Hknown) as [agent ->]. simpl.
  now apply IH.
Qed.

End PoolFacts.

(** X13.  When [createAgentPool] returns a pool, every node of the
    schema has an entry in it, so the executor of a node of the schema
    never takes the no-agent path: each of its executions counts an
    attempt.  When the node ids are distinct, the entry of a node is
    the agent made for that node's agent type. *)
Theorem agent_pool_covers_schema `{Host}
        (ClaudeAgent CodexAgent GeminiAgent : string -> CLIAgent)
        (schema : StateMachineSchema) (pool : list (string * CLIAgent)) :
  createAgentPool ClaudeAgent CodexAgent GeminiAgent schema = Normal pool ->
  (forall node, In node (nodes schema) ->
     (exists agent, map_get (id node) pool = Some agent)
     /\ forall st w, exists u w',
          createNodeExecutor node pool st w = (Normal u, w')
          /\ upd_retryCount u
             = Some (singleton (id node)
                               (nullish (obj_get (id node) (_retryCount st)) 0 + 1)))
  /\ (NoDup (map id (nodes schema)) ->
      forall node, In node (nodes schema) ->
        exists agent,
          map_get (id node) pool = Some agent
          /\ createAgent ClaudeAgent CodexAgent GeminiAgent
                         (agentType node) (id node) = Normal agent).
Proof.
  intros Hpool. unfold createAgentPool in Hpool. split.
  - intros node Hnode.
    destruct (fill_pool_covers _ _ _ _ _ _ Hpool) as [_ Hcovers].
    specialize (Hcovers node Hnode). unfold obj_has in Hcovers.
    destruct (obj_get (id node) pool) as [agent|] eqn:Hagent; [|discriminate].
    split; [now exists agent|].
    intros st w.
    destruct (date_now w) as [t0 w1] eqn:Hnow.
    destruct (execute agent (full_prompt node st) w1) as [[output|e] w2] eqn:Hexec;
      destruct (date_now w2) as [t1 w3] eqn:Hend.
    + destruct (executor_on_success node pool _ _ _ _ _ _ _ _ _
                                    Hagent Hnow Hexec Hend) as (mu & -> & _).
      eexists _, _. split; reflexivity.
    + destruct (executor_on_failure node pool _ _ _ _ _ _ _ _ _
                                    Hagent Hnow Hexec Hend) as (mu & -> & _).
      eexists _, _. split; reflexivity.
  - intros Hnodup node Hnode.
    destruct (fill_pool_binds _ _ _ _ _ _ Hnodup Hpool) as [_ Hbound].
    now apply Hbound.
Qed.

(** The pool of [linear_schema]: [A] has an agent, and one for its
    type. *)
Lemma agent_pool_covers_schema_witness :
  exists pool,
    createAgentPool (H := demo_host) demo_claude demo_codex demo_gemini
                    linear_schema = Normal pool
    /\ map_get "A" pool = Some (demo_claude "A").
Proof.
  eexists. split; [reflexivity|].
  destruct (agent_pool_covers_schema (H := demo_host)
              demo_claude demo_codex demo_gemini linear_schema _ eq_refl)
    as [_ Hbound].
  destruct (Hbound ltac:(repeat constructor; simpl; intuition discriminate)
                   (demo_node "A" None None) ltac:(now left))
    as (agent & Hget & Hmade).
  change (Normal (demo_claude "A") = Normal agent) in Hmade.
  injection Hmade as <-. exact Hget.
Defined.

(** X14.  [createAgentPool] throws ["Unknown agent type: <type>"] for
    the first node whose agent type is not one of [claude], [codex] and
    [gemini], and returns a pool when there is no such node. *)
Theorem agent_pool_unknown_type `{Host}
        (ClaudeAgent CodexAgent GeminiAgent : string -> CLIAgent)
        (schema : StateMachineSchema) :
  (forall n,
      find (fun m => negb (known_agent_type (agentType m))) (nodes schema) = Some n ->
      createAgentPool ClaudeAgent CodexAgent GeminiAgent schema
      = Throw (ErrorObject ("Unknown agent type: " ++ agentType n)))
  /\ (find (fun m => negb (known_agent_type (agentType m))) (nodes schema) = None ->
      exists pool,
        createAgentPool ClaudeAgent CodexAgent GeminiAgent schema = Normal pool).
Proof.
  split.
  - intros n Hfind. now apply fill_pool_unknown.
  - intros Hnone. apply fill_pool_known. apply forallb_forall. intros m Hm.
    pose proof (find_none _ _ Hnone m Hm) as Hk. simpl in Hk.
    now destruct (known_agent_type (agentType m)).
Qed.

(** [local_schema] passes validation under the roster [claude, local],
    and [createAgentPool] throws on its node [L]. *)
Lemma agent_pool_unknown_type_witness :
  generateStateMachine_validate ["claude"; "local"] (value_of_schema local_schema)
  = inl (value_of_schema local_schema)
  /\ createAgentPool (H := demo_host) demo_claude demo_codex demo_gemini local_schema
     = Throw (ErrorObject "Unknown agent type: local").
Proof.
  split; [reflexivity|].
  exact (proj1 (agent_pool_unknown_type (H := demo_host)
                  demo_claude demo_codex demo_gemini local_schema)
               _ eq_refl).
Defined.

(** ** The command line *)

Lemma parseArgs_fold (args : list string) (verbose : bool) (parts : list string) :
  fold_left (fun (state : bool * list string) (arg : string) =>
               if is_verbose_flag arg then (true, snd state)
               else (fst state, (snd state ++ [arg])%list))
            args (verbose, parts)
  = (verbose || existsb is_verbose_flag args,
     (parts ++ filter plain_argument args)%list).
Proof.
  revert verbose parts. induction args as [|arg args IH]; intros verbose parts.
  - simpl. now rewrite orb_false_r, app_nil_r.
  - cbn [fold_left existsb filter]. unfold plain_argument at 1.
    destruct (is_verbose_flag arg); simpl; rewrite IH.
    + now rewrite orb_true_r.
    + now rewrite <- app_assoc.
Qed.

Lemma parse_from_plain (pre rest : list string) :
  forall verbose file parts,
    (forall a, In a pre -> is_file_flag a = false) ->
    parse_from (pre ++ rest) verbose file parts
    = parse_from rest (verbose || existsb is_verbose_flag pre) file
                 (parts ++ filter plain_argument pre)%list.
Proof.
  induction pre as [|arg pre IH]; intros verbose file parts Hplain.
  - simpl. now rewrite orb_false_r, app_nil_r.
  - assert (Harg := Hplain arg (or_introl eq_refl)).
    assert (Hpre : forall a, In a pre -> is_file_flag a = false)
      by (intros a Ha; apply Hplain; now right).
    cbn [app parse_from existsb filter]. unfold plain_argument at 1.
    destruct (is_verbose_flag arg); simpl.
    + rewrite IH by exact Hpre. now rewrite orb_true_r.
    + rewrite Harg, IH by exact Hpre. now rewrite <- app_assoc.
Qed.

(** X15.  [parseArgs] turns [verbose] on exactly when one of the
    arguments is [-v] or [--verbose], wherever it stands, and the prompt
    is the other arguments, in order, joined by single spaces. *)
Theorem parseArgs_closed_form (args : list string) :
  parseArgs args
  = {| args_prompt := String.concat " " (filter plain_argument args);
       args_verbose := existsb is_verbose_flag args |}.
Proof.
  unfold parseArgs. now rewrite parseArgs_fold.
Qed.

(** X16.  On arguments without [-f] and [--file], the [parseArgs] with
    the file option gives the prompt and the verbosity of the one
    without, and no file. *)
Theorem parseArgs_file_without_file (args : list string) :
  (forall a, In a args -> is_file_flag a = false) ->
  parseArgs_file args
  = {| parsed_prompt := args_prompt (parseArgs args);
       parsed_verbose := args_verbose (parseArgs args);
       parsed_file := None |}.
Proof.
  intros Hplain. unfold parseArgs_file.
  rewrite <- (app_nil_r args) at 1.
  rewrite parse_from_plain by exact Hplain.
  unfold parseArgs. now rewrite parseArgs_fold.
Qed.

Lemma parseArgs_file_without_file_witness :
  parseArgs_file ["explain"; "-v"; "recursion"]
  = {| parsed_prompt := "explain recursion"; parsed_verbose := true;
       parsed_file := None |}.
Proof.
  rewrite parseArgs_file_without_file; [reflexivity|].
  intros a [<-|[<-|[<-|[]]]]; reflexivity.
Defined.

(** X17.  A file flag takes the argument after it as the file, whatever
    that argument is: it does not enter the prompt and does not turn
    [verbose] on even when it is [-v].  A file flag in last position
    leaves no file. *)
Theorem parseArgs_file_operand (pre post : list string) (flag operand : string) :
  (forall a, In a pre -> is_file_flag a = false) ->
  (forall a, In a post -> is_file_flag a = false) ->
  is_verbose_flag flag = false ->
  is_file_flag flag = true ->
  parseArgs_file (pre ++ flag :: operand :: post)
  = {| parsed_prompt :=
         String.concat " " (filter plain_argument pre ++ filter plain_argument post);
       parsed_verbose :=
         existsb is_verbose_flag pre || existsb is_verbose_flag post;
       parsed_file := Some operand |}
  /\ parseArgs_file (pre ++ [flag])
     = {| parsed_prompt := String.concat " " (filter plain_argument pre);
          parsed_verbose := existsb is_verbose_flag pre;
          parsed_file := None |}.
Proof.
  intros Hpre Hpost Hnot_verbose Hfile. unfold parseArgs_file. split.
  - rewrite parse_from_plain by exact Hpre.
    cbn [parse_from]. rewrite Hnot_verbose, Hfile.
    rewrite <- (app_nil_r post) at 1.
    rewrite parse_from_plain by exact Hpost. reflexivity.
  - rewrite parse_from_plain by exact Hpre.
    cbn [parse_from]. now rewrite Hnot_verbose, Hfile.
Qed.

(** [-f -v]: the file is called [-v] and the run is not verbose. *)
Lemma parseArgs_file_operand_witness :
  parseArgs_file ["summarise"; "-f"; "-v"]
  = {| parsed_prompt := "summarise"; parsed_verbose := false;
       parsed_file := Some "-v" |}.
Proof.
  refine (proj1 (parseArgs_file_operand ["summarise"] [] "-f" "-v" _ _ eq_refl eq_refl)).
  - intros a [<-|[]]. reflexivity.
  - intros a [].
Defined.

(** ** More on schema validation *)

Lemma rejected_with (config_agents : list string) (parsed : value) (i : ZodIssue) :
  violation (createStateMachineSchemaDefinition config_agents) [] parsed i ->
  exists issues,
    generateStateMachine_validate config_agents parsed = inr issues
    /\ In i issues.
Proof.
  intros Hv. apply zod_issues_iff_violation in Hv.
  unfold generateStateMachine_validate, zod_parse.
  destruct (zod_issues _ [] parsed) as [|i0 rest]; [contradiction|].
  eexists. split; [reflexivity|exact Hv].
Qed.

Lemma createAgentTypeSchema_roster (config_agents : list string) :
  createAgentTypeSchema config_agents = z_enum (roster config_agents).
Proof. now destruct config_agents. Qed.

(** A violation inside the node at index [i] of a candidate is a
    violation of the candidate. *)
Lemma violation_in_node (config_agents : list string) (ps : obj value)
      (l : list value) (i : nat) (x : value) (issue : ZodIssue) :
  field "nodes" ps = VArr l ->
  nth_error l i = Some x ->
  violation (createStateNodeDefinitionSchema config_agents)
            [Key "nodes"; Index i] x issue ->
  violation (createStateMachineSchemaDefinition config_agents) [] (VObj ps) issue.
Proof.
  intros Hnodes Hnth Hv.
  unfold createStateMachineSchemaDefinition, machine_shape.
  eapply viol_object_field with (k := "nodes"); [simpl; tauto|].
  rewrite Hnodes. eapply viol_array_element; [exact Hnth|exact Hv].
Qed.

(** X18.  [null] does not stand for an absent optional field: a
    candidate one of whose nodes has [maxRetries], [onSuccess] or
    [onError] set to [null] is rejected, with an issue for that field
    of that node. *)
Theorem null_optional_field_rejected (config_agents : list string)
        (ps nps : obj value) (l : list value) (i : nat) :
  field "nodes" ps = VArr l ->
  nth_error l i = Some (VObj nps) ->
  (field "maxRetries" nps = VNull ->
   exists issues,
     generateStateMachine_validate config_agents (VObj ps) = inr issues
     /\ In (invalid_type "number" "null" [Key "nodes"; Index i; Key "maxRetries"])
           issues)
  /\ (forall k, k = "onSuccess" \/ k = "onError" ->
      field k nps = VNull ->
      exists issues,
        generateStateMachine_validate config_agents (VObj ps) = inr issues
        /\ In (invalid_type "string" "null" [Key "nodes"; Index i; Key k]) issues).
Proof.
  intros Hnodes Hnth. split.
  - intros Hnull. apply rejected_with.
    eapply violation_in_node; [exact Hnodes|exact Hnth|].
    unfold createStateNodeDefinitionSchema, node_shape.
    eapply viol_object_field with (k := "maxRetries"); [simpl; tauto|].
    rewrite Hnull. apply viol_optional; [discriminate|].
    apply (viol_number _ VNull). discriminate.
  - intros k Hk Hnull. apply rejected_with.
    eapply violation_in_node; [exact Hnodes|exact Hnth|].
    unfold createStateNodeDefinitionSchema, node_shape.
    eapply viol_object_field with (k := k);
      [destruct Hk as [-> | ->]; simpl; tauto|].
    rewrite Hnull. apply viol_optional; [discriminate|].
    apply (viol_string _ VNull). discriminate.
Qed.

(** X19.  A node whose agent type is not in the roster makes validation
    reject the schema's document, with an issue that names the type and
    the roster at [nodes[i].agentType]; with an empty configured roster
    the roster is [claude], [codex], [gemini]. *)
Theorem agent_type_outside_roster_rejected (config_agents : list string)
        (s : StateMachineSchema) (i : nat) (n : StateNodeDefinition) :
  nth_error (nodes s) i = Some n ->
  mem (agentType n) (roster config_agents) = false ->
  exists issues,
    generateStateMachine_validate config_agents (value_of_schema s) = inr issues
    /\ In (invalid_enum_value (roster config_agents) (agentType n)
                              [Key "nodes"; Index i; Key "agentType"])
          issues.
Proof.
  intros Hnth Hmem. apply rejected_with.
  unfold value_of_schema.
  eapply violation_in_node with (l := map value_of_node (nodes s)) (x := value_of_node n).
  - reflexivity.
  - apply map_nth_error. exact Hnth.
  - unfold createStateNodeDefinitionSchema, node_shape, value_of_node.
    eapply viol_object_field with (k := "agentType"); [simpl; tauto|].
    rewrite createAgentTypeSchema_roster.
    change (field "agentType" _) with (VStr (agentType n)).
    now apply viol_enum_value.
Qed.

(** [local_schema] under the default roster. *)
Lemma agent_type_outside_roster_rejected_witness :
  exists issues,
    generateStateMachine_validate [] (value_of_schema local_schema) = inr issues
    /\ In (invalid_enum_value ["claude"; "codex"; "gemini"] "local"
                              [Key "nodes"; Index 1; Key "agentType"])
          issues.
Proof.
  exact (agent_type_outside_roster_rejected [] local_schema 1 _ eq_refl eq_refl).
Defined.

(** A candidate whose only node has [maxRetries: null]. *)
Lemma null_optional_field_rejected_witness :
  exists issues,
    generateStateMachine_validate []
      (VObj [("nodes", VArr [VObj [("id", VStr "A"); ("maxRetries", VNull)]])])
    = inr issues
    /\ In (invalid_type "number" "null" [Key "nodes"; Index 0; Key "maxRetries"])
          issues.
Proof.
  exact (proj1 (null_optional_field_rejected []
                  [("nodes", VArr [VObj [("id", VStr "A"); ("maxRetries", VNull)]])]
                  [("id", VStr "A"); ("maxRetries", VNull)] _ 0 eq_refl eq_refl)
               eq_refl).
Defined.

(** *** Validating twice *)

Lemma flat_map_nil_inv {A B : Type} (f : A -> list B) (l : list A) :
  flat_map f l = [] -> forall x, In x l -> f x = [].
Proof.
  induction l as [|a l IH]; intros Hnil x Hx; [contradiction|].
  simpl in Hnil. apply app_eq_nil in Hnil. destruct Hnil as [Ha Hl].
  destruct Hx as [<-|Hx]; [exact Ha|now apply IH].
Qed.

Lemma flat_map_nil {A B : Type} (f : A -> list B) (l : list A) :
  (forall x, In x l -> f x = []) -> flat_map f l = [].
Proof.
  induction l as [|a l IH]; intros Hall; simpl; [reflexivity|].
  rewrite (Hall a (or_introl eq_refl)). simpl. apply IH.
  intros x Hx. apply Hall. now right.
Qed.

Lemma flat_map_ext_in {A B : Type} (f g : A -> list B) (l : list A) :
  (forall x, In x l -> f x = g x) -> flat_map f l = flat_map g l.
Proof.
  induction l as [|a l IH]; intros Hext; simpl; [reflexivity|].
  rewrite (Hext a (or_introl eq_refl)). f_equal. apply IH.
  intros x Hx. apply Hext. now right.
Qed.

(** The parsed data of an object has no key outside the shape. *)
Lemma output_key_declared (shape : list (string * ZodType)) (ps : obj value)
      (k : string) :
  ~ In k (map fst shape) ->
  obj_get k (flat_map (fun kt : string * ZodType =>
                         let (k', t') := kt in
                         if obj_has k' ps
                         then [(k', zod_output t' (field k' ps))]
                         else []) shape) = None.
Proof.
  induction shape as [|[k0 t0] shape IH]; intros Hk; [reflexivity|].
  simpl in Hk. cbn [flat_map]. destruct (obj_has k0 ps); simpl.
  - destruct (String.eqb_spec k0 k); [tauto|]. apply IH. tauto.
  - apply IH. tauto.
Qed.

Lemma obj_has_cons {A : Type} (k k0 : string) (v : A) (o : obj A) :
  obj_has k ((k0, v) :: o) = if (k0 =? k)%string then true else obj_has k o.
Proof. unfold obj_has. simpl. now destruct (k0 =? k)%string. Qed.

(** A declared key is in the parsed data exactly when the candidate has
    it. *)
Lemma output_has_key (shape : list (string * ZodType)) (ps : obj value)
      (k : string) (tk : ZodType) :
  NoDup (map fst shape) -> In (k, tk) shape ->
  obj_has k (flat_map (fun kt : string * ZodType =>
                         let (k', t') := kt in
                         if obj_has k' ps
                         then [(k', zod_output t' (field k' ps))]
                         else []) shape)
  = obj_has k ps.
Proof.
  induction shape as [|[k0 t0] shape IH]; intros Hnodup Hin; [contradiction|].
  simpl in Hnodup. inversion Hnodup as [|? ? Hfresh Hrest]; subst.
  cbn [flat_map]. destruct Hin as [Heq|Hin].
  - injection Heq as -> ->. destruct (obj_has k ps) eqn:Hhas.
    + cbn [app]. rewrite obj_has_cons. now rewrite String.eqb_refl.
    + cbn [app]. unfold obj_has at 1. now rewrite output_key_declared.
  - assert (Hne : k0 <> k).
    { intros ->. apply Hfresh. apply in_map_iff. now exists (k, tk). }
    destruct (obj_has k0 ps); cbn [app].
    + rewrite obj_has_cons. destruct (String.eqb_spec k0 k); [contradiction|].
      now apply IH.
    + now apply IH.
Qed.

Lemma optional_output (t : ZodType) (x : value) :
  zod_output (z_optional t) x = zod_output t x.
Proof. destruct x; try reflexivity. simpl. now rewrite zod_output_undefined. Qed.

Lemma optional_no_issue (t : ZodType) (p : list path_elem) (x : value) :
  zod_issues t p x = [] -> zod_issues (z_optional t) p x = [].
Proof. now destruct x. Qed.

(** A value without issues has parsed data without issues, and parsing
    the parsed data gives it back. *)
Lemma zod_reparse (t : ZodType) :
  well_keyed t ->
  forall p v,
    zod_issues t p v = [] ->
    (forall p', zod_issues t p' (zod_output t v) = [])
    /\ zod_output t (zod_output t v) = zod_output t v.
Proof.
  induction t as [| | | options | t IH | t IH | shape IH | t IH]
    using ZodType_nested_ind; intros Hwk p v Hv.
  - destruct v; try discriminate. now split.
  - destruct v; try discriminate. now split.
  - now split.
  - destruct v; try discriminate. simpl in *.
    destruct (mem s options); [now split|discriminate].
  - inversion Hwk as [| | | |t' Hwk'| | |]; subst.
    destruct v; try (now split);
      cbn [zod_issues] in Hv; destruct (IH Hwk' p _ Hv) as [Hissues Houtput];
      rewrite (optional_output t _);
      (split; [intros p'; apply optional_no_issue, Hissues
              |now rewrite optional_output, Houtput]).
  - inversion Hwk as [| | | | |t' Hwk'| |]; subst.
    destruct v; try discriminate. cbn [zod_issues] in Hv. cbn [zod_output]. split.
    + intros p'. cbn [zod_issues]. apply flat_mapi_nil.
      intros x Hx i. apply in_map_iff in Hx. destruct Hx as (y & <- & Hy).
      destruct (flat_mapi_nil_inv _ _ _ Hv y Hy) as [j Hj].
      now apply (IH Hwk' _ _ Hj).
    + cbn [zod_output]. f_equal. rewrite map_map. apply map_ext_in.
      intros y Hy. destruct (flat_mapi_nil_inv _ _ _ Hv y Hy) as [j Hj].
      now apply (IH Hwk' _ _ Hj).
  - inversion Hwk as [| | | | | |shape' Hnodup Hfields|]; subst.
    destruct v; try discriminate. cbn [zod_issues] in Hv. cbn [zod_output].
    rewrite Forall_forall in IH.
    assert (Hfield : forall k tk, In (k, tk) shape ->
              (forall p', zod_issues tk p' (zod_output tk (field k props)) = [])
              /\ zod_output tk (zod_output tk (field k props))
                 = zod_output tk (field k props)).
    { intros k tk Hin.
      apply (IH (k, tk) Hin (Hfields k tk Hin) (p ++ [Key k])%list).
      exact (flat_map_nil_inv _ _ Hv (k, tk) Hin). }
    split.
    + intros p'. cbn [zod_issues]. apply flat_map_nil. intros [k tk] Hin.
      rewrite (field_of_output shape props k tk Hnodup Hin).
      now apply Hfield.
    + cbn [zod_output]. f_equal. apply flat_map_ext_in. intros [k tk] Hin.
      rewrite (output_has_key shape props k tk Hnodup Hin).
      rewrite (field_of_output shape props k tk Hnodup Hin).
      now rewrite (proj2 (Hfield k tk Hin)).
  - inversion Hwk as [| | | | | | |t' Hwk']; subst.
    destruct v; try discriminate. cbn [zod_issues] in Hv. cbn [zod_output]. split.
    + intros p'. cbn [zod_issues]. apply flat_map_nil.
      intros x Hx. apply in_map_iff in Hx. destruct Hx as ([k y] & <- & Hy).
      simpl. apply (IH Hwk' _ _ (flat_map_nil_inv _ _ Hv (k, y) Hy)).
    + cbn [zod_output]. f_equal. rewrite map_map. apply map_ext_in.
      intros [k y] Hy. simpl. f_equal.
      apply (IH Hwk' _ _ (flat_map_nil_inv _ _ Hv (k, y) Hy)).
Qed.

Ltac distinct_keys :=
  simpl; repeat constructor; simpl; intuition discriminate.

Ltac field_types :=
  let k := fresh "k" in
  let t := fresh "t" in
  let Hin := fresh "Hin" in
  intros k t Hin; simpl in Hin;
  repeat (destruct Hin as [Hin|Hin]; [injection Hin as <- <-|]);
  try contradiction.

Lemma machine_well_keyed (config_agents : list string) :
  well_keyed (createStateMachineSchemaDefinition config_agents).
Proof.
  assert (Hnode : well_keyed (createStateNodeDefinitionSchema config_agents)).
  { unfold createStateNodeDefinitionSchema, node_shape.
    rewrite createAgentTypeSchema_roster.
    apply wk_object; [distinct_keys|]. field_types; repeat constructor. }
  assert (Hcondition : well_keyed ConditionDefinitionSchema).
  { apply wk_object; [distinct_keys|]. field_types; repeat constructor. }
  assert (Hedge : well_keyed EdgeDefinitionSchema).
  { apply wk_object; [distinct_keys|].
    field_types; try (repeat constructor; fail).
    now apply wk_optional. }
  unfold createStateMachineSchemaDefinition, machine_shape.
  apply wk_object; [distinct_keys|].
  field_types; try (repeat constructor; fail); now apply wk_array.
Qed.

(** X20.  Validation is idempotent, and what it hands back holds only
    declared keys: a document that validation accepts becomes an object
    whose keys are among the seven of the schema, and validating that
    object again accepts it and hands it back unchanged. *)
Theorem validation_idempotent (config_agents : list string)
        (parsed validated : value) :
  generateStateMachine_validate config_agents parsed = inl validated ->
  generateStateMachine_validate config_agents validated = inl validated
  /\ exists props,
      validated = VObj props
      /\ forall k, obj_has k props = true ->
           In k ["plan"; "diagram"; "nodes"; "edges"; "startNodeId"; "endNodeId";
                 "initialMetadata"].
Proof.
  unfold generateStateMachine_validate, zod_parse.
  destruct (zod_issues _ [] parsed) eqn:Hv; [|discriminate].
  intros Hok.
  assert (Hvalidated :
            validated
            = zod_output (createStateMachineSchemaDefinition config_agents) parsed)
    by congruence.
  destruct (zod_reparse _ (machine_well_keyed config_agents) [] parsed Hv)
    as [Hissues Houtput].
  split.
  - rewrite Hvalidated, (Hissues []). now rewrite Houtput.
  - clear Hok. unfold createStateMachineSchemaDefinition, machine_shape in *.
    destruct parsed; try discriminate. cbn [zod_output] in Hvalidated.
    eexists. split; [exact Hvalidated|].
    intros k Hk.
    match goal with
    | |- In k ?keys =>
        destruct (in_dec string_dec k keys) as [Hin|Hout]; [exact Hin|]
    end.
    exfalso. unfold obj_has at 1 in Hk.
    rewrite output_key_declared in Hk; [discriminate|exact Hout].
Qed.

(** A document with a key the schema does not declare: the key is
    dropped, and the result validates to itself. *)
Lemma validation_idempotent_witness :
  generateStateMachine_validate []
    (VObj (("note", VStr "extra") :: props_of (value_of_schema linear_schema)))
  = inl (value_of_schema linear_schema)
  /\ generateStateMachine_validate [] (value_of_schema linear_schema)
     = inl (value_of_schema linear_schema).
Proof.
  split; [reflexivity|].
  exact (proj1 (validation_idempotent []
                  (VObj (("note", VStr "extra")
                           :: props_of (value_of_schema linear_schema)))
                  (value_of_schema linear_schema) eq_refl)).
Defined.

(** *** From validation to the agent pool *)

Lemma as_list_Forall {A : Type} (g : value -> option A) (Q : A -> Prop)
      (l : list value) :
  (forall x, In x l -> exists a, g x = Some a /\ Q a) ->
  exists r, as_list g l = Some r /\ Forall Q r.
Proof.
  induction l as [|x l IH]; intros Hall; simpl; [eauto|].
  destruct (Hall x (or_introl eq_refl)) as (a & -> & Ha).
  destruct IH as (r & -> & Hr); [intros y Hy; apply Hall; now right|].
  simpl. eauto.
Qed.

(** A node without issues is read back with an agent type of the
    enumeration. *)
Lemma node_view_agent (options : list string) (p : list path_elem) (v : value) :
  zod_issues (node_shape (z_enum options)) p v = [] ->
  exists n, node_of_value (zod_output (node_shape (z_enum options)) v) = Some n
            /\ In (agentType n) options.
Proof.
  intros Hv. unfold node_shape in *.
  destruct v; try discriminate. cbn [zod_issues flat_map] in Hv.
  split_issues Hv.
  cbn [zod_output]. unfold node_of_value.
  read_field "id". read_field "name". read_field "description".
  read_field "agentType". read_field "basePrompt". read_field "maxRetries".
  read_field "onSuccess". read_field "onError".
  destruct (no_issue_string _ _ Hissue) as [i ->].
  destruct (no_issue_string _ _ Hissue0) as [nm ->].
  destruct (no_issue_string _ _ Hissue1) as [d ->].
  destruct (no_issue_enum _ _ _ Hissue2) as [a Ha]. rewrite Ha in Hissue2 |- *.
  destruct (no_issue_string _ _ Hissue3) as [b ->].
  destruct (no_issue_optional_number _ _ Hissue4) as [m ->].
  destruct (no_issue_optional_string _ _ Hissue5) as [s ->].
  destruct (no_issue_optional_string _ _ Hissue6) as [e ->].
  simpl. eexists. split; [reflexivity|]. simpl.
  apply mem_In. simpl in Hissue2.
  now destruct (mem a options).
Qed.

(** X21.  Validation and the agent pool fit together under the default
    roster, and under any roster of agent types that [createAgent]
    knows: a document that validation accepts is a schema whose nodes
    all have an agent type of the roster, and [createAgentPool] returns
    a pool for it. *)
Theorem validated_schema_gets_pool `{Host}
        (ClaudeAgent CodexAgent GeminiAgent : string -> CLIAgent)
        (config_agents : list string) (parsed validated : value) :
  generateStateMachine_validate config_agents parsed = inl validated ->
  exists schema,
    schema_of_value validated = Some schema
    /\ (forall n, In n (nodes schema) -> In (agentType n) (roster config_agents))
    /\ ((forall a, In a (roster config_agents) -> known_agent_type a = true) ->
        exists pool,
          createAgentPool ClaudeAgent CodexAgent GeminiAgent schema = Normal pool).
Proof.
  unfold generateStateMachine_validate, zod_parse.
  destruct (zod_issues _ [] parsed) eqn:Hv; [|discriminate].
  intros Hok.
  replace validated
    with (zod_output (createStateMachineSchemaDefinition config_agents) parsed)
    by congruence.
  clear Hok.
  unfold createStateMachineSchemaDefinition, createStateNodeDefinitionSchema in *.
  rewrite createAgentTypeSchema_roster in *.
  set (nodeSchema := node_shape (z_enum (roster config_agents))) in *.
  unfold machine_shape in *.
  destruct parsed; try discriminate. cbn [zod_issues flat_map] in Hv.
  split_issues Hv.
  cbn [zod_output]. unfold schema_of_value.
  read_field "plan". read_field "diagram". read_field "nodes". read_field "edges".
  read_field "startNodeId". read_field "endNodeId". read_field "initialMetadata".
  destruct (no_issue_string _ _ Hissue) as [pl ->].
  destruct (no_issue_string _ _ Hissue0) as [d ->].
  assert (Hnodes : exists ns,
             as_array node_of_value (zod_output (z_array nodeSchema)
                                                (field "nodes" props)) = Some ns
             /\ Forall (fun n => In (agentType n) (roster config_agents)) ns).
  { destruct (field "nodes" props); try discriminate.
    cbn [zod_issues] in Hissue1. cbn [zod_output as_array].
    apply as_list_Forall.
    intros y Hy. apply in_map_iff in Hy. destruct Hy as (x & <- & Hx).
    destruct (flat_mapi_nil_inv _ _ _ Hissue1 x Hx) as [j Hj].
    exact (node_view_agent _ _ _ Hj). }
  destruct Hnodes as (ns & -> & Hroster).
  destruct (array_view EdgeDefinitionSchema edge_of_value _ _
                       (fun p x => edge_view p x) Hissue2) as [es ->].
  destruct (no_issue_string _ _ Hissue3) as [st ->].
  destruct (no_issue_string _ _ Hissue4) as [en ->].
  destruct (metadata_view _ _ Hissue5) as [m ->].
  simpl. eexists. split; [reflexivity|]. simpl.
  rewrite Forall_forall in Hroster. split; [exact Hroster|].
  intros Hknown. apply fill_pool_known. apply forallb_forall.
  intros n Hn. apply Hknown, Hroster, Hn.
Qed.

(** Under the default roster, the document of [linear_schema] is
    accepted and gets a pool. *)
Lemma validated_schema_gets_pool_witness :
  generateStateMachine_validate [] (value_of_schema linear_schema)
  = inl (value_of_schema linear_schema)
  /\ exists pool,
      createAgentPool (H := demo_host) demo_claude demo_codex demo_gemini
                      linear_schema
      = Normal pool.
Proof.
  split; [reflexivity|].
  destruct (validated_schema_gets_pool (H := demo_host)
              demo_claude demo_codex demo_gemini []
              (value_of_schema linear_schema) (value_of_schema linear_schema)
              eq_refl)
    as (schema & Hschema & _ & Hpool).
  assert (Hsame : schema = linear_schema).
  { apply (f_equal (fun o => match o with Some s => s | None => linear_schema end))
      in Hschema.
    symmetry. exact Hschema. }
  rewrite <- Hsame. apply Hpool.
  intros a Ha. simpl in Ha.
  repeat (destruct Ha as [<-|Ha]; [reflexivity|]). contradiction.
Defined.
